(** * Respiration landmark detection: [rsp_findpeaks]

    A shallow embedding of [neurokit2/rsp/rsp_findpeaks.py] and the
    properties of its zero-crossing pipeline (extrema locator, outlier
    filter, sequence sanitizer, physiological-rate filter, method dispatch).

    Modelling conventions.
    - A signal is a [list Qc]: samples are finite reals, computed with
      exactly, as rationals.  NaN, infinities and rounding are outside the
      model.  The only arithmetic the pipeline does on samples is
      subtraction, absolute value, a median, one product with
      [amplitude_min], and comparisons; the threshold 1.7 of the rate filter
      is the rational 17/10.
    - Sample positions are [nat]; numpy's negative subscripts ([a[-1]],
      [a[:-1]], [a[0:-1:2]]) are written out.
    - A Python exception is a [Raise] carrying the exception and its
      traceback: the functions of this file it went through, outermost
      first; the last one is the function whose code raised.
    - Strings are ASCII: [lower] maps A..Z to a..z and leaves the other
      characters alone. *)

From Stdlib Require Import QArith Qcanon Qcabs Ascii String.
From stdpp Require Import base numbers list sorting gmap strings.

Local Open Scope nat_scope.

(** ** Exceptions and the result monad *)

Inductive frame :=
  | in_rsp_findpeaks
  | in_khodadad
  | in_biosppy
  | in_noto
  | in_scipy
  | in_extrema
  | in_outliers
  | in_sanitize
  | in_external.

Inductive exception :=
  | IndexError
  | ValueError (msg : string)
  | KeyError (key : string)
  | NameError
  | UnboundLocalError.

Inductive result (A : Type) :=
  | Ok (a : A)
  | Raise (e : exception) (traceback : list frame).
Arguments Ok {A} a.
Arguments Raise {A} e traceback.

Global Instance result_ret : MRet result := λ A a, Ok a.
Global Instance result_bind : MBind result := λ A B f r,
  match r with
  | Ok a => f a
  | Raise e tb => Raise e tb
  end.

(** Running a function body: an exception that leaves it gets the
    function's frame in front of its traceback. *)
Definition within {A} (f : frame) (r : result A) : result A :=
  match r with
  | Ok a => Ok a
  | Raise e tb => Raise e (f :: tb)
  end.

(** The frame whose code raised: the innermost one. *)
Definition raised_in {A} (r : result A) : option frame :=
  match r with
  | Ok _ => None
  | Raise _ tb => last tb
  end.

(** ** numpy primitives *)

(** [a[i]] for [0 <= i]. *)
Definition getitem {A} (a : list A) (i : nat) : result A :=
  match a !! i with
  | Some x => Ok x
  | None => Raise IndexError []
  end.

(** [a[-k]] for [1 <= k]. *)
Definition getitem_neg {A} (a : list A) (k : nat) : result A :=
  if decide (k ≤ length a) then getitem a (length a - k)
  else Raise IndexError [].

(** [a[idx]] for an integer array [idx]. *)
Definition take_idx {A} (a : list A) (idx : list nat) : result (list A) :=
  mapM (getitem a) idx.

(** [a[:-1]], [a[1:]], [a[b:e]]. *)
Definition but_last {A} (a : list A) : list A := take (length a - 1) a.
Definition from_1 {A} (a : list A) : list A := drop 1 a.
Definition slice {A} (a : list A) (b e : nat) : list A := take (e - b) (drop b a).

(** [a[0::2]]: the elements at positions 0, 2, 4, ... *)
Fixpoint step2 {A} (a : list A) : list A :=
  match a with
  | [] => []
  | x :: a' => x :: match a' with [] => [] | _ :: a'' => step2 a'' end
  end.

(** [np.where(mask)[0]]. *)
Fixpoint where_from (i : nat) (mask : list bool) : list nat :=
  match mask with
  | [] => []
  | b :: mask' =>
      if b then i :: where_from (S i) mask' else where_from (S i) mask'
  end.
Definition np_where (mask : list bool) : list nat := where_from 0 mask.

Definition bitwise_and (a b : list bool) : list bool := zip_with andb a b.

(** [np.delete(a, obj)] for an integer array [obj]: a mask of the positions
    to keep; a position out of bounds raises. *)
Fixpoint delete_from {A} (i : nat) (obj : list nat) (a : list A) : list A :=
  match a with
  | [] => []
  | x :: a' =>
      if bool_decide (i ∈ obj) then delete_from (S i) obj a'
      else x :: delete_from (S i) obj a'
  end.
Definition np_delete {A} (a : list A) (obj : list nat) : result (list A) :=
  if forallb (λ i, bool_decide (i < length a)) obj
  then Ok (delete_from 0 obj a)
  else Raise IndexError [].

(** [np.delete(a, -1)]. *)
Definition np_delete_last {A} (a : list A) : result (list A) :=
  if decide (1 ≤ length a) then np_delete a [length a - 1]
  else Raise IndexError [].

(** [np.diff], on samples and on positions. *)
Definition np_diff (a : list Qc) : list Qc :=
  zip_with (λ x y, (y - x)%Qc) a (from_1 a).
Definition np_diff_int (a : list nat) : list Z :=
  zip_with (λ x y, (Z.of_nat y - Z.of_nat x)%Z) a (from_1 a).

Definition np_abs (a : list Qc) : list Qc := Qcabs <$> a.

Definition sign (x : Qc) : Z :=
  if bool_decide (x < 0)%Qc then (-1)%Z
  else if bool_decide (0 < x)%Qc then 1%Z else 0%Z.
Definition np_sign (a : list Qc) : list Z := sign <$> a.

(** [np.median]: the middle of the sorted values, or the mean of the two
    middle ones.  On an empty array numpy gives nan, written 0 here: the
    pipeline only compares the (no) elements of that same empty array with
    it. *)
Definition np_median (a : list Qc) : Qc :=
  let sorted := merge_sort Qcle a in
  let n := length a in
  if decide (n = 0) then 0%Qc
  else if Nat.odd n then default 0%Qc (sorted !! (n / 2))
  else
    let lo := default 0%Qc (sorted !! (n / 2 - 1)) in
    let hi := default 0%Qc (sorted !! (n / 2)) in
    ((lo + hi) / Q2Qc 2)%Qc.

(** [np.argmax], [np.argmin]: the first position of the extreme value; an
    empty array raises. *)
Fixpoint argbest_from (better : Qc → Qc → bool)
    (best_i : nat) (best : Qc) (i : nat) (a : list Qc) : nat :=
  match a with
  | [] => best_i
  | x :: a' =>
      if better x best then argbest_from better i x (S i) a'
      else argbest_from better best_i best (S i) a'
  end.
Definition argbest (name : string) (better : Qc → Qc → bool) (a : list Qc)
  : result nat :=
  match a with
  | [] => Raise (ValueError ("attempt to get " ++ name ++ " of an empty sequence")) []
  | x :: a' => Ok (argbest_from better 0 x 1 a')
  end.
Definition np_argmax : list Qc → result nat :=
  argbest "argmax" (λ x best, bool_decide (best < x)%Qc).
Definition np_argmin : list Qc → result nat :=
  argbest "argmin" (λ x best, bool_decide (x < best)%Qc).

(** ** The extrema locator: [_rsp_findpeaks_extrema] *)

Inductive phase := rise | fall.

Definition greater (rsp_cleaned : list Qc) : list bool :=
  (λ x, bool_decide (0 < x)%Qc) <$> rsp_cleaned.
Definition smaller (rsp_cleaned : list Qc) : list bool :=
  (λ x, bool_decide (x < 0)%Qc) <$> rsp_cleaned.

Definition risex (rsp_cleaned : list Qc) : list nat :=
  np_where (bitwise_and (but_last (smaller rsp_cleaned))
                        (from_1 (greater rsp_cleaned))).
Definition fallx (rsp_cleaned : list Qc) : list nat :=
  np_where (bitwise_and (but_last (greater rsp_cleaned))
                        (from_1 (smaller rsp_cleaned))).

(** [startx] stays unbound when neither comparison holds. *)
Definition startx_of (r0 f0 : nat) : option phase :=
  if decide (r0 < f0) then Some rise
  else if decide (f0 < r0) then Some fall
  else None.

Definition allx (rsp_cleaned : list Qc) : list nat :=
  merge_sort (≤) (risex rsp_cleaned ++ fallx rsp_cleaned).

(** The choice of [argextreme] in iteration [i] of the loop. *)
Definition argextreme (startx : option phase) (i : nat)
  : result (list Qc → result nat) :=
  match startx with
  | None => Raise UnboundLocalError []
  | Some rise =>
      if decide ((i + 1) mod 2 ≠ 0) then Ok np_argmax else Ok np_argmin
  | Some fall =>
      if decide ((i + 1) mod 2 ≠ 0) then Ok np_argmin else Ok np_argmax
  end.

(** One iteration of the loop: the value appended to [extrema]. *)
Definition extrema_step (rsp_cleaned : list Qc) (startx : option phase)
    (crossings : list nat) (i : nat) : result nat :=
  arg ← argextreme startx i;
  beg ← getitem crossings i;
  end_ ← getitem crossings (i + 1);
  extreme ← arg (slice rsp_cleaned beg end_);
  Ok (beg + extreme).

Definition _rsp_findpeaks_extrema (rsp_cleaned : list Qc) : result (list nat) :=
  within in_extrema (
    r0 ← getitem (risex rsp_cleaned) 0;
    f0 ← getitem (fallx rsp_cleaned) 0;
    let startx := startx_of r0 f0 in
    let crossings := allx rsp_cleaned in
    mapM (extrema_step rsp_cleaned startx crossings)
         (seq 0 (length crossings - 1))).

(** ** The outlier filter: [_rsp_findpeaks_outliers] *)

(** The amplitude test: the positions of the neighbour differences that are
    large enough, used as positions into [extrema]. *)
Definition min_diff (amps : list Qc) (amplitude_min : Qc) : list nat :=
  let vertical_diff := np_abs (np_diff amps) in
  let median_diff := np_median vertical_diff in
  np_where ((λ d, bool_decide (median_diff * amplitude_min < d)%Qc) <$> vertical_diff).

Definition amplitude_filter (rsp_cleaned : list Qc) (extrema : list nat)
    (amplitude_min : Qc) : result (list nat) :=
  amps ← take_idx rsp_cleaned extrema;
  take_idx extrema (min_diff amps amplitude_min).

(** The alternation repair: the positions to remove. *)
Definition removeext (amplitudes : list Qc) : list nat :=
  let extdiffs := np_sign (np_diff amplitudes) in
  let extdiffs := zip_with Z.add (but_last extdiffs) (from_1 extdiffs) in
  (λ i, i + 1) <$> np_where ((λ d, bool_decide (d ≠ 0%Z)) <$> extdiffs).

Definition alternation_repair (rsp_cleaned : list Qc) (extrema : list nat)
  : result (list nat * list Qc) :=
  amplitudes ← take_idx rsp_cleaned extrema;
  let remove := removeext amplitudes in
  extrema ← np_delete extrema remove;
  amplitudes ← np_delete amplitudes remove;
  Ok (extrema, amplitudes).

Definition _rsp_findpeaks_outliers (rsp_cleaned : list Qc) (extrema : list nat)
    (amplitude_min : Qc) : result (list nat * list Qc) :=
  within in_outliers (
    extrema ← amplitude_filter rsp_cleaned extrema amplitude_min;
    alternation_repair rsp_cleaned extrema).

(** ** The sequence sanitizer: [_rsp_findpeaks_sanitize] *)

Definition _rsp_findpeaks_sanitize (extrema : list nat) (amplitudes : list Qc)
  : result (list nat * list nat) :=
  within in_sanitize (
    a0 ← getitem amplitudes 0;
    a1 ← getitem amplitudes 1;
    extrema ← (if bool_decide (a1 < a0)%Qc then np_delete extrema [0]
               else Ok extrema);
    z1 ← getitem_neg amplitudes 1;
    z2 ← getitem_neg amplitudes 2;
    extrema ← (if bool_decide (z1 < z2)%Qc then np_delete_last extrema
               else Ok extrema);
    let peaks := step2 (from_1 extrema) in
    let troughs := step2 (but_last extrema) in
    Ok (peaks, troughs)).

(** ** The pipelines *)

Record info := Info { RSP_Peaks : list nat; RSP_Troughs : list nat }.

Definition _rsp_findpeaks_khodadad (rsp_cleaned : list Qc) (amplitude_min : Qc)
  : result info :=
  within in_khodadad (
    extrema ← _rsp_findpeaks_extrema rsp_cleaned;
    '(extrema, amplitudes) ← _rsp_findpeaks_outliers rsp_cleaned extrema amplitude_min;
    '(peaks, troughs) ← _rsp_findpeaks_sanitize extrema amplitudes;
    Ok (Info peaks troughs)).

(** [(d / sampling_rate) < 1.7] for an integer interval [d].  Dividing by
    zero gives an infinity of [d]'s sign, or nan for [d = 0]. *)
Definition too_fast (sampling_rate : Z) (d : Z) : bool :=
  if decide (sampling_rate = 0%Z) then bool_decide (d < 0)%Z
  else bool_decide (Q2Qc (inject_Z d) / Q2Qc (inject_Z sampling_rate)
                    < Q2Qc (17 # 10))%Qc.

Definition outlier_idcs (sampling_rate : Z) (peaks : list nat) : list nat :=
  np_where (too_fast sampling_rate <$> np_diff_int peaks).

Definition _rsp_findpeaks_biosppy (rsp_cleaned : list Qc) (sampling_rate : Z)
  : result info :=
  within in_biosppy (
    extrema ← _rsp_findpeaks_extrema rsp_cleaned;
    '(extrema, amplitudes) ← _rsp_findpeaks_outliers rsp_cleaned extrema 0%Qc;
    '(peaks, troughs) ← _rsp_findpeaks_sanitize extrema amplitudes;
    let idcs := outlier_idcs sampling_rate peaks in
    peaks' ← np_delete peaks idcs;
    troughs' ← np_delete troughs idcs;
    Ok (Info peaks' troughs')).

(** ** Method dispatch: [rsp_findpeaks] *)

Definition lower_ascii (c : ascii) : ascii :=
  let n := nat_of_ascii c in
  if decide (65 ≤ n ≤ 90) then ascii_of_nat (n + 32) else c.

Fixpoint lower (s : string) : string :=
  match s with
  | EmptyString => EmptyString
  | String c s' => String (lower_ascii c) (lower s')
  end.

(** What [rsp_findpeaks] accepts: an array-like of samples, or a table of
    named columns. *)
Inductive rsp_input :=
  | Samples (a : list Qc)
  | DataFrame (columns : gmap string (list Qc)).

(** [df[key]]: a missing column raises [KeyError]. *)
Definition column (df : gmap string (list Qc)) (key : string) : result (list Qc) :=
  match df !! key with
  | Some c => Ok c
  | None => Raise (KeyError key) []
  end.

(** [try: body except NameError: handler].  [UnboundLocalError] is a
    subclass of [NameError]. *)
Definition try_except_NameError {A} (body handler : result A) : result A :=
  match body with
  | Raise NameError _ | Raise UnboundLocalError _ => handler
  | r => r
  end.

Definition retrieve_column (rsp_cleaned : rsp_input) : result (list Qc) :=
  match rsp_cleaned with
  | Samples a => Ok a
  | DataFrame df =>
      try_except_NameError (column df "RSP_Clean")
        (try_except_NameError (column df "RSP_Raw")
           (column df "RSP"))
  end.

Definition method_error : string :=
  "NeuroKit error: rsp_findpeaks(): 'method' should be one of " ++
  "'khodadad2018', 'scipy' or 'biosppy'.".

Section Dispatch.

(** The two collaborators from outside this file:
    [signal_processing.utils.detect_peaks_troughs] and
    [scipy.signal.find_peaks] (its index array only). *)
Variable detect_peaks_troughs :
  list Qc → string → Qc → Z → result (list nat * list nat).
Variable find_peaks : list Qc → Qc → Qc → result (list nat).

Definition _rsp_findpeaks_noto (rsp_cleaned : list Qc) (delta : Qc) (lookahead : Z)
  : result info :=
  within in_noto (
    '(peaks, troughs) ← detect_peaks_troughs rsp_cleaned "" delta lookahead;
    Ok (Info peaks troughs)).

Definition _rsp_findpeaks_scipy (rsp_cleaned : list Qc) (sampling_rate : Z)
    (peak_distance peak_prominence : Qc) : result info :=
  within in_scipy (
    let peak_distance := (Q2Qc (inject_Z sampling_rate) * peak_distance)%Qc in
    peaks ← find_peaks rsp_cleaned peak_distance peak_prominence;
    troughs ← find_peaks (Qcopp <$> rsp_cleaned) peak_distance peak_prominence;
    let extrema := merge_sort (≤) (peaks ++ troughs) in
    '(extrema, amplitudes) ← _rsp_findpeaks_outliers rsp_cleaned extrema 0%Qc;
    '(peaks, troughs) ← _rsp_findpeaks_sanitize extrema amplitudes;
    Ok (Info peaks troughs)).

Definition rsp_findpeaks (rsp_cleaned : rsp_input) (sampling_rate : Z)
    (method : string) (amplitude_min peak_distance peak_prominence delta : Qc)
    (lookahead : Z) : result info :=
  within in_rsp_findpeaks (
    cleaned ← retrieve_column rsp_cleaned;
    let method := lower method in
    if bool_decide (method ∈ ["khodadad"; "khodadad2018"]) then
      _rsp_findpeaks_khodadad cleaned amplitude_min
    else if bool_decide (method = "biosppy") then
      _rsp_findpeaks_biosppy cleaned sampling_rate
    else if bool_decide (method ∈ ["noto"; "noto2018"]) then
      _rsp_findpeaks_noto cleaned delta lookahead
    else if bool_decide (method = "scipy") then
      _rsp_findpeaks_scipy cleaned sampling_rate peak_distance peak_prominence
    else Raise (ValueError method_error) []).

End Dispatch.

(** * The vocabulary of the properties *)

(** ** Sequences of sample positions *)

(** Strictly increasing. *)
Definition increasing (l : list nat) : Prop := StronglySorted lt l.

(** The two slices at the end of the sanitizer: [extrema[0:-1:2]] and
    [extrema[1::2]]. *)
Definition troughs_of (extrema : list nat) : list nat := step2 (but_last extrema).
Definition peaks_of (extrema : list nat) : list nat := step2 (from_1 extrema).

(** ** Merging peaks and troughs by position *)

Inductive landmark := Trough | Peak.

Definition by_index : relation (landmark * nat) := λ a b, a.2 ≤ b.2.
Global Instance by_index_dec : RelDecision by_index :=
  λ a b, decide (a.2 ≤ b.2).



(** ** Zero crossings, in the signal's own terms *)

(** Negative at [i] and positive at [i + 1], or the other way round.  A
    sample that is exactly 0 takes part in no crossing. *)
Definition rising_crossing (s : list Qc) (i : nat) : Prop :=
  ∃ x y, s !! i = Some x ∧ s !! S i = Some y ∧ (x < 0)%Qc ∧ (0 < y)%Qc.
Definition falling_crossing (s : list Qc) (i : nat) : Prop :=
  ∃ x y, s !! i = Some x ∧ s !! S i = Some y ∧ (0 < x)%Qc ∧ (y < 0)%Qc.

(** ** The windows of the locator *)

(** Which extreme the [window]-th window (counted from 1) is searched for:
    with phase "rise" the odd windows hold a maximum, with phase "fall" the
    even ones. *)
Definition searches_max (ph : phase) (window : nat) : bool :=
  match ph with
  | rise => Nat.odd window
  | fall => Nat.even window
  end.

(** [off] is the first position of the largest (smallest) value of [w]. *)
Definition first_max (w : list Qc) (off : nat) : Prop :=
  ∃ m, w !! off = Some m ∧ (∀ x, x ∈ w → (x ≤ m)%Qc) ∧
       (∀ j x, j < off → w !! j = Some x → (x < m)%Qc).
Definition first_min (w : list Qc) (off : nat) : Prop :=
  ∃ m, w !! off = Some m ∧ (∀ x, x ∈ w → (m ≤ x)%Qc) ∧
       (∀ j x, j < off → w !! j = Some x → (m < x)%Qc).

(** ** Alternating amplitudes *)

(** Neighbouring amplitudes go up, down, up, ... ([up = true]) or down, up,
    down, ... *)
Fixpoint alternates (up : bool) (amps : list Qc) : bool :=
  match amps with
  | a :: (b :: _) as rest =>
      (if up then bool_decide (a < b)%Qc else bool_decide (b < a)%Qc)
      && alternates (negb up) rest
  | _ => true
  end.

(** Every inner amplitude is strictly above or strictly below both its
    neighbours. *)
Definition zigzag (amps : list Qc) : Prop :=
  ∀ k a b c,
    amps !! k = Some a → amps !! S k = Some b → amps !! S (S k) = Some c →
    (a < b ∧ c < b)%Qc ∨ (b < a ∧ b < c)%Qc.

(** No two neighbouring amplitudes are equal. *)
Definition level_free (amps : list Qc) : bool :=
  forallb (λ d, bool_decide (d ≠ 0%Qc)) (np_diff amps).

(** The amplitudes the alternation repair starts from: the samples at the
    extrema that the amplitude test has kept. *)
Definition tested_amplitudes (s : list Qc) (amplitude_min : Qc)
  : result (list Qc) :=
  extrema ← _rsp_findpeaks_extrema s;
  extrema ← amplitude_filter s extrema amplitude_min;
  take_idx s extrema.

(** A sanitized extrema sequence over a signal: trough, peak, ..., trough,
    peak by amplitude, at strictly increasing positions. *)
Definition sanitized (s : list Qc) (e : list nat) : Prop :=
  increasing e ∧ Nat.even (length e) = true ∧
  ∃ amps, take_idx s e = Ok amps ∧ alternates true amps = true.

(** The filter at [amplitude_min = 0], then the sanitizer. *)
Definition resanitize (s : list Qc) (e : list nat) : result (list nat * list nat) :=
  '(e', amps') ← _rsp_findpeaks_outliers s e 0%Qc;
  _rsp_findpeaks_sanitize e' amps'.

(** ** The physiological rate *)

(** Peak [k] and the next peak are closer than 1.7 seconds: their distance
    in samples, divided by the sampling rate, is below 17/10. *)
Definition fast_pair (sampling_rate : Z) (peaks : list nat) (k : nat) : Prop :=
  ∃ p p', peaks !! k = Some p ∧ peaks !! S k = Some p' ∧
          (10 * (Z.of_nat p' - Z.of_nat p) < 17 * sampling_rate)%Z.

(** ** Method names *)

(** The names that reach one of the four pipelines. *)
Definition recognized (method : string) : bool :=
  bool_decide (lower method ∈
    ["khodadad"; "khodadad2018"; "biosppy"; "noto"; "noto2018"; "scipy"]).

(** [needle in hay], for strings. *)
Fixpoint occurs_in (needle hay : string) : bool :=
  String.prefix needle hay ||
  match hay with
  | EmptyString => false
  | String _ hay' => occurs_in needle hay'
  end.

(** ** Sample inputs *)

(** Three breaths, the last followed by a one-sample blip. *)
Definition breaths : list Qc :=
  Q2Qc <$> [-1; 2; 2; -2; -2; 2; 2; -1; -1; 3; 2; -2; -2; 2; 2; -1; 1; -1]%Q.

(** What the khodadad2018 pipeline returns for [breaths], peaks and troughs
    put back into one sequence. *)
Definition breaths_sanitized : list nat := [3; 5; 7; 9; 11; 14].

(** Up, down, up, down: three extrema, in the order peak, trough, peak. *)
Definition up_down_up : list Qc :=
  Q2Qc <$> [-1; 2; 2; -2; -2; 2; 2; -1]%Q.

(** A ramp through zero: one rising crossing, no falling one. *)
Definition ramp : list Qc := Q2Qc <$> [-2; -1; 1; 2; 3]%Q.

(** A crossing up, down and up again: two windows, two extrema. *)
Definition two_windows : list Qc := Q2Qc <$> [-1; 1; 1; -1; -1; 1]%Q.

(** Breaths of six samples. *)
Definition fast_breaths : list Qc :=
  Q2Qc <$> [-1; -2; -1; 1; 2; 1; -1; -2; -1; 1; 2; 1;
            -1; -2; -1; 1; 2; 1; -1; -2; -1; 1; 2; 1; -1]%Q.

(** A table with the raw channel only. *)
Definition raw_only : gmap string (list Qc) := {[ "RSP_Raw" := breaths ]}.

(** Collaborators that are not there: enough to run the dispatch. *)
Definition no_detector : list Qc → string → Qc → Z → result (list nat * list nat) :=
  λ _ _ _ _, Raise NameError [in_external].
Definition no_find_peaks : list Qc → Qc → Qc → result (list nat) :=
  λ _ _ _, Raise NameError [in_external].

(** ** The sanitizer's trims *)

(** The two trims of the sanitizer, on any sequence that runs along the
    amplitudes. *)
Definition trim_by {A} (amplitudes : list Qc) (l : list A) : list A :=
  let l1 :=
    match amplitudes with
    | a0 :: a1 :: _ => if bool_decide (a1 < a0)%Qc then drop 1 l else l
    | _ => l
    end in
  match last amplitudes, amplitudes !! (length amplitudes - 2) with
  | Some z1, Some z2 => if bool_decide (z1 < z2)%Qc then but_last l1 else l1
  | _, _ => l1
  end.

(** ** Further sample inputs *)

(** Three breaths in which no two samples are equal. *)
Definition distinct_breaths : list Qc :=
  Q2Qc <$> [-1; 3; 2; -3; -2; 5; 4; -5; -4; 7; 6; -7; -6; 9; 8; -8]%Q.

(** Deep breaths, four shallow ones, deep breaths again: two samples to
    each half wave.  The two shallow maxima that pass the amplitude test
    are equally high. *)
Definition deep_shallow_deep : list Qc :=
  Q2Qc <$> [-1; -1; 20; 20; -20; -20; 20; 20; -10; -10; 5; 5; -4; -4; 3; 3;
            -2; -2; 5; 5; -20; -20; 20; 20; -20; -20; 20; 20]%Q.

(** An extremum position beyond the end of [up_down_up]. *)
Definition beyond_the_end : list nat := [1; 3; 8].

(** A stand-in for [scipy.signal.find_peaks]: the positions of the samples
    higher than both their neighbours, whatever the distance and the
    prominence asked for. *)
Definition strict_local_maxima (x : list Qc) (distance prominence : Qc)
  : result (list nat) :=
  let rising := zip_with (λ a b, bool_decide (a < b)%Qc) x (from_1 x) in
  let falling := zip_with (λ a b, bool_decide (b < a)%Qc) x (from_1 x) in
  Ok ((λ i, i + 1) <$> np_where (bitwise_and rising (from_1 falling))).

(** A stand-in for [detect_peaks_troughs] that reports more peaks than
    troughs. *)
Definition uneven_detector : list Qc → string → Qc → Z → result (list nat * list nat) :=
  λ _ _ _ _, Ok ([1; 5; 9], [3; 7]).

(** A table with a cleaned channel beside the raw one. *)
Definition clean_and_raw : gmap string (list Qc) :=
  {[ "RSP_Clean" := breaths; "RSP_Raw" := ramp ]}.

(** * Lemmas on the stages *)

(** ** The result monad *)

Lemma bind_Ok {A B} (r : result A) (f : A → result B) b :
  r ≫= f = Ok b ↔ ∃ a, r = Ok a ∧ f a = Ok b.
Proof.
  destruct r as [a|e tb]; simpl.
  - split; [eauto | by intros (? & [= ->] & ?)].
  - split; [done | by intros (? & ? & ?)].
Qed.

Lemma within_Ok {A} fr (r : result A) a : within fr r = Ok a ↔ r = Ok a.
Proof. destruct r; simpl; split; congruence. Qed.

Lemma within_Raise {A} fr (r : result A) e tb :
  within fr r = Raise e tb ↔ ∃ tb', r = Raise e tb' ∧ tb = fr :: tb'.
Proof.
  destruct r; simpl; split.
  - done.
  - by intros (? & ? & ?).
  - intros [= -> <-]. eauto.
  - by intros (? & [= -> ->] & ->).
Qed.

Lemma mapM_Ok {A B} (f : A → result B) (l : list A) (k : list B) :
  mapM f l = Ok k ↔ Forall2 (λ x y, f x = Ok y) l k.
Proof.
  revert k. induction l as [|x l IH]; intros k; simpl.
  - split; [intros [= <-]; constructor | by inversion 1].
  - split.
    + intros (y & Hy & (k' & Hk' & [= <-])%bind_Ok)%bind_Ok.
      constructor; [done | by apply IH].
    + inversion 1 as [|? y ? k' Hy Hk']; subst.
      apply bind_Ok. exists y. split; [done |].
      apply bind_Ok. exists k'. split; [by apply IH | done].
Qed.

Lemma mapM_is_Ok {A B} (f : A → result B) (l : list A) :
  Forall (λ x, ∃ y, f x = Ok y) l → ∃ k, mapM f l = Ok k.
Proof.
  induction 1 as [|x l [y Hy] _ [k Hk]]; simpl; [by eexists |].
  exists (y :: k). by rewrite Hy; simpl; rewrite Hk.
Qed.

Lemma getitem_Ok {A} (a : list A) i x : getitem a i = Ok x ↔ a !! i = Some x.
Proof. unfold getitem. destruct (a !! i); split; congruence. Qed.

Lemma take_idx_Ok {A} (a : list A) idx k :
  take_idx a idx = Ok k ↔ Forall2 (λ i x, a !! i = Some x) idx k.
Proof.
  unfold take_idx. rewrite mapM_Ok.
  split; intros H; (eapply Forall2_impl; [exact H|]);
    intros i x; simpl; by rewrite getitem_Ok.
Qed.

Lemma take_idx_length {A} (a : list A) idx k :
  take_idx a idx = Ok k → length k = length idx.
Proof. intros ?%take_idx_Ok. symmetry. by eapply Forall2_length. Qed.

Lemma take_idx_lookup {A} (a : list A) idx k j i :
  take_idx a idx = Ok k → idx !! j = Some i → k !! j = a !! i.
Proof.
  intros H%take_idx_Ok Hj.
  destruct (Forall2_lookup_l _ _ _ _ _ H Hj) as (x & -> & ->). done.
Qed.

Lemma take_idx_is_Ok {A} (a : list A) idx :
  Forall (λ i, i < length a) idx → ∃ k, take_idx a idx = Ok k.
Proof.
  intros H. apply mapM_is_Ok. eapply Forall_impl; [exact H|].
  intros i Hi; simpl in Hi. destruct (lookup_lt_is_Some_2 a i Hi) as [x Hx].
  exists x. by apply getitem_Ok.
Qed.

(** ** Strictly increasing position lists *)

Lemma increasing_lookup (l : list nat) :
  increasing l ↔
  ∀ i j x y, l !! i = Some x → l !! j = Some y → i < j → x < y.
Proof.
  unfold increasing. split.
  - induction 1 as [|x l Hl IH Hall]; intros i j a b Hi Hj Hij; [done|].
    destruct j as [|j]; [lia|]. simpl in Hj.
    destruct i as [|i]; simpl in Hi.
    + injection Hi as <-. rewrite Forall_forall in Hall.
      apply Hall. by eapply list_elem_of_lookup_2.
    + eapply IH; eauto. lia.
  - induction l as [|x l IH]; intros H; constructor.
    + apply IH. intros i j a b Hi Hj Hij. apply (H (S i) (S j)); auto. lia.
    + apply Forall_forall. intros y [j Hj]%list_elem_of_lookup_1.
      apply (H 0 (S j)); auto. lia.
Qed.

Lemma increasing_sublist (l k : list nat) :
  l `sublist_of` k → increasing k → increasing l.
Proof.
  unfold increasing. induction 1 as [|x l k Hs IH|x l k Hs IH]; intros Hk.
  - constructor.
  - apply StronglySorted_inv in Hk as [Hk Hall]. constructor; [auto|].
    eapply Forall_forall. intros y Hy. rewrite Forall_forall in Hall.
    apply Hall. by eapply sublist_subseteq.
  - apply StronglySorted_inv in Hk as [Hk _]. auto.
Qed.

Lemma increasing_NoDup (l : list nat) : increasing l → NoDup l.
Proof.
  induction 1 as [|x l Hl IH Hall]; constructor; [|done].
  intros Hx. rewrite Forall_forall in Hall. specialize (Hall _ Hx). lia.
Qed.

Lemma sorted_NoDup_increasing (l : list nat) :
  StronglySorted le l → NoDup l → increasing l.
Proof.
  induction 1 as [|x l Hl IH Hall]; intros Hnd; constructor.
  - apply IH. by apply NoDup_cons_1_2 in Hnd.
  - apply NoDup_cons_1_1 in Hnd. rewrite Forall_forall in Hall |- *.
    intros y Hy. specialize (Hall _ Hy).
    assert (x ≠ y) by (by intros ->). lia.
Qed.

(** ** [np.where] and [np.delete] *)

Lemma elem_of_where_from i mask j :
  j ∈ where_from i mask ↔ ∃ k, j = i + k ∧ mask !! k = Some true.
Proof.
  revert i. induction mask as [|b mask IH]; intros i; simpl.
  - split; [by intros ?%elem_of_nil | by intros (? & ? & ?)].
  - assert (j ∈ where_from (S i) mask ↔
            ∃ k, j = i + S k ∧ mask !! k = Some true) as IH'.
    { rewrite IH. by setoid_rewrite Nat.add_succ_r. }
    destruct b; [rewrite elem_of_cons|]; rewrite IH'; split.
    + intros [->|(k & -> & Hk)]; [exists 0 | exists (S k)]; split; auto; lia.
    + intros ([|k] & -> & Hk); [left; lia | right; eauto].
    + intros (k & -> & Hk). exists (S k); eauto.
    + intros ([|k] & -> & Hk); [done | eauto].
Qed.

Lemma where_from_increasing i mask : increasing (where_from i mask).
Proof.
  revert i. induction mask as [|b mask IH]; intros i; simpl; [constructor|].
  destruct b; [|apply IH]. constructor; [apply IH|].
  apply Forall_forall. intros j (k & -> & _)%elem_of_where_from. lia.
Qed.

Lemma elem_of_np_where mask j : j ∈ np_where mask ↔ mask !! j = Some true.
Proof.
  unfold np_where. rewrite elem_of_where_from. split.
  - by intros (k & -> & Hk).
  - intros Hj. by exists j.
Qed.

Lemma np_where_increasing mask : increasing (np_where mask).
Proof. apply where_from_increasing. Qed.

Lemma np_where_all_true mask :
  Forall (λ b, b = true) mask → np_where mask = seq 0 (length mask).
Proof.
  unfold np_where. generalize 0.
  induction mask as [|b mask IH]; intros i Hall; simpl; [done|].
  apply Forall_cons in Hall as [-> Hall]. by rewrite IH.
Qed.

Lemma np_where_all_false mask :
  Forall (λ b, b = false) mask → np_where mask = [].
Proof.
  unfold np_where. generalize 0.
  induction mask as [|b mask IH]; intros i Hall; simpl; [done|].
  apply Forall_cons in Hall as [-> Hall]. by rewrite IH.
Qed.

Lemma delete_from_sublist {A} i obj (a : list A) :
  delete_from i obj a `sublist_of` a.
Proof.
  revert i. induction a as [|x a IH]; intros i; cbn [delete_from]; [constructor|].
  case_bool_decide; [apply sublist_cons | apply sublist_skip]; apply IH.
Qed.

Lemma delete_from_nil {A} i (a : list A) : delete_from i [] a = a.
Proof.
  revert i. induction a as [|x a IH]; intros i; cbn [delete_from]; [done|].
  rewrite bool_decide_eq_false_2; [by rewrite IH | apply not_elem_of_nil].
Qed.

Lemma np_delete_Ok_sublist {A} (a k : list A) obj :
  np_delete a obj = Ok k → k `sublist_of` a.
Proof.
  unfold np_delete. destruct (forallb _ _); [|done].
  intros [= <-]. apply delete_from_sublist.
Qed.

Lemma np_delete_nil {A} (a : list A) : np_delete a [] = Ok a.
Proof. unfold np_delete. simpl. by rewrite delete_from_nil. Qed.

Lemma np_delete_is_Ok {A} (a : list A) obj :
  Forall (λ i, i < length a) obj → np_delete a obj = Ok (delete_from 0 obj a).
Proof.
  intros H. unfold np_delete.
  assert (forallb (λ i, bool_decide (i < length a)) obj = true) as ->; [|done].
  apply Is_true_eq_true, forallb_True.
  eapply Forall_impl; [exact H|]. intros i Hi. by apply bool_decide_pack.
Qed.

(** ** Zero crossings *)

Lemma lookup_but_last {A} (a : list A) i x :
  but_last a !! i = Some x ↔ a !! i = Some x ∧ S i < length a.
Proof. unfold but_last. rewrite lookup_take_Some. intuition lia. Qed.

Lemma lookup_from_1 {A} (a : list A) i : from_1 a !! i = a !! S i.
Proof. unfold from_1. by rewrite lookup_drop. Qed.

Lemma length_but_last {A} (a : list A) : length (but_last a) = length a - 1.
Proof. unfold but_last. rewrite length_take. lia. Qed.

Lemma length_from_1 {A} (a : list A) : length (from_1 a) = length a - 1.
Proof. unfold from_1. by rewrite length_drop. Qed.

(** A crossing mask: [p] on a sample and [q] on the next one. *)
Lemma lookup_crossing_mask (p q : Qc → bool) (s : list Qc) i :
  bitwise_and (but_last (p <$> s)) (from_1 (q <$> s)) !! i = Some true ↔
  ∃ x y, s !! i = Some x ∧ s !! S i = Some y ∧ p x = true ∧ q y = true.
Proof.
  unfold bitwise_and. rewrite lookup_zip_with_Some. split.
  - intros (bx & by_ & Hand & Hx & Hy).
    apply lookup_but_last in Hx as [Hx _]. rewrite lookup_from_1 in Hy.
    apply list_lookup_fmap_Some in Hx as (x & -> & Hx).
    apply list_lookup_fmap_Some in Hy as (y & -> & Hy).
    symmetry in Hand. apply andb_true_iff in Hand as [? ?]. eauto 10.
  - intros (x & y & Hx & Hy & Hp & Hq). exists (p x), (q y).
    split; [by rewrite Hp, Hq|]. split.
    + apply lookup_but_last. split; [by rewrite list_lookup_fmap, Hx|].
      rewrite length_fmap. by apply lookup_lt_Some in Hy.
    + by rewrite lookup_from_1, list_lookup_fmap, Hy.
Qed.

Lemma elem_of_risex (s : list Qc) i :
  i ∈ risex s ↔
  ∃ x y, s !! i = Some x ∧ s !! S i = Some y ∧ (x < 0)%Qc ∧ (0 < y)%Qc.
Proof.
  unfold risex, smaller, greater.
  rewrite elem_of_np_where, lookup_crossing_mask.
  by setoid_rewrite bool_decide_eq_true.
Qed.

Lemma elem_of_fallx (s : list Qc) i :
  i ∈ fallx s ↔
  ∃ x y, s !! i = Some x ∧ s !! S i = Some y ∧ (0 < x)%Qc ∧ (y < 0)%Qc.
Proof.
  unfold fallx, smaller, greater.
  rewrite elem_of_np_where, lookup_crossing_mask.
  by setoid_rewrite bool_decide_eq_true.
Qed.

Lemma Qclt_asym (x y : Qc) : (x < y)%Qc → (y < x)%Qc → False.
Proof. intros H1 H2. by apply (Qclt_not_le _ _ H1), Qclt_le_weak. Qed.

Lemma Qclt_irrefl (x : Qc) : ¬ (x < x)%Qc.
Proof. intros H. by eapply Qclt_asym. Qed.

Lemma risex_fallx_disjoint (s : list Qc) i : i ∈ risex s → i ∈ fallx s → False.
Proof.
  intros (x & _ & Hx & _ & Hneg & _)%elem_of_risex
         (x' & _ & Hx' & _ & Hpos & _)%elem_of_fallx.
  simplify_eq. by eapply Qclt_asym.
Qed.

Lemma elem_of_allx (s : list Qc) i : i ∈ allx s ↔ i ∈ risex s ∨ i ∈ fallx s.
Proof. unfold allx. by rewrite merge_sort_Permutation, elem_of_app. Qed.

Lemma allx_in_range (s : list Qc) i : i ∈ allx s → S i < length s.
Proof.
  rewrite elem_of_allx, elem_of_risex, elem_of_fallx.
  intros [(? & ? & _ & H & _)|(? & ? & _ & H & _)]; by apply lookup_lt_Some in H.
Qed.

Lemma allx_increasing (s : list Qc) : increasing (allx s).
Proof.
  apply sorted_NoDup_increasing.
  - unfold allx. apply (StronglySorted_merge_sort _).
  - unfold allx. rewrite merge_sort_Permutation. apply NoDup_app.
    split; [apply increasing_NoDup, np_where_increasing|].
    split; [|apply increasing_NoDup, np_where_increasing].
    intros i ??. by eapply risex_fallx_disjoint.
Qed.

Lemma length_allx (s : list Qc) :
  length (allx s) = length (risex s) + length (fallx s).
Proof. unfold allx. by rewrite merge_sort_Permutation, length_app. Qed.

(** ** [np.argmax] and [np.argmin] *)

Section Argbest.
(** [R best x]: [x] beats the running best. *)
Context (R : relation Qc) `{!RelDecision R}.
Hypothesis R_irrefl : ∀ x, ¬ R x x.
Hypothesis R_trans : ∀ x y z, R x y → R y z → R x z.
Hypothesis R_cotrans : ∀ x y z, R x z → R x y ∨ R y z.

Local Abbreviation better := (λ x best : Qc, bool_decide (R best x)).

Lemma argbest_from_spec (a : list Qc) best_i best i :
  (argbest_from better best_i best i a = best_i ∧ ∀ x, x ∈ a → ¬ R best x) ∨
  (∃ k m, argbest_from better best_i best i a = i + k ∧
     a !! k = Some m ∧ R best m ∧
     (∀ x, x ∈ a → ¬ R m x) ∧
     (∀ j x, j < k → a !! j = Some x → R x m)).
Proof.
  revert best_i best i.
  induction a as [|x a IH]; intros best_i best i; cbn [argbest_from].
  { left. split; [done|]. by intros ? ?%elem_of_nil. }
  destruct (decide (R best x)) as [Hx|Hx].
  - rewrite (bool_decide_eq_true_2 (R best x)) by done.
    right. destruct (IH i x (S i)) as [[-> Hall]|(k & m & -> & Hk & Hm & Hall & Hbefore)].
    + exists 0, x. split; [lia|]. split; [done|]. split; [done|]. split.
      * intros y [->|Hy]%elem_of_cons; [apply R_irrefl | by apply Hall].
      * intros j y Hj. lia.
    + exists (S k), m. split; [lia|]. split; [done|].
      split; [by eapply R_trans|]. split.
      * intros y [->|Hy]%elem_of_cons; [|by apply Hall].
        intros Hmx. apply (R_irrefl x). by eapply R_trans.
      * intros [|j] y Hj Hy; simpl in Hy; [by simplify_eq|].
        eapply Hbefore; [|done]. lia.
  - rewrite (bool_decide_eq_false_2 (R best x)) by done.
    destruct (IH best_i best (S i)) as [[-> Hall]|(k & m & -> & Hk & Hm & Hall & Hbefore)].
    + left. split; [done|].
      intros y [->|Hy]%elem_of_cons; [done | by apply Hall].
    + right. exists (S k), m. split; [lia|]. split; [done|]. split; [done|].
      split.
      * intros y [->|Hy]%elem_of_cons; [|by apply Hall].
        intros Hmx. apply Hx. by eapply R_trans.
      * intros [|j] y Hj Hy; simpl in Hy; [|eapply Hbefore; [|done]; lia].
        simplify_eq. by destruct (R_cotrans best y m Hm).
Qed.

(** The result of [argbest]: the first position of a value that no other
    value beats. *)
Lemma argbest_spec name (a : list Qc) off :
  argbest name better a = Ok off →
  ∃ m, a !! off = Some m ∧
       (∀ x, x ∈ a → ¬ R m x) ∧
       (∀ j x, j < off → a !! j = Some x → R x m).
Proof.
  destruct a as [|x0 a]; [done|]. simpl. intros [= <-].
  destruct (argbest_from_spec a 0 x0 1)
    as [[-> Hall]|(k & m & -> & Hk & Hm & Hall & Hbefore)].
  - exists x0. split; [done|]. split.
    + intros y [->|Hy]%elem_of_cons; [apply R_irrefl | by apply Hall].
    + intros j y Hj. lia.
  - exists m. split; [done|]. split.
    + intros y [->|Hy]%elem_of_cons; [|by apply Hall].
      intros Hmx. apply (R_irrefl x0). by eapply R_trans.
    + intros [|j] y Hj Hy; simpl in Hy; [by simplify_eq|].
      eapply Hbefore; [|done]. lia.
Qed.

Lemma argbest_is_Ok name (a : list Qc) :
  a ≠ [] → ∃ off, argbest name better a = Ok off.
Proof. destruct a; [done|]. intros _. by eexists. Qed.
End Argbest.

Lemma Qclt_cotrans (x y z : Qc) : (x < z)%Qc → (x < y)%Qc ∨ (y < z)%Qc.
Proof.
  intros Hxz. destruct (Qclt_le_dec x y) as [?|Hle]; [by left|].
  right. by eapply Qcle_lt_trans.
Qed.

Lemma np_argmax_spec (a : list Qc) off :
  np_argmax a = Ok off →
  ∃ m, a !! off = Some m ∧
       (∀ x, x ∈ a → (x ≤ m)%Qc) ∧
       (∀ j x, j < off → a !! j = Some x → (x < m)%Qc).
Proof.
  intros H. apply (argbest_spec Qclt) in H as (m & Hm & Hall & Hbefore).
  - exists m. split; [done|]. split; [|done].
    intros x Hx. apply Qcnot_lt_le. by apply Hall.
  - apply Qclt_irrefl.
  - apply Qclt_trans.
  - apply Qclt_cotrans.
Qed.

Lemma np_argmin_spec (a : list Qc) off :
  np_argmin a = Ok off →
  ∃ m, a !! off = Some m ∧
       (∀ x, x ∈ a → (m ≤ x)%Qc) ∧
       (∀ j x, j < off → a !! j = Some x → (m < x)%Qc).
Proof.
  intros H. apply (argbest_spec (flip Qclt)) in H as (m & Hm & Hall & Hbefore).
  - exists m. split; [done|]. split; [|done].
    intros x Hx. apply Qcnot_lt_le. by apply Hall.
  - intros x. apply Qclt_irrefl.
  - intros x y z ??. by apply Qclt_trans with y.
  - intros x y z Hxz. destruct (Qclt_cotrans z y x Hxz); [by right | by left].
Qed.

(** ** The extrema locator *)

Lemma length_slice_le {A} (a : list A) b e : length (slice a b e) ≤ e - b.
Proof. unfold slice. rewrite length_take. lia. Qed.

Lemma length_slice {A} (a : list A) b e :
  e ≤ length a → length (slice a b e) = e - b.
Proof. intros. unfold slice. rewrite length_take, length_drop. lia. Qed.

Lemma lookup_slice {A} (a : list A) b e off x :
  slice a b e !! off = Some x ↔ a !! (b + off) = Some x ∧ b + off < e.
Proof.
  unfold slice. rewrite lookup_take_Some, lookup_drop. intuition lia.
Qed.

Lemma elem_of_slice {A} (a : list A) b e x :
  x ∈ slice a b e ↔ ∃ j, b ≤ j < e ∧ a !! j = Some x.
Proof.
  rewrite list_elem_of_lookup. split.
  - intros (off & [H ?]%lookup_slice). exists (b + off). split; [lia | done].
  - intros (j & Hj & H). exists (j - b). apply lookup_slice.
    replace (b + (j - b)) with j by lia. split; [done | lia].
Qed.

Lemma odd_mod2 n : Nat.odd n = bool_decide (n mod 2 ≠ 0).
Proof.
  pose proof (Nat.div_mod_eq n 2). pose proof (Nat.mod_upper_bound n 2).
  destruct (Nat.odd n) eqn:E; symmetry.
  - apply Nat.odd_spec in E as [m ->]. apply bool_decide_eq_true_2. lia.
  - apply bool_decide_eq_false_2.
    rewrite <- Nat.negb_even in E. apply negb_false_iff in E.
    apply Nat.even_spec in E as [m ->]. lia.
Qed.

Lemma argextreme_Ok startx i arg :
  argextreme startx i = Ok arg →
  ∃ ph, startx = Some ph ∧
        arg = match ph with
              | rise => if Nat.odd (i + 1) then np_argmax else np_argmin
              | fall => if Nat.odd (i + 1) then np_argmin else np_argmax
              end.
Proof.
  unfold argextreme. destruct startx as [ph|]; [|done]. intros H. exists ph.
  split; [done|]. rewrite odd_mod2.
  destruct ph; case_decide; case_bool_decide; by simplify_eq.
Qed.

Lemma extrema_step_Ok s startx cr i e :
  extrema_step s startx cr i = Ok e ↔
  ∃ arg beg end_ off,
    argextreme startx i = Ok arg ∧ cr !! i = Some beg ∧
    cr !! S i = Some end_ ∧ arg (slice s beg end_) = Ok off ∧ e = beg + off.
Proof.
  unfold extrema_step. rewrite bind_Ok.
  setoid_rewrite bind_Ok. setoid_rewrite bind_Ok. setoid_rewrite bind_Ok.
  setoid_rewrite getitem_Ok. replace (i + 1) with (S i) by lia. split.
  - intros (arg & ? & beg & ? & end_ & ? & off & ? & [= <-]). eauto 10.
  - intros (arg & beg & end_ & off & ? & ? & ? & ? & ->). eauto 12.
Qed.

Lemma extrema_Ok (s : list Qc) (ex : list nat) :
  _rsp_findpeaks_extrema s = Ok ex ↔
  ∃ r0 f0,
    risex s !! 0 = Some r0 ∧ fallx s !! 0 = Some f0 ∧
    Forall2 (λ i e, extrema_step s (startx_of r0 f0) (allx s) i = Ok e)
            (seq 0 (length (allx s) - 1)) ex.
Proof.
  unfold _rsp_findpeaks_extrema. rewrite within_Ok. split.
  - intros (r0 & Hr & (f0 & Hf & Hall%mapM_Ok)%bind_Ok)%bind_Ok.
    apply getitem_Ok in Hr, Hf. eauto.
  - intros (r0 & f0 & Hr & Hf & Hall).
    apply bind_Ok. exists r0. split; [by apply getitem_Ok|].
    apply bind_Ok. exists f0. split; [by apply getitem_Ok|].
    by apply mapM_Ok.
Qed.

Lemma startx_of_Some (s : list Qc) r0 f0 :
  risex s !! 0 = Some r0 → fallx s !! 0 = Some f0 →
  startx_of r0 f0 = Some rise ∧ r0 < f0 ∨
  startx_of r0 f0 = Some fall ∧ f0 < r0.
Proof.
  intros Hr%list_elem_of_lookup_2 Hf%list_elem_of_lookup_2.
  assert (r0 ≠ f0) by (intros ->; by eapply risex_fallx_disjoint).
  unfold startx_of. repeat case_decide; auto; lia.
Qed.

Lemma allx_window (s : list Qc) i beg end_ :
  allx s !! i = Some beg → allx s !! S i = Some end_ →
  beg < end_ ∧ S end_ < length s.
Proof.
  intros Hb He. split.
  - eapply (proj1 (increasing_lookup _) (allx_increasing s) i (S i)); eauto.
  - by eapply allx_in_range, list_elem_of_lookup_2.
Qed.

Lemma extrema_lookup (s : list Qc) ex i e :
  _rsp_findpeaks_extrema s = Ok ex → ex !! i = Some e →
  ∃ beg end_, allx s !! i = Some beg ∧ allx s !! S i = Some end_ ∧
              beg ≤ e < end_.
Proof.
  intros (r0 & f0 & _ & _ & Hall)%extrema_Ok Hi.
  destruct (Forall2_lookup_r _ _ _ _ _ Hall Hi) as (i' & [-> _]%lookup_seq & Hstep).
  simpl in Hstep.
  apply extrema_step_Ok in Hstep as (arg & beg & end_ & off & Harg & Hb & He & Hoff & ->).
  exists beg, end_. split; [done|]. split; [done|]. split; [lia|].
  apply argextreme_Ok in Harg as (ph & _ & ->).
  assert (off < length (slice s beg end_)) as Hlt.
  { destruct ph, (Nat.odd (i + 1));
      first [apply np_argmax_spec in Hoff as (m & Hm & _)
            |apply np_argmin_spec in Hoff as (m & Hm & _)];
      by apply lookup_lt_Some in Hm. }
  pose proof (length_slice_le s beg end_). lia.
Qed.

Lemma extrema_length (s : list Qc) ex :
  _rsp_findpeaks_extrema s = Ok ex → length ex = length (allx s) - 1.
Proof.
  intros (r0 & f0 & _ & _ & Hall)%extrema_Ok.
  apply Forall2_length in Hall. by rewrite length_seq in Hall.
Qed.

Lemma extrema_increasing (s : list Qc) ex :
  _rsp_findpeaks_extrema s = Ok ex → increasing ex.
Proof.
  intros Hex. apply increasing_lookup. intros i j x y Hi Hj Hij.
  destruct (extrema_lookup _ _ _ _ Hex Hi) as (b1 & e1 & _ & He1 & Hx).
  destruct (extrema_lookup _ _ _ _ Hex Hj) as (b2 & e2 & Hb2 & _ & Hy).
  assert (e1 ≤ b2); [|lia].
  destruct (decide (S i = j)) as [<-|]; [by simplify_eq|].
  assert (e1 < b2); [|lia].
  eapply (proj1 (increasing_lookup _) (allx_increasing s) (S i) j); eauto. lia.
Qed.

Lemma extrema_in_range (s : list Qc) ex :
  _rsp_findpeaks_extrema s = Ok ex → Forall (λ e, e < length s) ex.
Proof.
  intros Hex. apply Forall_lookup. intros i e Hi.
  destruct (extrema_lookup _ _ _ _ Hex Hi) as (b & e' & Hb & He' & He).
  destruct (allx_window _ _ _ _ Hb He'). lia.
Qed.

(** The locator returns whenever there is a crossing of each kind. *)
Lemma extrema_is_Ok (s : list Qc) :
  risex s ≠ [] → fallx s ≠ [] → ∃ ex, _rsp_findpeaks_extrema s = Ok ex.
Proof.
  intros Hr Hf.
  destruct (risex s) as [|r0 rs] eqn:Er; [done|].
  destruct (fallx s) as [|f0 fs] eqn:Ef; [done|].
  assert (risex s !! 0 = Some r0) as Hr0 by by rewrite Er.
  assert (fallx s !! 0 = Some f0) as Hf0 by by rewrite Ef.
  destruct (mapM_is_Ok (extrema_step s (startx_of r0 f0) (allx s))
              (seq 0 (length (allx s) - 1))) as [ex Hex].
  - apply Forall_forall. intros i [_ Hi]%elem_of_seq. simpl in Hi.
    destruct (lookup_lt_is_Some_2 (allx s) i) as [beg Hb]; [lia|].
    destruct (lookup_lt_is_Some_2 (allx s) (S i)) as [end_ He]; [lia|].
    destruct (allx_window _ _ _ _ Hb He) as [Hlt Hrange].
    assert (slice s beg end_ ≠ []) as Hne.
    { intros Hnil%(f_equal length). rewrite length_slice in Hnil by lia.
      simpl in Hnil. lia. }
    assert (∃ arg, argextreme (startx_of r0 f0) i = Ok arg ∧
                   ∃ off, arg (slice s beg end_) = Ok off) as (arg & Harg & off & Hoff).
    { unfold argextreme.
      destruct (startx_of_Some s r0 f0 Hr0 Hf0) as [[-> _]|[-> _]];
        case_decide; eexists; (split; [done|]); by apply argbest_is_Ok. }
    exists (beg + off). apply extrema_step_Ok. eauto 10.
  - exists ex. apply extrema_Ok. rewrite Er, Ef. exists r0, f0.
    split; [done|]. split; [done|]. by apply mapM_Ok.
Qed.

(** ** The outlier filter keeps a strictly increasing selection *)

Lemma take_idx_increasing (a idx k : list nat) :
  increasing a → increasing idx → take_idx a idx = Ok k → increasing k.
Proof.
  rewrite !increasing_lookup. intros Ha Hidx Hk i j x y Hi Hj Hij.
  apply take_idx_Ok in Hk.
  destruct (Forall2_lookup_r _ _ _ _ _ Hk Hi) as (i' & Hi' & Hx).
  destruct (Forall2_lookup_r _ _ _ _ _ Hk Hj) as (j' & Hj' & Hy).
  eapply Ha; eauto.
Qed.

Lemma take_idx_subseteq {A} (a : list A) idx k :
  take_idx a idx = Ok k → k ⊆ a.
Proof.
  intros Hk%take_idx_Ok x [i Hi]%list_elem_of_lookup_1.
  destruct (Forall2_lookup_r _ _ _ _ _ Hk Hi) as (i' & _ & Hx).
  by eapply list_elem_of_lookup_2.
Qed.

Lemma delete_from_Forall2 {A B} (P : A → B → Prop) i obj a b :
  Forall2 P a b → Forall2 P (delete_from i obj a) (delete_from i obj b).
Proof.
  intros H. revert i. induction H as [|x y a b Hxy Hab IH]; intros i;
    cbn [delete_from]; [constructor|].
  case_bool_decide; [apply IH | constructor; [done | apply IH]].
Qed.

Lemma np_delete_Forall2 {A B} (P : A → B → Prop) obj a b a' b' :
  Forall2 P a b → np_delete a obj = Ok a' → np_delete b obj = Ok b' →
  Forall2 P a' b'.
Proof.
  unfold np_delete. intros H.
  do 2 (destruct (forallb _ _); [|done]). intros [= <-] [= <-].
  by apply delete_from_Forall2.
Qed.

Lemma amplitude_filter_Ok s ex amin ex1 :
  amplitude_filter s ex amin = Ok ex1 ↔
  ∃ amps, take_idx s ex = Ok amps ∧ take_idx ex (min_diff amps amin) = Ok ex1.
Proof. unfold amplitude_filter. by rewrite bind_Ok. Qed.

Lemma alternation_repair_Ok s ex ex' amps' :
  alternation_repair s ex = Ok (ex', amps') ↔
  ∃ amps, take_idx s ex = Ok amps ∧
          np_delete ex (removeext amps) = Ok ex' ∧
          np_delete amps (removeext amps) = Ok amps'.
Proof.
  unfold alternation_repair. rewrite bind_Ok. split.
  - intros (amps & Ha & (e1 & He1 & (a1 & Ha1 & [= <- <-])%bind_Ok)%bind_Ok).
    eauto.
  - intros (amps & Ha & He & Ha'). exists amps. split; [done|].
    apply bind_Ok. exists ex'. split; [done|].
    apply bind_Ok. exists amps'. by split.
Qed.

Lemma outliers_Ok s ex amin ex' amps' :
  _rsp_findpeaks_outliers s ex amin = Ok (ex', amps') ↔
  ∃ ex1, amplitude_filter s ex amin = Ok ex1 ∧
         alternation_repair s ex1 = Ok (ex', amps').
Proof. unfold _rsp_findpeaks_outliers. by rewrite within_Ok, bind_Ok. Qed.

(** What the filter returns: a strictly increasing selection of the
    extrema it was given, with the samples at these positions. *)
Lemma outliers_result s ex amin ex' amps' :
  _rsp_findpeaks_outliers s ex amin = Ok (ex', amps') →
  ex' ⊆ ex ∧ Forall2 (λ e a, s !! e = Some a) ex' amps' ∧
  (increasing ex → increasing ex').
Proof.
  intros (ex1 & (amps & Hamps & Hex1)%amplitude_filter_Ok
              & (amps1 & Hamps1 & Hd1 & Hd2)%alternation_repair_Ok)%outliers_Ok.
  split; [|split].
  - transitivity ex1; [|by eapply take_idx_subseteq].
    by eapply sublist_subseteq, np_delete_Ok_sublist.
  - apply take_idx_Ok in Hamps1. by eapply np_delete_Forall2.
  - intros Hinc. eapply increasing_sublist; [by eapply np_delete_Ok_sublist|].
    eapply take_idx_increasing; [done | apply np_where_increasing | done].
Qed.

(** ** The sanitizer *)

Lemma troughs_of_cons2 x y l : troughs_of (x :: y :: l) = x :: troughs_of l.
Proof.
  unfold troughs_of, but_last. destruct l as [|z l]; [done|].
  simpl. by rewrite !Nat.sub_0_r.
Qed.

Lemma peaks_of_cons2 x y l : peaks_of (x :: y :: l) = y :: peaks_of l.
Proof. unfold peaks_of, from_1. by destruct l. Qed.

Lemma pair_induction {A} (P : list A → Prop) :
  P [] → (∀ x, P [x]) → (∀ x y l, P l → P (x :: y :: l)) → ∀ l, P l.
Proof.
  intros Hnil Hone Hstep l.
  assert (P l ∧ ∀ x, P (x :: l)) as [? _]; [|done].
  induction l as [|y l [IH1 IH2]]; [by split|]. split; [apply IH2|].
  intros x. by apply Hstep.
Qed.

Lemma length_troughs_peaks (e : list nat) :
  length (troughs_of e) = length e / 2 ∧ length (peaks_of e) = length e / 2.
Proof.
  induction e as [| |x y l [IH1 IH2]] using pair_induction; [done..|].
  rewrite troughs_of_cons2, peaks_of_cons2. simpl length.
  rewrite IH1, IH2. replace (S (S (length l))) with (1 * 2 + length l) by lia.
  rewrite Nat.div_add_l by lia. done.
Qed.

Lemma troughs_of_subseteq (e : list nat) : troughs_of e ⊆ e.
Proof.
  induction e as [| |x y l IH] using pair_induction;
    [by intros ? ?%elem_of_nil..|].
  rewrite troughs_of_cons2.
  intros z [->|Hz]%elem_of_cons; [left | right; right; by apply IH].
Qed.

Lemma peaks_of_subseteq (e : list nat) : peaks_of e ⊆ e.
Proof.
  induction e as [| |x y l IH] using pair_induction;
    [by intros ? ?%elem_of_nil..|].
  rewrite peaks_of_cons2.
  intros z [->|Hz]%elem_of_cons; [right; left | right; right; by apply IH].
Qed.

Lemma sanitize_Ok ex amps peaks troughs :
  _rsp_findpeaks_sanitize ex amps = Ok (peaks, troughs) →
  ∃ ex2, ex2 `sublist_of` ex ∧ peaks = peaks_of ex2 ∧ troughs = troughs_of ex2.
Proof.
  unfold _rsp_findpeaks_sanitize. rewrite within_Ok.
  intros (a0 & _ & (a1 & _ & (ex1 & Hex1 & (z1 & _ & (z2 & _ &
    (ex2 & Hex2 & [= <- <-])%bind_Ok)%bind_Ok)%bind_Ok)%bind_Ok)%bind_Ok)%bind_Ok.
  exists ex2. split; [|done].
  transitivity ex1.
  - destruct (bool_decide (z1 < z2)%Qc); [|by simplify_eq].
    unfold np_delete_last in Hex2. case_decide; [|done].
    by eapply np_delete_Ok_sublist.
  - destruct (bool_decide (a1 < a0)%Qc); [|by simplify_eq].
    by eapply np_delete_Ok_sublist.
Qed.

(** ** Merging peaks and troughs by position *)





(** ** The pipelines, stage by stage *)

Lemma khodadad_Ok s amin i :
  _rsp_findpeaks_khodadad s amin = Ok i ↔
  ∃ ex ex' amps',
    _rsp_findpeaks_extrema s = Ok ex ∧
    _rsp_findpeaks_outliers s ex amin = Ok (ex', amps') ∧
    _rsp_findpeaks_sanitize ex' amps' = Ok (RSP_Peaks i, RSP_Troughs i).
Proof.
  unfold _rsp_findpeaks_khodadad. rewrite within_Ok. split.
  - intros (ex & Hex & ([ex' amps'] & Hout &
      ([pk tr] & Hsan & [= <-])%bind_Ok)%bind_Ok)%bind_Ok.
    eauto 10.
  - intros (ex & ex' & amps' & Hex & Hout & Hsan). destruct i as [pk tr].
    apply bind_Ok. exists ex. split; [done|].
    apply bind_Ok. exists (ex', amps'). split; [done|].
    apply bind_Ok. exists (pk, tr). by split.
Qed.

Lemma biosppy_Ok s sr i :
  _rsp_findpeaks_biosppy s sr = Ok i ↔
  ∃ ex ex' amps' peaks troughs,
    _rsp_findpeaks_extrema s = Ok ex ∧
    _rsp_findpeaks_outliers s ex 0%Qc = Ok (ex', amps') ∧
    _rsp_findpeaks_sanitize ex' amps' = Ok (peaks, troughs) ∧
    np_delete peaks (outlier_idcs sr peaks) = Ok (RSP_Peaks i) ∧
    np_delete troughs (outlier_idcs sr peaks) = Ok (RSP_Troughs i).
Proof.
  unfold _rsp_findpeaks_biosppy. rewrite within_Ok. split.
  - intros (ex & Hex & ([ex' amps'] & Hout & ([pk tr] & Hsan &
      (pk' & Hpk & (tr' & Htr & [= <-])%bind_Ok)%bind_Ok)%bind_Ok)%bind_Ok)%bind_Ok.
    eauto 12.
  - intros (ex & ex' & amps' & pk & tr & Hex & Hout & Hsan & Hpk & Htr).
    destruct i as [pk' tr'].
    apply bind_Ok. exists ex. split; [done|].
    apply bind_Ok. exists (ex', amps'). split; [done|].
    apply bind_Ok. exists (pk, tr). split; [done|].
    apply bind_Ok. exists pk'. split; [done|].
    apply bind_Ok. exists tr'. by split.
Qed.

(** After the three stages the peaks and troughs are the odd and even
    places of one strictly increasing sequence of sample positions. *)
Lemma sanitized_stages s amin ex ex' amps' peaks troughs :
  _rsp_findpeaks_extrema s = Ok ex →
  _rsp_findpeaks_outliers s ex amin = Ok (ex', amps') →
  _rsp_findpeaks_sanitize ex' amps' = Ok (peaks, troughs) →
  ∃ e, increasing e ∧ e ⊆ ex ∧ peaks = peaks_of e ∧ troughs = troughs_of e.
Proof.
  intros Hex Hout Hsan.
  apply outliers_result in Hout as (Hsub & _ & Hinc).
  apply sanitize_Ok in Hsan as (e & Hsl & -> & ->).
  exists e. split; [|split; [|done]].
  - eapply increasing_sublist; [done|]. by eapply Hinc, extrema_increasing.
  - transitivity ex'; [by apply sublist_subseteq | done].
Qed.


Lemma peaks_of_increasing (e : list nat) : increasing e → increasing (peaks_of e).
Proof.
  induction e as [| |x y l IH] using pair_induction; [constructor..|].
  intros Hinc. rewrite peaks_of_cons2.
  apply StronglySorted_inv in Hinc as [Hinc Hx].
  apply StronglySorted_inv in Hinc as [Hinc Hy].
  constructor; [by apply IH|].
  rewrite Forall_forall in Hy |- *. intros z Hz. by apply Hy, peaks_of_subseteq.
Qed.

Lemma troughs_of_increasing (e : list nat) : increasing e → increasing (troughs_of e).
Proof.
  induction e as [| |x y l IH] using pair_induction; [constructor..|].
  intros Hinc. rewrite troughs_of_cons2.
  apply StronglySorted_inv in Hinc as [Hinc Hx].
  apply Forall_cons in Hx as [_ Hx].
  apply StronglySorted_inv in Hinc as [Hinc Hy].
  constructor; [by apply IH|].
  rewrite Forall_forall in Hx |- *. intros z Hz. by apply Hx, troughs_of_subseteq.
Qed.

(** * Properties of the pipelines *)

(** ** The output alternates *)

(** The pipeline can return without a single landmark: the filter leaves a
    peak followed by a trough, and the sanitizer trims both. *)
Example khodadad_empty_output :
  _rsp_findpeaks_khodadad up_down_up (Q2Qc (3 # 10)) = Ok (Info [] []).
Proof. vm_compute. reflexivity. Qed.

(** ** Signals without a crossing *)

Lemma risex_nil (s : list Qc) : risex s = [] ↔ ∀ i, ¬ rising_crossing s i.
Proof.
  split.
  - intros Hnil i Hi%elem_of_risex. rewrite Hnil in Hi. by apply elem_of_nil in Hi.
  - intros Hno. destruct (risex s) as [|i l] eqn:E; [done|].
    destruct (Hno i). apply elem_of_risex. rewrite E. left.
Qed.

Lemma fallx_nil (s : list Qc) : fallx s = [] ↔ ∀ i, ¬ falling_crossing s i.
Proof.
  split.
  - intros Hnil i Hi%elem_of_fallx. rewrite Hnil in Hi. by apply elem_of_nil in Hi.
  - intros Hno. destruct (fallx s) as [|i l] eqn:E; [done|].
    destruct (Hno i). apply elem_of_fallx. rewrite E. left.
Qed.

(** Signals without a crossing of one kind: nothing below zero, nothing
    above zero (a constant signal is one or the other), never increasing,
    never decreasing. *)
Lemma nonnegative_no_rising (s : list Qc) :
  Forall (λ x, (0 ≤ x)%Qc) s → ∀ i, ¬ rising_crossing s i.
Proof.
  intros Hall i (x & y & Hx & _ & Hneg & _).
  rewrite Forall_lookup in Hall. by apply (Qcle_not_lt _ _ (Hall _ _ Hx)).
Qed.

Lemma nonpositive_no_falling (s : list Qc) :
  Forall (λ x, (x ≤ 0)%Qc) s → ∀ i, ¬ falling_crossing s i.
Proof.
  intros Hall i (x & y & Hx & _ & Hpos & _).
  rewrite Forall_lookup in Hall. by apply (Qcle_not_lt _ _ (Hall _ _ Hx)).
Qed.

Lemma nonincreasing_no_rising (s : list Qc) :
  (∀ i x y, s !! i = Some x → s !! S i = Some y → (y ≤ x)%Qc) →
  ∀ i, ¬ rising_crossing s i.
Proof.
  intros Hmono i (x & y & Hx & Hy & Hneg & Hpos).
  apply (Qcle_not_lt _ _ (Hmono _ _ _ Hx Hy)). by apply Qclt_trans with 0%Qc.
Qed.

Lemma nondecreasing_no_falling (s : list Qc) :
  (∀ i x y, s !! i = Some x → s !! S i = Some y → (x ≤ y)%Qc) →
  ∀ i, ¬ falling_crossing s i.
Proof.
  intros Hmono i (x & y & Hx & Hy & Hpos & Hneg).
  apply (Qcle_not_lt _ _ (Hmono _ _ _ Hx Hy)). by apply Qclt_trans with 0%Qc.
Qed.

(** C6.  A signal without a rising zero crossing, or without a falling one,
    makes the locator raise (the subscript [risex[0]] or [fallx[0]]), and
    with it the khodadad2018 and the biosppy pipeline: each ends in that
    exception, raised in the locator's frame, and returns no result. *)
Theorem no_crossing_raises (s : list Qc) (amplitude_min : Qc) (sampling_rate : Z) :
  (∀ i, ¬ rising_crossing s i) ∨ (∀ i, ¬ falling_crossing s i) →
  _rsp_findpeaks_extrema s = Raise IndexError [in_extrema] ∧
  _rsp_findpeaks_khodadad s amplitude_min
    = Raise IndexError [in_khodadad; in_extrema] ∧
  _rsp_findpeaks_biosppy s sampling_rate
    = Raise IndexError [in_biosppy; in_extrema] ∧
  raised_in (_rsp_findpeaks_khodadad s amplitude_min) = Some in_extrema ∧
  raised_in (_rsp_findpeaks_biosppy s sampling_rate) = Some in_extrema.
Proof.
  intros Hno.
  assert (_rsp_findpeaks_extrema s = Raise IndexError [in_extrema]) as Hex.
  { unfold _rsp_findpeaks_extrema.
    destruct Hno as [->%risex_nil| ->%fallx_nil]; [done|].
    by destruct (risex s). }
  unfold _rsp_findpeaks_khodadad, _rsp_findpeaks_biosppy. by rewrite Hex.
Qed.

Lemma no_crossing_raises_witness :
  _rsp_findpeaks_extrema ramp = Raise IndexError [in_extrema] ∧
  _rsp_findpeaks_khodadad ramp (Q2Qc (3 # 10))
    = Raise IndexError [in_khodadad; in_extrema] ∧
  _rsp_findpeaks_biosppy ramp 1000
    = Raise IndexError [in_biosppy; in_extrema] ∧
  raised_in (_rsp_findpeaks_khodadad ramp (Q2Qc (3 # 10))) = Some in_extrema ∧
  raised_in (_rsp_findpeaks_biosppy ramp 1000) = Some in_extrema.
Proof.
  apply (no_crossing_raises ramp (Q2Qc (3 # 10)) 1000).
  right. apply fallx_nil. vm_compute. reflexivity.
Defined.

(** ** Too few extrema *)

Lemma sanitize_short (ex : list nat) (amps : list Qc) :
  length amps < 2 →
  _rsp_findpeaks_sanitize ex amps = Raise IndexError [in_sanitize].
Proof.
  intros Hlen. destruct amps as [|a0 [|a1 amps]]; [done..|]. simpl in Hlen. lia.
Qed.

Lemma outliers_lengths s ex amin ex' amps' :
  _rsp_findpeaks_outliers s ex amin = Ok (ex', amps') → length amps' = length ex'.
Proof.
  intros (_ & H & _)%outliers_result. symmetry. by eapply Forall2_length.
Qed.

(** C8.  When the outlier filter (amplitude test and alternation repair)
    leaves fewer than 2 extrema, the sanitizer raises on its subscripts of
    [amplitudes], and the pipeline ends in that exception instead of
    returning empty sequences. *)
Theorem few_extrema_raise (s : list Qc) (amplitude_min : Qc)
    (ex ex' : list nat) (amps' : list Qc) :
  _rsp_findpeaks_extrema s = Ok ex →
  _rsp_findpeaks_outliers s ex amplitude_min = Ok (ex', amps') →
  length ex' < 2 →
  _rsp_findpeaks_sanitize ex' amps' = Raise IndexError [in_sanitize] ∧
  _rsp_findpeaks_khodadad s amplitude_min
    = Raise IndexError [in_khodadad; in_sanitize].
Proof.
  intros Hex Hout Hlen.
  assert (_rsp_findpeaks_sanitize ex' amps' = Raise IndexError [in_sanitize]) as Hsan.
  { apply sanitize_short. by rewrite (outliers_lengths _ _ _ _ _ Hout). }
  split; [done|].
  unfold _rsp_findpeaks_khodadad. rewrite Hex. simpl. rewrite Hout. simpl.
  by rewrite Hsan.
Qed.

Lemma few_extrema_raise_witness :
  _rsp_findpeaks_sanitize [1] [Q2Qc 1] = Raise IndexError [in_sanitize] ∧
  _rsp_findpeaks_khodadad two_windows (Q2Qc (3 # 10))
    = Raise IndexError [in_khodadad; in_sanitize].
Proof.
  apply (few_extrema_raise two_windows (Q2Qc (3 # 10)) [1; 3] [1] [Q2Qc 1]).
  - vm_compute. reflexivity.
  - vm_compute. reflexivity.
  - simpl. lia.
Defined.

(** ** The amplitude test at [amplitude_min = 0] *)

Lemma Qcabs_pos_iff (x : Qc) : (0 < Qcabs x)%Qc ↔ x ≠ 0%Qc.
Proof.
  split.
  - intros Hpos ->. rewrite Qcabs_pos in Hpos by apply Qcle_refl.
    by apply Qclt_irrefl in Hpos.
  - intros Hne. destruct (Qcle_lt_or_eq _ _ (Qcabs_nonneg x)) as [?|Heq]; [done|].
    destruct Hne. by apply Qcabs_null.
Qed.

Lemma threshold_0 (m a b : Qc) : (m * 0 < Qcabs (b - a))%Qc ↔ a ≠ b.
Proof.
  rewrite Qcmult_0_r, Qcabs_pos_iff. split.
  - intros Hne ->. apply Hne. ring.
  - intros Hne Heq. apply Hne.
    transitivity (b - (b - a))%Qc; [ring | rewrite Heq; ring].
Qed.

Lemma lookup_np_diff (a : list Qc) k d :
  np_diff a !! k = Some d ↔
  ∃ x y, a !! k = Some x ∧ a !! S k = Some y ∧ d = (y - x)%Qc.
Proof.
  unfold np_diff. rewrite lookup_zip_with_Some. setoid_rewrite lookup_from_1.
  split.
  - intros (x & y & -> & Hx & Hy). eauto.
  - intros (x & y & Hx & Hy & ->). eauto.
Qed.

Lemma length_np_diff (a : list Qc) : length (np_diff a) = length a - 1.
Proof. unfold np_diff. rewrite length_zip_with, length_from_1. lia. Qed.

Lemma elem_of_min_diff_0 (amps : list Qc) k :
  k ∈ min_diff amps 0 ↔
  ∃ a b, amps !! k = Some a ∧ amps !! S k = Some b ∧ a ≠ b.
Proof.
  unfold min_diff, np_abs. rewrite elem_of_np_where, list_lookup_fmap_Some.
  setoid_rewrite list_lookup_fmap_Some. split.
  - intros (? & Htrue & d & -> & (a & b & Ha & Hb & ->)%lookup_np_diff).
    symmetry in Htrue. apply bool_decide_eq_true, threshold_0 in Htrue. eauto.
  - intros (a & b & Ha & Hb & Hne). eexists. split; last first.
    + eexists. split; [done|]. apply lookup_np_diff. eauto.
    + symmetry. by apply bool_decide_eq_true, threshold_0.
Qed.

Lemma min_diff_in_range (amps : list Qc) amin :
  Forall (λ k, S k < length amps) (min_diff amps amin).
Proof.
  apply Forall_forall. intros k Hk. unfold min_diff in Hk.
  apply elem_of_np_where, lookup_lt_Some in Hk.
  rewrite length_fmap in Hk. unfold np_abs in Hk.
  rewrite length_fmap, length_np_diff in Hk. lia.
Qed.

Lemma min_diff_0_all (amps : list Qc) :
  (∀ k a b, amps !! k = Some a → amps !! S k = Some b → a ≠ b) →
  min_diff amps 0 = seq 0 (length amps - 1).
Proof.
  intros Hne. unfold min_diff.
  rewrite np_where_all_true.
  { unfold np_abs. by rewrite !length_fmap, length_np_diff. }
  apply Forall_fmap, Forall_fmap, Forall_lookup.
  intros k d (a & b & Ha & Hb & ->)%lookup_np_diff. simpl.
  apply bool_decide_eq_true, threshold_0. by eapply Hne.
Qed.

Lemma take_idx_seq {A} (a : list A) n :
  n ≤ length a → take_idx a (seq 0 n) = Ok (take n a).
Proof.
  intros Hn. apply take_idx_Ok, Forall2_same_length_lookup.
  split; [rewrite length_seq, length_take; lia|].
  intros i j x [-> Hi]%lookup_seq [Hx _]%lookup_take_Some. done.
Qed.

Lemma amplitude_filter_0_Ok (s : list Qc) (ex : list nat) (amps : list Qc) :
  take_idx s ex = Ok amps →
  ∃ ex1, amplitude_filter s ex 0 = Ok ex1 ∧
         take_idx ex (min_diff amps 0) = Ok ex1.
Proof.
  intros Hamps. pose proof (take_idx_length _ _ _ Hamps) as Hlen.
  destruct (take_idx_is_Ok ex (min_diff amps 0)) as [ex1 Hex1].
  { eapply Forall_impl; [apply min_diff_in_range|]. simpl. lia. }
  exists ex1. split; [|done]. apply amplitude_filter_Ok. eauto.
Qed.

Lemma amplitude_filter_0_but_last (s : list Qc) (ex : list nat) (amps : list Qc) :
  take_idx s ex = Ok amps →
  (∀ k a b, amps !! k = Some a → amps !! S k = Some b → a ≠ b) →
  amplitude_filter s ex 0 = Ok (but_last ex).
Proof.
  intros Hamps Hne. pose proof (take_idx_length _ _ _ Hamps) as Hlen.
  apply amplitude_filter_Ok. exists amps. split; [done|].
  rewrite (min_diff_0_all _ Hne), take_idx_seq by lia.
  unfold but_last. by rewrite Hlen.
Qed.

(** The claim of C3 read literally: at [amplitude_min = 0] the amplitude
    test returns the extrema it was given.  It does not. *)
Lemma amplitude_min_0_not_identity :
  ¬ (∀ (s : list Qc) (ex ex1 : list nat),
       amplitude_filter s ex 0 = Ok ex1 → ex1 = ex).
Proof.
  intros H. specialize (H up_down_up [1; 3; 5] [1; 3]).
  discriminate H. vm_compute. reflexivity.
Qed.

(** C3, amended.  At [amplitude_min = 0] the amplitude test keeps exactly
    the extrema that have a next extremum with a different amplitude: an
    extremum whose successor has the same amplitude is removed, and so is
    the last extremum, which has no difference of its own.  When no two
    neighbours are level, what remains is the sequence without its last
    element. *)
Theorem amplitude_min_0_retention (s : list Qc) (ex : list nat) (amps : list Qc) :
  take_idx s ex = Ok amps →
  ∃ ex1,
    amplitude_filter s ex 0 = Ok ex1 ∧
    Forall2 (λ k e, ex !! k = Some e) (min_diff amps 0) ex1 ∧
    (∀ k, k ∈ min_diff amps 0 ↔
          ∃ a b, amps !! k = Some a ∧ amps !! S k = Some b ∧ a ≠ b) ∧
    ((∀ k a b, amps !! k = Some a → amps !! S k = Some b → a ≠ b) →
     ex1 = but_last ex).
Proof.
  intros Hamps.
  destruct (amplitude_filter_0_Ok _ _ _ Hamps) as (ex1 & Hex1 & Hsel).
  exists ex1. split; [done|]. split; [by apply take_idx_Ok|].
  split; [apply elem_of_min_diff_0|].
  intros Hne. rewrite (amplitude_filter_0_but_last _ _ _ Hamps Hne) in Hex1.
  by injection Hex1.
Qed.

Lemma amplitude_min_0_retention_witness :
  ∃ ex1,
    amplitude_filter breaths [1; 3; 5; 7; 9; 11; 13; 14; 15] 0 = Ok ex1 ∧
    Forall2 (λ k e, [1; 3; 5; 7; 9; 11; 13; 14; 15] !! k = Some e)
      (min_diff (Q2Qc <$> [2; -2; 2; -1; 3; -2; 2; 2; -1]%Q) 0) ex1 ∧
    (∀ k, k ∈ min_diff (Q2Qc <$> [2; -2; 2; -1; 3; -2; 2; 2; -1]%Q) 0 ↔
          ∃ a b, (Q2Qc <$> [2; -2; 2; -1; 3; -2; 2; 2; -1]%Q) !! k = Some a ∧
                 (Q2Qc <$> [2; -2; 2; -1; 3; -2; 2; 2; -1]%Q) !! S k = Some b ∧
                 a ≠ b) ∧
    ((∀ k a b, (Q2Qc <$> [2; -2; 2; -1; 3; -2; 2; 2; -1]%Q) !! k = Some a →
               (Q2Qc <$> [2; -2; 2; -1; 3; -2; 2; 2; -1]%Q) !! S k = Some b →
               a ≠ b) →
     ex1 = but_last [1; 3; 5; 7; 9; 11; 13; 14; 15]).
Proof.
  apply (amplitude_min_0_retention breaths).
  vm_compute. reflexivity.
Defined.

(** ** Running the filter and the sanitizer again *)

Lemma alternates_lookup up amps k a b :
  alternates up amps = true → amps !! k = Some a → amps !! S k = Some b →
  if bool_decide (Nat.even k = up) then (a < b)%Qc else (b < a)%Qc.
Proof.
  revert up k. induction amps as [|x amps IH]; intros up k Halt Ha Hb; [done|].
  destruct amps as [|y amps]; [done|]. cbn [alternates] in Halt.
  apply andb_true_iff in Halt as [Hxy Hrest].
  destruct k as [|k].
  - simpl in Ha, Hb. simplify_eq.
    destruct up; apply bool_decide_eq_true in Hxy; by simpl.
  - specialize (IH (negb up) k Hrest Ha Hb).
    rewrite Nat.even_succ, <- Nat.negb_even.
    destruct (Nat.even k), up; simpl in *; done.
Qed.

Lemma alternates_differ up amps k a b :
  alternates up amps = true → amps !! k = Some a → amps !! S k = Some b → a ≠ b.
Proof.
  intros Halt Ha Hb. pose proof (alternates_lookup _ _ _ _ _ Halt Ha Hb) as H.
  intros ->. destruct (bool_decide _); by apply Qclt_irrefl in H.
Qed.

Lemma alternates_zigzag up amps : alternates up amps = true → zigzag amps.
Proof.
  intros Halt k a b c Ha Hb Hc.
  pose proof (alternates_lookup _ _ _ _ _ Halt Ha Hb) as H1.
  pose proof (alternates_lookup _ _ _ _ _ Halt Hb Hc) as H2.
  rewrite Nat.even_succ, <- Nat.negb_even in H2.
  destruct (Nat.even k), up; simpl in *; auto.
Qed.

Lemma alternates_take up amps n :
  alternates up amps = true → alternates up (take n amps) = true.
Proof.
  revert up n. induction amps as [|x amps IH]; intros up n Halt.
  { by rewrite take_nil. }
  destruct n as [|n]; [done|].
  destruct amps as [|y amps]; [simpl; by rewrite take_nil|].
  cbn [alternates] in Halt. apply andb_true_iff in Halt as [Hxy Hrest].
  specialize (IH _ n Hrest). destruct n as [|n]; [done|].
  cbn [take alternates] in *. by rewrite Hxy, IH.
Qed.

Lemma sign_up (a b : Qc) : (a < b)%Qc → sign (b - a) = 1%Z.
Proof.
  intros H. apply Qclt_minus_iff in H. unfold sign, Qcminus.
  rewrite bool_decide_eq_false_2, bool_decide_eq_true_2; [done..|].
  intros H'. by eapply Qclt_asym.
Qed.

Lemma sign_down (a b : Qc) : (b < a)%Qc → sign (b - a) = (-1)%Z.
Proof.
  intros H. unfold sign. rewrite bool_decide_eq_true_2; [done|].
  apply Qclt_minus_iff. apply Qclt_minus_iff in H.
  by replace (0 + - (b - a))%Qc with (a + - b)%Qc by ring.
Qed.

(** The alternation repair finds nothing to remove in a zigzag. *)
Lemma removeext_zigzag (amps : list Qc) : zigzag amps → removeext amps = [].
Proof.
  intros Hz. unfold removeext. rewrite np_where_all_false; [done|].
  apply Forall_fmap, Forall_lookup. intros k d Hd. simpl.
  apply lookup_zip_with_Some in Hd as (d1 & d2 & -> & [Hd1 _]%lookup_but_last & Hd2).
  rewrite lookup_from_1 in Hd2. unfold np_sign in Hd1, Hd2.
  apply list_lookup_fmap_Some in Hd1 as (? & -> & (a & b & Ha & Hb & ->)%lookup_np_diff).
  apply list_lookup_fmap_Some in Hd2 as (? & -> & (b' & c & Hb' & Hc & ->)%lookup_np_diff).
  simplify_eq. apply bool_decide_eq_false_2. intros Hsum. apply Hsum.
  destruct (Hz _ _ _ _ Ha Hb Hc) as [[H1 H2]|[H1 H2]].
  - by rewrite (sign_up _ _ H1), (sign_down _ _ H2).
  - by rewrite (sign_down _ _ H1), (sign_up _ _ H2).
Qed.

Lemma alternation_repair_zigzag s e amps :
  take_idx s e = Ok amps → zigzag amps → alternation_repair s e = Ok (e, amps).
Proof.
  intros Hamps Hz. apply alternation_repair_Ok. exists amps.
  rewrite (removeext_zigzag _ Hz), !np_delete_nil. done.
Qed.

Lemma take_idx_take {A} (a : list A) idx k n :
  take_idx a idx = Ok k → take_idx a (take n idx) = Ok (take n k).
Proof. rewrite !take_idx_Ok. apply Forall2_take. Qed.

Lemma but_last_cons {A} (x : A) (l : list A) :
  l ≠ [] → but_last (x :: l) = x :: but_last l.
Proof.
  destruct l as [|y l]; [done|]. intros _. unfold but_last. simpl.
  by rewrite Nat.sub_0_r.
Qed.

Lemma delete_from_last {A} i (a : list A) :
  a ≠ [] → delete_from i [i + length a - 1] a = but_last a.
Proof.
  revert i. induction a as [|x a IH]; intros i Hne; [done|].
  cbn [delete_from]. destruct a as [|y a].
  - rewrite bool_decide_eq_true_2 by (apply list_elem_of_singleton; simpl; lia).
    done.
  - rewrite bool_decide_eq_false_2
      by (rewrite list_elem_of_singleton; simpl; lia).
    rewrite but_last_cons by done. f_equal.
    rewrite <- (IH (S i)) by done. do 2 f_equal. simpl. lia.
Qed.

Lemma np_delete_last_Ok {A} (a : list A) :
  a ≠ [] → np_delete_last a = Ok (but_last a).
Proof.
  intros Hne. unfold np_delete_last.
  assert (1 ≤ length a) by (destruct a; [done | simpl; lia]).
  rewrite decide_True by done.
  rewrite np_delete_is_Ok by (repeat constructor; lia).
  by rewrite <- (delete_from_last 0) by done.
Qed.

Lemma but_last_but_last {A} (a : list A) :
  but_last (but_last a) = take (length a - 2) a.
Proof.
  unfold but_last. rewrite length_take, take_take. f_equal. lia.
Qed.

(** Without its last pair, an even-length sequence gives the same peaks and
    troughs except the last of each. *)
Lemma peaks_troughs_but_last2 (e : list nat) :
  Nat.even (length e) = true →
  peaks_of (but_last (but_last e)) = but_last (peaks_of e) ∧
  troughs_of (but_last (but_last e)) = but_last (troughs_of e).
Proof.
  rewrite but_last_but_last.
  induction e as [| |x y l IH] using pair_induction; [done..|].
  intros Heven. simpl in Heven. specialize (IH Heven).
  rewrite peaks_of_cons2, troughs_of_cons2.
  destruct l as [|z [|w l]]; [done | done |].
  rewrite peaks_of_cons2, troughs_of_cons2 in IH |- *.
  rewrite !(but_last_cons _ (_ :: _)) by done.
  replace (take (length (x :: y :: z :: w :: l) - 2) (x :: y :: z :: w :: l))
    with (x :: y :: take (length (z :: w :: l) - 2) (z :: w :: l))
    by (simpl; by rewrite Nat.sub_0_r).
  rewrite peaks_of_cons2, troughs_of_cons2.
  destruct IH as [-> ->]. done.
Qed.

(** On a sanitized sequence the filter at [amplitude_min = 0] removes the
    last extremum and nothing else. *)
Lemma outliers_0_sanitized (s : list Qc) (e : list nat) (amps : list Qc) :
  take_idx s e = Ok amps → alternates true amps = true →
  _rsp_findpeaks_outliers s e 0 = Ok (but_last e, but_last amps).
Proof.
  intros Hamps Halt. apply outliers_Ok. exists (but_last e). split.
  - eapply amplitude_filter_0_but_last; [done|].
    intros k a b. by apply alternates_differ with true.
  - apply alternation_repair_zigzag.
    + unfold but_last. rewrite <- (take_idx_length _ _ _ Hamps).
      by apply take_idx_take.
    + apply alternates_zigzag with true. by apply alternates_take.
Qed.

Lemma even_minus_3 n : Nat.even n = true → 4 ≤ n → Nat.even (n - 3) = false.
Proof.
  intros [m ->]%Nat.even_spec Hn.
  destruct (Nat.even (2 * m - 3)) eqn:E; [|done].
  apply Nat.even_spec in E as [j Hj]. lia.
Qed.

(** The claim of C4 read literally: filter and sanitizer, run again on a
    sanitized sequence, return its peaks and troughs.  They do not. *)
Lemma resanitize_not_idempotent :
  ¬ (∀ (s : list Qc) (e : list nat),
       sanitized s e → resanitize s e = Ok (peaks_of e, troughs_of e)).
Proof.
  intros H. specialize (H breaths breaths_sanitized).
  assert (resanitize breaths breaths_sanitized = Ok ([5; 9], [3; 7])) as Hrun
    by (vm_compute; reflexivity).
  rewrite Hrun in H. discriminate H.
  split; [|split].
  - unfold increasing, breaths_sanitized. repeat constructor; lia.
  - reflexivity.
  - eexists. split; vm_compute; reflexivity.
Qed.

(** C4, amended.  On a sanitized extrema sequence the alternation repair
    removes nothing.  The filter at [amplitude_min = 0] followed by the
    sanitizer is not the identity on it: with at least two trough/peak pairs
    it returns all peaks but the last and all troughs but the last, and
    with fewer the sanitizer raises. *)
Theorem resanitize_sanitized (s : list Qc) (e : list nat) :
  sanitized s e →
  (∃ amps, alternation_repair s e = Ok (e, amps)) ∧
  (4 ≤ length e →
   resanitize s e = Ok (but_last (peaks_of e), but_last (troughs_of e))) ∧
  (length e < 4 → resanitize s e = Raise IndexError [in_sanitize]).
Proof.
  intros (Hinc & Heven & amps & Hamps & Halt).
  pose proof (take_idx_length _ _ _ Hamps) as Hlen.
  split; [|split].
  - exists amps. apply alternation_repair_zigzag; [done|].
    by apply alternates_zigzag with true.
  - intros Hn. unfold resanitize.
    rewrite (outliers_0_sanitized _ _ _ Hamps Halt). simpl.
    destruct (peaks_troughs_but_last2 e Heven) as [<- <-].
    destruct (lookup_lt_is_Some_2 amps 0) as [a0 Ha0]; [lia|].
    destruct (lookup_lt_is_Some_2 amps 1) as [a1 Ha1]; [lia|].
    destruct (lookup_lt_is_Some_2 amps (length amps - 3)) as [z2 Hz2]; [lia|].
    destruct (lookup_lt_is_Some_2 amps (S (length amps - 3))) as [z1 Hz1]; [lia|].
    pose proof (alternates_lookup _ _ _ _ _ Halt Ha0 Ha1) as H01. simpl in H01.
    pose proof (alternates_lookup _ _ _ _ _ Halt Hz2 Hz1) as H21.
    rewrite even_minus_3 in H21 by (rewrite Hlen; first [done | lia]).
    simpl in H21.
    unfold _rsp_findpeaks_sanitize, getitem_neg, getitem.
    rewrite length_but_last.
    rewrite (proj2 (lookup_but_last amps 0 a0)) by (split; [done | lia]).
    rewrite (proj2 (lookup_but_last amps 1 a1)) by (split; [done | lia]).
    simpl. rewrite bool_decide_eq_false_2 by (intros ?; by eapply Qclt_asym).
    rewrite !decide_True by lia.
    replace (length amps - 1 - 1) with (S (length amps - 3)) by lia.
    replace (length amps - 1 - 2) with (length amps - 3) by lia.
    rewrite (proj2 (lookup_but_last amps (S (length amps - 3)) z1))
      by (split; [done | lia]).
    rewrite (proj2 (lookup_but_last amps (length amps - 3) z2))
      by (split; [done | lia]).
    simpl. rewrite bool_decide_eq_true_2 by done.
    rewrite np_delete_last_Ok; [done|].
    intros Hnil%(f_equal length). rewrite length_but_last in Hnil.
    simpl in Hnil. lia.
  - intros Hn. unfold resanitize.
    rewrite (outliers_0_sanitized _ _ _ Hamps Halt). simpl.
    apply sanitize_short. rewrite length_but_last.
    apply Nat.even_spec in Heven as [m Hm]. lia.
Qed.

Lemma resanitize_sanitized_witness :
  (∃ amps, alternation_repair breaths breaths_sanitized
           = Ok (breaths_sanitized, amps)) ∧
  (4 ≤ length breaths_sanitized →
   resanitize breaths breaths_sanitized
   = Ok (but_last (peaks_of breaths_sanitized),
         but_last (troughs_of breaths_sanitized))) ∧
  (length breaths_sanitized < 4 →
   resanitize breaths breaths_sanitized = Raise IndexError [in_sanitize]).
Proof.
  apply (resanitize_sanitized breaths breaths_sanitized).
  split; [|split].
  - unfold increasing, breaths_sanitized. repeat constructor; lia.
  - reflexivity.
  - eexists. split; vm_compute; reflexivity.
Defined.

(** ** The windows of the locator *)

(** C5.  When the locator returns, the phase is "rise" if the first rising
    crossing precedes the first falling one and "fall" if it follows it;
    there is one extremum per pair of consecutive crossings; and the i-th
    extremum is the start of the i-th window plus the offset, within the
    window [rsp_cleaned[beg:end]], of the window's first maximum when the
    phase is "rise" and the window is the 1st, 3rd, ... or the phase is
    "fall" and the window is the 2nd, 4th, ..., and of its first minimum
    otherwise. *)
Theorem extrema_windows (s : list Qc) (ex : list nat) :
  _rsp_findpeaks_extrema s = Ok ex →
  ∃ r0 f0 ph,
    risex s !! 0 = Some r0 ∧ fallx s !! 0 = Some f0 ∧
    (ph = rise ∧ r0 < f0 ∨ ph = fall ∧ f0 < r0) ∧
    length ex = length (allx s) - 1 ∧
    ∀ i beg end_,
      allx s !! i = Some beg → allx s !! S i = Some end_ →
      ∃ off,
        ex !! i = Some (beg + off) ∧
        if searches_max ph (i + 1)
        then np_argmax (slice s beg end_) = Ok off ∧
             first_max (slice s beg end_) off
        else np_argmin (slice s beg end_) = Ok off ∧
             first_min (slice s beg end_) off.
Proof.
  intros Hex. pose proof (extrema_length _ _ Hex) as Hlen.
  apply extrema_Ok in Hex as (r0 & f0 & Hr0 & Hf0 & Hall).
  assert (∃ ph, startx_of r0 f0 = Some ph ∧
                (ph = rise ∧ r0 < f0 ∨ ph = fall ∧ f0 < r0)) as (ph & Hph & Hcmp).
  { destruct (startx_of_Some s r0 f0 Hr0 Hf0) as [[? ?]|[? ?]]; eauto. }
  exists r0, f0, ph. do 4 (split; [done|]).
  intros i beg end_ Hb He.
  assert (seq 0 (length (allx s) - 1) !! i = Some i) as Hi.
  { apply lookup_seq. split; [done|]. apply lookup_lt_Some in He. lia. }
  destruct (Forall2_lookup_l _ _ _ _ _ Hall Hi) as (e & Hei & Hstep).
  apply extrema_step_Ok in Hstep
    as (arg & beg' & end' & off & Harg & Hb' & He' & Hoff & ->).
  simplify_eq. exists off. split; [done|].
  apply argextreme_Ok in Harg as (ph' & Hph' & ->).
  rewrite Hph in Hph'. injection Hph' as <-.
  unfold searches_max. rewrite <- (Nat.negb_odd (i + 1)).
  destruct ph, (Nat.odd (i + 1)); simpl; (split; [done|]);
    first [by apply np_argmax_spec | by apply np_argmin_spec].
Qed.

Lemma extrema_windows_witness :
  ∃ r0 f0 ph,
    risex breaths !! 0 = Some r0 ∧ fallx breaths !! 0 = Some f0 ∧
    (ph = rise ∧ r0 < f0 ∨ ph = fall ∧ f0 < r0) ∧
    length [1; 3; 5; 7; 9; 11; 13; 14; 15] = length (allx breaths) - 1 ∧
    ∀ i beg end_,
      allx breaths !! i = Some beg → allx breaths !! S i = Some end_ →
      ∃ off,
        [1; 3; 5; 7; 9; 11; 13; 14; 15] !! i = Some (beg + off) ∧
        if searches_max ph (i + 1)
        then np_argmax (slice breaths beg end_) = Ok off ∧
             first_max (slice breaths beg end_) off
        else np_argmin (slice breaths beg end_) = Ok off ∧
             first_min (slice breaths beg end_) off.
Proof.
  apply (extrema_windows breaths [1; 3; 5; 7; 9; 11; 13; 14; 15]).
  vm_compute. reflexivity.
Defined.

(** The same locator on a signal that starts by falling: the first window
    is searched for a minimum. *)
Example extrema_fall_first :
  _rsp_findpeaks_extrema (Q2Qc <$> [1; -3; -1; 2; 5; -1; -4; 1]%Q)
  = Ok [1; 3; 5].
Proof. vm_compute. reflexivity. Qed.

(** ** [np.delete], element by element *)

Lemma elem_of_delete_from {A} i obj (a : list A) x :
  x ∈ delete_from i obj a ↔ ∃ k, a !! k = Some x ∧ i + k ∉ obj.
Proof.
  revert i. induction a as [|y a IH]; intros i; cbn [delete_from].
  { split; [by intros ?%elem_of_nil | by intros (k & ? & _)]. }
  assert (x ∈ delete_from (S i) obj a ↔
          ∃ k, (y :: a) !! S k = Some x ∧ i + S k ∉ obj) as IH'.
  { rewrite IH. by setoid_rewrite Nat.add_succ_r. }
  case_bool_decide as Hi; [|rewrite elem_of_cons]; rewrite IH'; split.
  - intros (k & ? & ?). eauto.
  - intros ([|k] & Hk & Hno); [|eauto]. destruct Hno. by rewrite Nat.add_0_r.
  - intros [->|(k & ? & ?)]; [|eauto]. exists 0. rewrite Nat.add_0_r. by split.
  - intros ([|k] & Hk & Hno); [left | right; eauto].
    simpl in Hk. by injection Hk.
Qed.

Lemma count_range_split (obj : list nat) i n :
  NoDup obj →
  length (filter (λ k, i ≤ k < i + S n) obj) =
  (if bool_decide (i ∈ obj) then 1 else 0)
  + length (filter (λ k, S i ≤ k < S i + n) obj).
Proof.
  induction 1 as [|h obj Hh Hnd IH]; [done|].
  rewrite !filter_cons.
  destruct (decide (h = i)) as [->|Hne].
  - rewrite decide_True by lia. rewrite decide_False by lia.
    cbn [length]. rewrite IH.
    rewrite (bool_decide_eq_true_2 (i ∈ i :: obj)) by left.
    rewrite (bool_decide_eq_false_2 (i ∈ obj)) by done. done.
  - assert (bool_decide (i ∈ h :: obj) = bool_decide (i ∈ obj)) as ->.
    { apply bool_decide_ext. rewrite elem_of_cons. split; [|by right].
      by intros [->|?]. }
    destruct (decide (S i ≤ h < S i + n)).
    + rewrite decide_True by lia. cbn [length]. rewrite IH. lia.
    + rewrite decide_False by lia. done.
Qed.

Lemma filter_none {A} (P : A → Prop) `{!∀ x, Decision (P x)} (l : list A) :
  Forall (λ x, ¬ P x) l → filter P l = [].
Proof.
  induction 1 as [|x l Hx Hl IH]; [done|].
  by rewrite filter_cons, decide_False, IH.
Qed.

Lemma length_delete_from {A} i obj (a : list A) :
  NoDup obj →
  length (delete_from i obj a)
  + length (filter (λ k, i ≤ k < i + length a) obj) = length a.
Proof.
  intros Hnd. revert i. induction a as [|x a IH]; intros i.
  { simpl. rewrite filter_none; [done|].
    apply Forall_forall. intros; lia. }
  cbn [delete_from length]. rewrite count_range_split by done.
  specialize (IH (S i)). set (c := length (filter _ obj)) in *.
  case_bool_decide; cbn [length]; lia.
Qed.

Lemma filter_all {A} (P : A → Prop) `{!∀ x, Decision (P x)} (l : list A) :
  Forall P l → filter P l = l.
Proof.
  induction 1 as [|x l Hx Hl IH]; [done|].
  by rewrite filter_cons, decide_True, IH.
Qed.

Lemma np_delete_length {A} (a a' : list A) obj :
  NoDup obj → np_delete a obj = Ok a' → length a' + length obj = length a.
Proof.
  intros Hnd. unfold np_delete.
  destruct (forallb _ obj) eqn:Hall; [|done]. intros [= <-].
  pose proof (length_delete_from 0 obj a Hnd) as Hcount.
  rewrite filter_all in Hcount; [done|].
  apply Is_true_eq_left, forallb_True in Hall.
  eapply Forall_impl; [exact Hall|]. intros k Hk%bool_decide_unpack. lia.
Qed.

Lemma np_delete_elem_of {A} (a a' : list A) obj x :
  np_delete a obj = Ok a' →
  x ∈ a' ↔ ∃ k, a !! k = Some x ∧ k ∉ obj.
Proof.
  unfold np_delete. destruct (forallb _ obj); [|done]. intros [= <-].
  by rewrite elem_of_delete_from.
Qed.

(** ** The physiological-rate test *)

Lemma too_fast_spec (sampling_rate d : Z) :
  (0 < sampling_rate)%Z →
  too_fast sampling_rate d = true ↔ (10 * d < 17 * sampling_rate)%Z.
Proof.
  intros Hsr. unfold too_fast. rewrite decide_False by lia.
  rewrite bool_decide_eq_true.
  destruct sampling_rate as [|p|p]; [lia| |lia].
  unfold Qclt, Qcdiv, Qcmult, Qcinv, Q2Qc. cbn [this].
  rewrite !Qred_correct. unfold Qlt. simpl. lia.
Qed.

Lemma elem_of_outlier_idcs (sampling_rate : Z) (peaks : list nat) k :
  k ∈ outlier_idcs sampling_rate peaks ↔
  ∃ p p', peaks !! k = Some p ∧ peaks !! S k = Some p' ∧
          too_fast sampling_rate (Z.of_nat p' - Z.of_nat p) = true.
Proof.
  unfold outlier_idcs, np_diff_int.
  rewrite elem_of_np_where, list_lookup_fmap_Some.
  setoid_rewrite lookup_zip_with_Some. setoid_rewrite lookup_from_1. split.
  - intros (d & Hd & p & p' & -> & Hp & Hp'). eauto.
  - intros (p & p' & Hp & Hp' & Hd). eexists. split; [by symmetry|]. eauto.
Qed.

Lemma outlier_idcs_fast_pair (sampling_rate : Z) (peaks : list nat) k :
  (0 < sampling_rate)%Z →
  k ∈ outlier_idcs sampling_rate peaks ↔ fast_pair sampling_rate peaks k.
Proof.
  intros Hsr. rewrite elem_of_outlier_idcs. unfold fast_pair.
  by setoid_rewrite (too_fast_spec _ _ Hsr).
Qed.

(** C7.  With a positive sampling rate, when the biosppy pipeline returns,
    its output is the sanitizer's peaks and troughs without the positions
    [k] at which peak [k] and peak [k + 1] are less than 1.7 seconds apart:
    the k-th peak and the k-th trough are in the output exactly when that
    pair is not too fast, and the output has one peak and one trough less
    for every such pair. *)
Theorem biosppy_rate_filter (s : list Qc) (sampling_rate : Z) (i : info) :
  (0 < sampling_rate)%Z →
  _rsp_findpeaks_biosppy s sampling_rate = Ok i →
  ∃ ex ex' amps' peaks troughs,
    _rsp_findpeaks_extrema s = Ok ex ∧
    _rsp_findpeaks_outliers s ex 0 = Ok (ex', amps') ∧
    _rsp_findpeaks_sanitize ex' amps' = Ok (peaks, troughs) ∧
    length peaks = length troughs ∧
    NoDup (outlier_idcs sampling_rate peaks) ∧
    (∀ k, k ∈ outlier_idcs sampling_rate peaks ↔ fast_pair sampling_rate peaks k) ∧
    (∀ k p t, peaks !! k = Some p → troughs !! k = Some t →
       (p ∈ RSP_Peaks i ↔ ¬ fast_pair sampling_rate peaks k) ∧
       (t ∈ RSP_Troughs i ↔ ¬ fast_pair sampling_rate peaks k)) ∧
    length (RSP_Peaks i) + length (outlier_idcs sampling_rate peaks)
      = length peaks ∧
    length (RSP_Troughs i) + length (outlier_idcs sampling_rate peaks)
      = length troughs.
Proof.
  intros Hsr (ex & ex' & amps' & peaks & troughs &
    Hex & Hout & Hsan & Hpk & Htr)%biosppy_Ok.
  exists ex, ex', amps', peaks, troughs. do 3 (split; [done|]).
  destruct (sanitized_stages _ _ _ _ _ _ _ Hex Hout Hsan) as (e & Hinc & _ & -> & ->).
  destruct (length_troughs_peaks e) as [Hlt Hlp].
  pose proof (increasing_NoDup _ (peaks_of_increasing _ Hinc)) as Hndp.
  pose proof (increasing_NoDup _ (troughs_of_increasing _ Hinc)) as Hndt.
  pose proof (increasing_NoDup _ (np_where_increasing
    (too_fast sampling_rate <$> np_diff_int (peaks_of e)))) as Hndi.
  split; [lia|]. split; [done|].
  split; [intros k; by apply outlier_idcs_fast_pair|].
  split; [|split; by eapply np_delete_length].
  intros k p t Hp Ht. rewrite <- (outlier_idcs_fast_pair _ _ _ Hsr).
  rewrite (np_delete_elem_of _ _ _ p Hpk), (np_delete_elem_of _ _ _ t Htr).
  split; (split; [intros (k' & Hk' & Hno)|eauto]).
  - by rewrite <- (NoDup_lookup _ _ _ _ Hndp Hk' Hp).
  - by rewrite <- (NoDup_lookup _ _ _ _ Hndt Hk' Ht).
Qed.

Lemma biosppy_rate_filter_witness :
  ∃ ex ex' amps' peaks troughs,
    _rsp_findpeaks_extrema fast_breaths = Ok ex ∧
    _rsp_findpeaks_outliers fast_breaths ex 0 = Ok (ex', amps') ∧
    _rsp_findpeaks_sanitize ex' amps' = Ok (peaks, troughs) ∧
    length peaks = length troughs ∧
    NoDup (outlier_idcs 4 peaks) ∧
    (∀ k, k ∈ outlier_idcs 4 peaks ↔ fast_pair 4 peaks k) ∧
    (∀ k p t, peaks !! k = Some p → troughs !! k = Some t →
       (p ∈ RSP_Peaks (Info [16] [13]) ↔ ¬ fast_pair 4 peaks k) ∧
       (t ∈ RSP_Troughs (Info [16] [13]) ↔ ¬ fast_pair 4 peaks k)) ∧
    length (RSP_Peaks (Info [16] [13])) + length (outlier_idcs 4 peaks)
      = length peaks ∧
    length (RSP_Troughs (Info [16] [13])) + length (outlier_idcs 4 peaks)
      = length troughs.
Proof.
  apply (biosppy_rate_filter fast_breaths 4 (Info [16] [13])).
  - lia.
  - vm_compute. reflexivity.
Defined.

(** Scenario D: at 4 samples a second, two peaks six samples apart (40
    breaths a minute) cost one peak/trough pair. *)
Example biosppy_drops_a_pair :
  _rsp_findpeaks_khodadad fast_breaths 0 = Ok (Info [10; 16] [7; 13]) ∧
  _rsp_findpeaks_biosppy fast_breaths 4 = Ok (Info [16] [13]).
Proof. split; vm_compute; reflexivity. Qed.

(** ** Method dispatch *)

Lemma column_not_NameError (df : gmap string (list Qc)) key
    (handler : result (list Qc)) :
  try_except_NameError (column df key) handler = column df key.
Proof. unfold column. by destruct (df !! key). Qed.

Lemma retrieve_column_DataFrame (df : gmap string (list Qc)) :
  retrieve_column (DataFrame df) = column df "RSP_Clean".
Proof. apply column_not_NameError. Qed.

Section DispatchProperties.
Variable detect_peaks_troughs :
  list Qc → string → Qc → Z → result (list nat * list nat).
Variable find_peaks : list Qc → Qc → Qc → result (list nat).

Local Abbreviation run := (rsp_findpeaks detect_peaks_troughs find_peaks).

Lemma rsp_findpeaks_khodadad x a sr m amin pd pp delta la :
  retrieve_column x = Ok a →
  lower m ∈ ["khodadad"; "khodadad2018"] →
  run x sr m amin pd pp delta la
  = within in_rsp_findpeaks (_rsp_findpeaks_khodadad a amin).
Proof.
  intros Hx Hm. unfold rsp_findpeaks. rewrite Hx. simpl.
  by rewrite bool_decide_eq_true_2.
Qed.

Lemma rsp_findpeaks_biosppy x a sr m amin pd pp delta la :
  retrieve_column x = Ok a →
  lower m = "biosppy" →
  run x sr m amin pd pp delta la
  = within in_rsp_findpeaks (_rsp_findpeaks_biosppy a sr).
Proof.
  intros Hx Hm. unfold rsp_findpeaks. rewrite Hx. simpl.
  by rewrite Hm.
Qed.


Lemma rsp_findpeaks_Ok x sr m amin pd pp delta la i :
  run x sr m amin pd pp delta la = Ok i →
  ∃ a, retrieve_column x = Ok a.
Proof.
  unfold rsp_findpeaks. rewrite within_Ok.
  intros (a & Ha & _)%bind_Ok. eauto.
Qed.

End DispatchProperties.

Lemma lower_idempotent (m : string) : lower (lower m) = lower m.
Proof.
  induction m as [|c m IH]; [done|]. simpl. f_equal; [|done].
  unfold lower_ascii at 1. case_decide as Hc; [|done].
  unfold lower_ascii in Hc |- *. case_decide as Hc'.
  - rewrite nat_ascii_embedding in Hc by (pose proof (nat_ascii_bounded c); lia).
    lia.
  - lia.
Qed.

Section DispatchClaims.
Variable detect_peaks_troughs :
  list Qc → string → Qc → Z → result (list nat * list nat).
Variable find_peaks : list Qc → Qc → Qc → result (list nat).

(** A recognized name reaches the pipeline it names. *)
Lemma rsp_findpeaks_recognized x a sr m amin pd pp delta la :
  retrieve_column x = Ok a →
  recognized m = true →
  rsp_findpeaks detect_peaks_troughs find_peaks
    x sr m amin pd pp delta la ∈
    within in_rsp_findpeaks <$>
      [ _rsp_findpeaks_khodadad a amin;
        _rsp_findpeaks_biosppy a sr;
        _rsp_findpeaks_noto detect_peaks_troughs a delta la;
        _rsp_findpeaks_scipy find_peaks a sr pd pp ].
Proof.
  intros Hx Hm. unfold rsp_findpeaks. rewrite Hx. simpl.
  apply bool_decide_eq_true in Hm.
  repeat case_bool_decide; [repeat constructor..|]. exfalso.
  repeat (apply elem_of_cons in Hm as [Hm|Hm];
          [match goal with
           | Hn : _ ∉ _ |- _ => solve [destruct Hn; rewrite Hm; repeat constructor]
           | Hn : _ ≠ _ |- _ => solve [destruct Hn; exact Hm]
           end|]).
  by apply elem_of_nil in Hm.
Qed.

(** C2.  Whenever [rsp_findpeaks] returns with the method khodadad2018 (or
    its alias khodadad) or biosppy, in any capitalisation, the returned
    peaks and troughs have the same length. *)
Theorem peaks_troughs_equal_length (x : rsp_input) (sampling_rate : Z)
    (method : string) (amplitude_min peak_distance peak_prominence delta : Qc)
    (lookahead : Z) (i : info) :
  lower method ∈ ["khodadad"; "khodadad2018"; "biosppy"] →
  rsp_findpeaks detect_peaks_troughs find_peaks
    x sampling_rate method amplitude_min peak_distance peak_prominence
    delta lookahead = Ok i →
  length (RSP_Peaks i) = length (RSP_Troughs i).
Proof.
  intros Hm Hrun. destruct (rsp_findpeaks_Ok _ _ _ _ _ _ _ _ _ _ _ Hrun) as [a Ha].
  assert (lower method ∈ ["khodadad"; "khodadad2018"] ∨ lower method = "biosppy")
    as [Hk|Hb].
  { apply elem_of_cons in Hm as [->|Hm]; [left; repeat constructor|].
    apply elem_of_cons in Hm as [->|Hm]; [left; repeat constructor|].
    apply elem_of_cons in Hm as [->|Hm]; [by right|].
    by apply elem_of_nil in Hm. }
  - rewrite (rsp_findpeaks_khodadad _ _ _ _ _ _ _ _ _ _ _ Ha Hk), within_Ok in Hrun.
    apply khodadad_Ok in Hrun as (ex & ex' & amps' & Hex & Hout & Hsan).
    destruct (sanitized_stages _ _ _ _ _ _ _ Hex Hout Hsan) as (e & _ & _ & -> & ->).
    destruct (length_troughs_peaks e). lia.
  - rewrite (rsp_findpeaks_biosppy _ _ _ _ _ _ _ _ _ _ _ Ha Hb), within_Ok in Hrun.
    apply biosppy_Ok in Hrun
      as (ex & ex' & amps' & peaks & troughs & Hex & Hout & Hsan & Hpk & Htr).
    destruct (sanitized_stages _ _ _ _ _ _ _ Hex Hout Hsan) as (e & _ & _ & -> & ->).
    destruct (length_troughs_peaks e).
    pose proof (increasing_NoDup _ (np_where_increasing
      (too_fast sampling_rate <$> np_diff_int (peaks_of e)))) as Hnd.
    pose proof (np_delete_length _ _ _ Hnd Hpk).
    pose proof (np_delete_length _ _ _ Hnd Htr). lia.
Qed.


(** C10.  A table without an "RSP_Clean" column ends the call in the
    KeyError of that lookup, whether or not it has an "RSP_Raw" or "RSP"
    column: the handlers wait for a NameError, and the lookup of a column
    raises none. *)
Theorem missing_clean_column_raises (df : gmap string (list Qc))
    (sampling_rate : Z) (method : string)
    (amplitude_min peak_distance peak_prominence delta : Qc) (lookahead : Z) :
  df !! "RSP_Clean" = None →
  rsp_findpeaks detect_peaks_troughs find_peaks
    (DataFrame df) sampling_rate method amplitude_min peak_distance
    peak_prominence delta lookahead
  = Raise (KeyError "RSP_Clean") [in_rsp_findpeaks].
Proof.
  intros Hdf. unfold rsp_findpeaks.
  rewrite retrieve_column_DataFrame. unfold column. by rewrite Hdf.
Qed.

End DispatchClaims.

Lemma peaks_troughs_equal_length_witness :
  length (RSP_Peaks (Info [14] [11])) = length (RSP_Troughs (Info [14] [11])).
Proof.
  apply (peaks_troughs_equal_length no_detector no_find_peaks
           (Samples breaths) 1000 "BioSPPy" (Q2Qc (3 # 10)) 0%Qc 0%Qc 0%Qc 200).
  - vm_compute. repeat constructor.
  - vm_compute. reflexivity.
Defined.


(** The message of the configuration error lists three of the four
    pipelines. *)
Example method_error_choices :
  recognized "noto2018" = true ∧ occurs_in "noto" (lower method_error) = false.
Proof. vm_compute. done. Qed.

Example unrecognized_method_on_raw_only :
  recognized "Pan-Tompkins" = false ∧
  rsp_findpeaks no_detector no_find_peaks (DataFrame raw_only) 1000
    "Pan-Tompkins" (Q2Qc (3 # 10)) 0%Qc 0%Qc 0%Qc 200
  = Raise (KeyError "RSP_Clean") [in_rsp_findpeaks].
Proof. vm_compute. done. Qed.


Lemma missing_clean_column_raises_witness :
  rsp_findpeaks no_detector no_find_peaks (DataFrame raw_only) 1000
    "khodadad2018" (Q2Qc (3 # 10)) 0%Qc 0%Qc 0%Qc 200
  = Raise (KeyError "RSP_Clean") [in_rsp_findpeaks].
Proof.
  apply (missing_clean_column_raises no_detector no_find_peaks raw_only).
  vm_compute. reflexivity.
Defined.

(** * Further properties of the stages *)

(** ** The crossings *)

(** X1.  The crossing list [allx] is a rearrangement of the rising and the
    falling crossings, strictly increasing: an index is never both a rising
    and a falling crossing, so the sort meets no tie.  A rising crossing is
    an index with a negative sample followed by a positive one, a falling
    crossing the reverse, and every crossing has its successor inside the
    signal. *)
Theorem crossings_ordered (s : list Qc) :
  allx s ≡ₚ risex s ++ fallx s ∧
  increasing (allx s) ∧
  (∀ i, i ∈ risex s ↔ rising_crossing s i) ∧
  (∀ i, i ∈ fallx s ↔ falling_crossing s i) ∧
  (∀ i, ¬ (i ∈ risex s ∧ i ∈ fallx s)) ∧
  (∀ i, i ∈ allx s → S i < length s).
Proof.
  split; [apply merge_sort_Permutation|].
  split; [apply allx_increasing|].
  split; [apply elem_of_risex|]. split; [apply elem_of_fallx|].
  split; [|apply allx_in_range].
  intros i [Hr Hf]. by eapply risex_fallx_disjoint.
Qed.

(** X2.  The locator returns exactly when the signal has a rising and a
    falling crossing; it then gives one extremum for each pair of
    consecutive crossings, at least one.  No window is empty and [startx] is
    always bound. *)
Theorem locator_returns_iff (s : list Qc) :
  ((∃ i, rising_crossing s i) ∧ (∃ j, falling_crossing s j) ↔
   ∃ ex, _rsp_findpeaks_extrema s = Ok ex) ∧
  (∀ ex, _rsp_findpeaks_extrema s = Ok ex →
         S (length ex) = length (risex s) + length (fallx s) ∧ 1 ≤ length ex).
Proof.
  split; [split|].
  - intros [[i Hi] [j Hj]]. apply extrema_is_Ok.
    + intros Hnil. by apply (proj1 (risex_nil s) Hnil i).
    + intros Hnil. by apply (proj1 (fallx_nil s) Hnil j).
  - intros [ex (r0 & f0 & Hr & Hf & _)%extrema_Ok]. split.
    + exists r0. by apply elem_of_risex, list_elem_of_lookup_2 with 0.
    + exists f0. by apply elem_of_fallx, list_elem_of_lookup_2 with 0.
  - intros ex Hex. pose proof (extrema_length _ _ Hex) as Hlen.
    apply extrema_Ok in Hex as (r0 & f0 & Hr%lookup_lt_Some & Hf%lookup_lt_Some & _).
    rewrite length_allx in Hlen. lia.
Qed.

(** X3.  The extrema the locator returns are valid positions of the signal,
    strictly increasing, the i-th one inside the i-th window: not before the
    i-th crossing and before the next one. *)
Theorem extrema_positions (s : list Qc) (ex : list nat) :
  _rsp_findpeaks_extrema s = Ok ex →
  increasing ex ∧
  Forall (λ e, e < length s) ex ∧
  ∀ i e, ex !! i = Some e →
         ∃ beg end_, allx s !! i = Some beg ∧ allx s !! S i = Some end_ ∧
                     beg ≤ e < end_.
Proof.
  intros Hex. split; [by eapply extrema_increasing|].
  split; [by apply extrema_in_range|].
  intros i e. by apply extrema_lookup.
Qed.

Lemma extrema_positions_witness :
  increasing [1; 3; 5; 7; 9; 11; 13; 14; 15] ∧
  Forall (λ e, e < length breaths) [1; 3; 5; 7; 9; 11; 13; 14; 15] ∧
  ∀ i e, [1; 3; 5; 7; 9; 11; 13; 14; 15] !! i = Some e →
         ∃ beg end_, allx breaths !! i = Some beg ∧
                     allx breaths !! S i = Some end_ ∧ beg ≤ e < end_.
Proof.
  apply (extrema_positions breaths). vm_compute. reflexivity.
Defined.

(** ** Signals without a zero sample *)

(** Between a sample with [P] and a later one with [Q] there is a
    neighbouring pair that goes from [P] to [Q]. *)
Lemma sign_change_between (P Q : Qc → Prop) (s : list Qc) n p x y :
  Forall (λ v, P v ∨ Q v) s → (∀ v, P v → Q v → False) →
  s !! p = Some x → s !! (p + n) = Some y → P x → Q y →
  ∃ j u v, p ≤ j < p + n ∧ s !! j = Some u ∧ s !! S j = Some v ∧ P u ∧ Q v.
Proof.
  intros Hall Hexcl. revert p x.
  induction n as [|n IH]; intros p x Hp Hq HP HQ.
  { rewrite Nat.add_0_r, Hp in Hq. injection Hq as ->. by destruct (Hexcl y). }
  destruct (lookup_lt_is_Some_2 s (S p)) as [v Hv].
  { apply lookup_lt_Some in Hq. lia. }
  rewrite Forall_lookup in Hall. destruct (Hall _ _ Hv) as [HPv|HQv].
  - destruct (IH (S p) v Hv) as (j & u & w & Hj & Hu & Hw & HPu & HQw);
      [by replace (S p + n) with (p + S n) by lia | done | done |].
    exists j, u, w. split; [lia | done].
  - exists p, x, v. split; [lia | done].
Qed.

Lemma between_consecutive (l : list nat) i b e j :
  increasing l → l !! i = Some b → l !! S i = Some e → j ∈ l →
  b < j → j < e → False.
Proof.
  rewrite increasing_lookup. intros Hinc Hb He [k Hk]%list_elem_of_lookup_1 Hbj Hje.
  destruct (decide (k ≤ i)) as [Hle|Hgt].
  - destruct (decide (k = i)) as [->|Hne]; [simplify_eq; lia|].
    assert (j < b) by (eapply (Hinc k i); eauto; lia). lia.
  - destruct (decide (k = S i)) as [->|Hne]; [simplify_eq; lia|].
    assert (e < j) by (eapply (Hinc (S i) k); eauto; lia). lia.
Qed.

Lemma nonzero_sign (v : Qc) : v ≠ 0%Qc → (0 < v)%Qc ∨ (v < 0)%Qc.
Proof. intros Hv. destruct (Qc_dec 0 v) as [[?|?]|?]; auto. by destruct Hv. Qed.

(** Without a zero sample the kinds of the crossings alternate. *)
Lemma next_crossing_kind (s : list Qc) i b e :
  Forall (λ v, v ≠ 0%Qc) s →
  allx s !! i = Some b → allx s !! S i = Some e →
  (b ∈ risex s → e ∈ fallx s) ∧ (b ∈ fallx s → e ∈ risex s).
Proof.
  intros Hnz Hb He.
  destruct (allx_window _ _ _ _ Hb He) as [Hbe _].
  assert (e ∈ risex s ∨ e ∈ fallx s) as Hkind
    by by apply elem_of_allx, list_elem_of_lookup_2 with (S i).
  split; intros Hbk; destruct Hkind as [Her|Hef]; try done; exfalso.
  - apply elem_of_risex in Hbk as (_ & y & _ & Hy & _ & Hpos).
    apply elem_of_risex in Her as (x & _ & Hx & _ & Hneg & _).
    destruct (sign_change_between (λ v, (0 < v)%Qc) (λ v, (v < 0)%Qc)
                s (e - S b) (S b) y x)
      as (j & u & v & Hj & Hu & Hv & HPu & HQv); try done.
    + eapply Forall_impl; [exact Hnz|]. apply nonzero_sign.
    + intros v ??. by eapply Qclt_asym.
    + by replace (S b + (e - S b)) with e by lia.
    + eapply (between_consecutive (allx s) i b e j);
        [apply allx_increasing | done | done | | lia | lia].
      apply elem_of_allx. right. apply elem_of_fallx. eauto 10.
  - apply elem_of_fallx in Hbk as (_ & y & _ & Hy & _ & Hneg).
    apply elem_of_fallx in Hef as (x & _ & Hx & _ & Hpos & _).
    destruct (sign_change_between (λ v, (v < 0)%Qc) (λ v, (0 < v)%Qc)
                s (e - S b) (S b) y x)
      as (j & u & v & Hj & Hu & Hv & HPu & HQv); try done.
    + eapply Forall_impl; [exact Hnz|]. intros v Hv.
      destruct (nonzero_sign v Hv); auto.
    + intros v ??. by eapply Qclt_asym.
    + by replace (S b + (e - S b)) with e by lia.
    + eapply (between_consecutive (allx s) i b e j);
        [apply allx_increasing | done | done | | lia | lia].
      apply elem_of_allx. left. apply elem_of_risex. eauto 10.
Qed.

Lemma increasing_first_le (l : list nat) x y :
  increasing l → l !! 0 = Some x → y ∈ l → x ≤ y.
Proof.
  rewrite increasing_lookup. intros Hinc Hx [k Hk]%list_elem_of_lookup_1.
  destruct k as [|k]; [simplify_eq; lia|].
  assert (x < y) by (eapply (Hinc 0 (S k)); eauto; lia). lia.
Qed.

(** The first crossing is a rising one exactly in phase "rise". *)
Lemma first_crossing_kind (s : list Qc) r0 f0 ph b :
  risex s !! 0 = Some r0 → fallx s !! 0 = Some f0 →
  startx_of r0 f0 = Some ph → allx s !! 0 = Some b →
  match ph with rise => b ∈ risex s | fall => b ∈ fallx s end.
Proof.
  intros Hr Hf Hph Hb.
  pose proof (list_elem_of_lookup_2 _ _ _ Hr) as Hr0.
  pose proof (list_elem_of_lookup_2 _ _ _ Hf) as Hf0.
  assert (b ≤ r0) as Hbr.
  { eapply increasing_first_le; [apply allx_increasing | done |].
    apply elem_of_allx. by left. }
  assert (b ≤ f0) as Hbf.
  { eapply increasing_first_le; [apply allx_increasing | done |].
    apply elem_of_allx. by right. }
  assert (b ∈ risex s ∨ b ∈ fallx s) as [Hk|Hk]
    by by apply elem_of_allx, list_elem_of_lookup_2 with 0.
  - pose proof (increasing_first_le _ _ _ (np_where_increasing _) Hr Hk).
    unfold startx_of in Hph. repeat case_decide; simplify_eq; [done|].
    assert (b = r0) as -> by lia. lia.
  - pose proof (increasing_first_le _ _ _ (np_where_increasing _) Hf Hk).
    unfold startx_of in Hph. repeat case_decide; simplify_eq; [|done].
    assert (b = f0) as -> by lia. lia.
Qed.

Lemma crossing_kind_parity (s : list Qc) r0 f0 ph i b :
  Forall (λ v, v ≠ 0%Qc) s →
  risex s !! 0 = Some r0 → fallx s !! 0 = Some f0 →
  startx_of r0 f0 = Some ph → allx s !! i = Some b →
  if searches_max ph (i + 1) then b ∈ risex s else b ∈ fallx s.
Proof.
  intros Hnz Hr Hf Hph. revert b. induction i as [|i IH]; intros b Hb.
  - pose proof (first_crossing_kind _ _ _ _ _ Hr Hf Hph Hb). by destruct ph.
  - destruct (lookup_lt_is_Some_2 (allx s) i) as [b' Hb'].
    { apply lookup_lt_Some in Hb. lia. }
    specialize (IH _ Hb').
    destruct (next_crossing_kind _ _ _ _ Hnz Hb' Hb) as [Hrf Hfr].
    unfold searches_max in *. replace (S i + 1) with (S (i + 1)) by lia.
    rewrite Nat.odd_succ, Nat.even_succ. rewrite <- !Nat.negb_even in *.
    destruct ph, (Nat.even (i + 1)); simpl in *; auto.
Qed.

(** What the locator does in its i-th window. *)
Lemma extrema_window_search (s : list Qc) ex i e :
  _rsp_findpeaks_extrema s = Ok ex → ex !! i = Some e →
  ∃ r0 f0 ph beg end_ off,
    risex s !! 0 = Some r0 ∧ fallx s !! 0 = Some f0 ∧
    startx_of r0 f0 = Some ph ∧
    allx s !! i = Some beg ∧ allx s !! S i = Some end_ ∧ e = beg + off ∧
    if searches_max ph (i + 1) then first_max (slice s beg end_) off
    else first_min (slice s beg end_) off.
Proof.
  intros (r0 & f0 & Hr0 & Hf0 & Hall)%extrema_Ok Hi.
  destruct (Forall2_lookup_r _ _ _ _ _ Hall Hi) as (i' & [-> _]%lookup_seq & Hstep).
  simpl in Hstep.
  apply extrema_step_Ok in Hstep
    as (arg & beg & end_ & off & Harg & Hb & He & Hoff & ->).
  apply argextreme_Ok in Harg as (ph & Hph & ->).
  exists r0, f0, ph, beg, end_, off. do 6 (split; [done|]).
  unfold searches_max. rewrite <- (Nat.negb_odd (i + 1)).
  destruct ph, (Nat.odd (i + 1)); simpl;
    first [by apply np_argmax_spec | by apply np_argmin_spec].
Qed.

(** X4.  On a signal without a zero sample the crossings alternate between
    rising and falling, and the locator searches each window for the extreme
    its comment announces: a window that starts at a rising crossing ends at
    a falling one and gives the first maximum of [rsp_cleaned[beg:end]], a
    window that starts at a falling crossing ends at a rising one and gives
    the first minimum.  When the window holds at least two samples that
    maximum is positive and that minimum negative. *)
Theorem zero_free_windows (s : list Qc) (ex : list nat) :
  Forall (λ v, v ≠ 0%Qc) s →
  _rsp_findpeaks_extrema s = Ok ex →
  ∀ i e, ex !! i = Some e →
    ∃ beg end_ v,
      allx s !! i = Some beg ∧ allx s !! S i = Some end_ ∧ s !! e = Some v ∧
      ((rising_crossing s beg ∧ falling_crossing s end_ ∧
        first_max (slice s beg end_) (e - beg) ∧
        (S beg < end_ → (0 < v)%Qc)) ∨
       (falling_crossing s beg ∧ rising_crossing s end_ ∧
        first_min (slice s beg end_) (e - beg) ∧
        (S beg < end_ → (v < 0)%Qc))).
Proof.
  intros Hnz Hex i e Hi.
  destruct (extrema_window_search _ _ _ _ Hex Hi)
    as (r0 & f0 & ph & beg & end_ & off & Hr & Hf & Hph & Hb & He & -> & Hsearch).
  pose proof (crossing_kind_parity _ _ _ _ _ _ Hnz Hr Hf Hph Hb) as Hkind.
  destruct (next_crossing_kind _ _ _ _ Hnz Hb He) as [Hrf Hfr].
  destruct (searches_max ph (i + 1)).
  - destruct Hsearch as (m & Hm & Hmax & Hfirst).
    pose proof Hm as [Hv _]%lookup_slice.
    exists beg, end_, m. do 3 (split; [done|]). left.
    replace (beg + off - beg) with off by lia.
    split; [by apply elem_of_risex|]. split; [by apply elem_of_fallx, Hrf|].
    split; [exact (ex_intro _ m (conj Hm (conj Hmax Hfirst)))|]. intros Hlen.
    apply elem_of_risex in Hkind as (_ & y & _ & Hy & _ & Hpos).
    apply Qclt_le_trans with y; [done|]. apply Hmax, elem_of_slice.
    exists (S beg). split; [lia | done].
  - destruct Hsearch as (m & Hm & Hmin & Hfirst).
    pose proof Hm as [Hv _]%lookup_slice.
    exists beg, end_, m. do 3 (split; [done|]). right.
    replace (beg + off - beg) with off by lia.
    split; [by apply elem_of_fallx|]. split; [by apply elem_of_risex, Hfr|].
    split; [exact (ex_intro _ m (conj Hm (conj Hmin Hfirst)))|]. intros Hlen.
    apply elem_of_fallx in Hkind as (_ & y & _ & Hy & _ & Hneg).
    apply Qcle_lt_trans with y; [|done]. apply Hmin, elem_of_slice.
    exists (S beg). split; [lia | done].
Qed.

Lemma zero_free_windows_witness :
  ∃ beg end_ v,
    allx breaths !! 1 = Some beg ∧ allx breaths !! 2 = Some end_ ∧
    breaths !! 3 = Some v ∧
    ((rising_crossing breaths beg ∧ falling_crossing breaths end_ ∧
      first_max (slice breaths beg end_) (3 - beg) ∧
      (S beg < end_ → (0 < v)%Qc)) ∨
     (falling_crossing breaths beg ∧ rising_crossing breaths end_ ∧
      first_min (slice breaths beg end_) (3 - beg) ∧
      (S beg < end_ → (v < 0)%Qc))).
Proof.
  apply (zero_free_windows breaths [1; 3; 5; 7; 9; 11; 13; 14; 15]).
  - apply (bool_decide_unpack _). vm_compute. reflexivity.
  - vm_compute. reflexivity.
  - reflexivity.
Defined.

(** ** The outlier filter as a whole *)

Lemma removeext_in_range (amps : list Qc) :
  Forall (λ j, S j < length amps) (removeext amps).
Proof.
  unfold removeext. apply Forall_fmap, Forall_forall.
  intros k Hk%elem_of_np_where%lookup_lt_Some. simpl.
  rewrite length_fmap, length_zip_with, length_but_last, length_from_1 in Hk.
  unfold np_sign in Hk. rewrite length_fmap, length_np_diff in Hk. lia.
Qed.

Lemma alternation_repair_is_Ok (s : list Qc) (ex : list nat) :
  Forall (λ e, e < length s) ex →
  ∃ ex' amps', alternation_repair s ex = Ok (ex', amps').
Proof.
  intros Hrange. destruct (take_idx_is_Ok s ex Hrange) as [amps Hamps].
  pose proof (take_idx_length _ _ _ Hamps) as Hlen.
  exists (delete_from 0 (removeext amps) ex), (delete_from 0 (removeext amps) amps).
  apply alternation_repair_Ok. exists amps. split; [done|].
  split; apply np_delete_is_Ok;
    (eapply Forall_impl; [apply removeext_in_range|]); simpl; lia.
Qed.

Lemma amplitude_filter_is_Ok (s : list Qc) (ex : list nat) (amin : Qc) :
  Forall (λ e, e < length s) ex →
  ∃ ex1, amplitude_filter s ex amin = Ok ex1 ∧
         Forall (λ e, e < length s) ex1 ∧ length ex1 ≤ length ex - 1.
Proof.
  intros Hrange. destruct (take_idx_is_Ok s ex Hrange) as [amps Hamps].
  pose proof (take_idx_length _ _ _ Hamps) as Hlen.
  destruct (take_idx_is_Ok ex (min_diff amps amin)) as [ex1 Hex1].
  { eapply Forall_impl; [apply min_diff_in_range|]. simpl. lia. }
  exists ex1. split; [apply amplitude_filter_Ok; eauto|]. split.
  - rewrite Forall_forall in Hrange |- *. intros e He.
    by eapply Hrange, take_idx_subseteq.
  - rewrite (take_idx_length _ _ _ Hex1). unfold min_diff.
    assert (∀ i mask, length (where_from i mask) ≤ length mask) as Hw.
    { intros i mask. revert i. induction mask as [|b mask IH]; intros i; [done|].
      simpl. destruct b; simpl; specialize (IH (S i)); lia. }
    etrans; [apply Hw|]. unfold np_abs.
    rewrite !length_fmap, length_np_diff. lia.
Qed.

(** X5.  Given extrema that are positions of the signal, the outlier filter
    always returns, for every [amplitude_min]: a selection of the extrema it
    was given, together with the samples at the selected positions, in the
    same order when the input is strictly increasing, and at least one
    extremum shorter than a non-empty input. *)
Theorem outliers_returns (s : list Qc) (ex : list nat) (amplitude_min : Qc) :
  Forall (λ e, e < length s) ex →
  ∃ ex' amps',
    _rsp_findpeaks_outliers s ex amplitude_min = Ok (ex', amps') ∧
    ex' ⊆ ex ∧
    Forall2 (λ e a, s !! e = Some a) ex' amps' ∧
    length ex' ≤ length ex - 1 ∧
    (increasing ex → increasing ex').
Proof.
  intros Hrange.
  destruct (amplitude_filter_is_Ok s ex amplitude_min Hrange)
    as (ex1 & Hex1 & Hrange1 & Hlen1).
  destruct (alternation_repair_is_Ok s ex1 Hrange1) as (ex' & amps' & Hrep).
  assert (_rsp_findpeaks_outliers s ex amplitude_min = Ok (ex', amps')) as Hout
    by (apply outliers_Ok; eauto).
  exists ex', amps'. split; [done|].
  destruct (outliers_result _ _ _ _ _ Hout) as (Hsub & Hamps & Hinc).
  do 2 (split; [done|]). split; [|done].
  apply alternation_repair_Ok in Hrep as (amps & _ & Hd%np_delete_Ok_sublist & _).
  apply sublist_length in Hd. lia.
Qed.

Lemma outliers_returns_witness :
  ∃ ex' amps',
    _rsp_findpeaks_outliers breaths [1; 3; 5; 7; 9; 11; 13; 14; 15] (Q2Qc (3 # 10))
    = Ok (ex', amps') ∧
    ex' ⊆ [1; 3; 5; 7; 9; 11; 13; 14; 15] ∧
    Forall2 (λ e a, breaths !! e = Some a) ex' amps' ∧
    length ex' ≤ length [1; 3; 5; 7; 9; 11; 13; 14; 15] - 1 ∧
    (increasing [1; 3; 5; 7; 9; 11; 13; 14; 15] → increasing ex').
Proof.
  apply (outliers_returns breaths).
  apply (bool_decide_unpack _). vm_compute. reflexivity.
Defined.

(** An extremum that is no position of the signal makes the filter raise. *)
Lemma take_idx_out_of_range {A} (a : list A) (idx : list nat) :
  ¬ Forall (λ i, i < length a) idx → take_idx a idx = Raise IndexError [].
Proof.
  unfold take_idx. induction idx as [|i idx IH]; intros Hnot.
  { destruct Hnot. constructor. }
  change (mapM (getitem a) (i :: idx))
    with (getitem a i ≫= λ y, mapM (getitem a) idx ≫= λ k, mret (y :: k)).
  destruct (getitem a i) as [x|e tb] eqn:Hg; simpl.
  - apply getitem_Ok in Hg. rewrite IH; [done|]. intros Hall. apply Hnot.
    constructor; [by apply lookup_lt_Some in Hg | done].
  - unfold getitem in Hg. destruct (a !! i); by simplify_eq.
Qed.

(** X6.  An extremum beyond the end of the signal makes the outlier filter
    raise an IndexError, in its own frame. *)
Theorem outliers_out_of_range (s : list Qc) (ex : list nat) (amplitude_min : Qc) :
  ¬ Forall (λ e, e < length s) ex →
  _rsp_findpeaks_outliers s ex amplitude_min = Raise IndexError [in_outliers].
Proof.
  intros Hnot. unfold _rsp_findpeaks_outliers, amplitude_filter.
  by rewrite take_idx_out_of_range.
Qed.

Lemma outliers_out_of_range_witness :
  _rsp_findpeaks_outliers up_down_up beyond_the_end (Q2Qc (3 # 10))
  = Raise IndexError [in_outliers].
Proof.
  apply (outliers_out_of_range up_down_up beyond_the_end).
  intros H. apply (bool_decide_pack _) in H. vm_compute in H. exact H.
Defined.

(** X7.  Whatever [amplitude_min] is, the last of strictly increasing
    extrema never survives the outlier filter: the amplitude test has one
    result less than there are extrema, and it is the last extremum that
    goes without. *)
Theorem outliers_drop_last (s : list Qc) (ex : list nat) (amplitude_min : Qc)
    (ex' : list nat) (amps' : list Qc) (l : nat) :
  increasing ex →
  _rsp_findpeaks_outliers s ex amplitude_min = Ok (ex', amps') →
  last ex = Some l →
  l ∉ ex'.
Proof.
  intros Hinc (ex1 & (amps & Hamps & Hex1)%amplitude_filter_Ok
                   & (amps1 & _ & Hd%np_delete_Ok_sublist & _)%alternation_repair_Ok)%outliers_Ok
    Hlast Hl.
  apply (sublist_subseteq _ _ Hd), list_elem_of_lookup_1 in Hl as [j Hj].
  apply take_idx_Ok in Hex1.
  destruct (Forall2_lookup_r _ _ _ _ _ Hex1 Hj) as (k & Hk & Hkl).
  pose proof (min_diff_in_range amps amplitude_min) as Hrange.
  rewrite Forall_lookup in Hrange. specialize (Hrange _ _ Hk). simpl in Hrange.
  rewrite (take_idx_length _ _ _ Hamps) in Hrange.
  rewrite last_lookup in Hlast.
  pose proof (NoDup_lookup _ _ _ _ (increasing_NoDup _ Hinc) Hkl Hlast). lia.
Qed.

Lemma outliers_drop_last_witness : 15 ∉ [1; 3; 5; 7; 9; 11; 14].
Proof.
  apply (outliers_drop_last breaths [1; 3; 5; 7; 9; 11; 13; 14; 15] (Q2Qc (3 # 10))
           [1; 3; 5; 7; 9; 11; 14] (Q2Qc <$> [2; -2; 2; -1; 3; -2; 2]%Q)).
  - unfold increasing. repeat constructor; lia.
  - vm_compute. reflexivity.
  - reflexivity.
Defined.

(** ** A larger [amplitude_min] removes more *)

Lemma sorted_default_nonneg (a : list Qc) k :
  Forall (λ x, (0 ≤ x)%Qc) a →
  (0 ≤ default 0%Qc (merge_sort Qcle a !! k))%Qc.
Proof.
  intros Hall. destruct (merge_sort Qcle a !! k) as [x|] eqn:Hk; simpl.
  - apply list_elem_of_lookup_2 in Hk. rewrite merge_sort_Permutation in Hk.
    rewrite Forall_forall in Hall. by apply Hall.
  - apply Qcle_refl.
Qed.

Lemma np_median_nonneg (a : list Qc) :
  Forall (λ x, (0 ≤ x)%Qc) a → (0 ≤ np_median a)%Qc.
Proof.
  intros Hall. unfold np_median. case_decide; [apply Qcle_refl|].
  destruct (Nat.odd (length a)); [by apply sorted_default_nonneg|].
  unfold Qcdiv. apply Qcmult_nonneg_nonneg.
  - apply Qcplus_nonneg_nonneg; by apply sorted_default_nonneg.
  - by vm_compute.
Qed.

Lemma where_from_mono i (m m' : list bool) :
  Forall2 (λ b b', b = true → b' = true) m m' →
  where_from i m `sublist_of` where_from i m'.
Proof.
  intros H. revert i. induction H as [|b b' m m' Hb _ IH]; intros i; [done|].
  simpl. destruct b.
  - rewrite Hb by done. apply sublist_skip, IH.
  - destruct b'; [apply sublist_cons|]; apply IH.
Qed.

Lemma take_idx_sublist {A} (a : list A) idx idx' k k' :
  idx `sublist_of` idx' → take_idx a idx = Ok k → take_idx a idx' = Ok k' →
  k `sublist_of` k'.
Proof.
  rewrite !take_idx_Ok. intros Hsub. revert k k'.
  induction Hsub as [|i idx idx' _ IH|i idx idx' _ IH]; intros k k' Hk Hk'.
  - apply Forall2_nil_inv_l in Hk as ->. apply sublist_nil_l.
  - apply Forall2_cons_inv_l in Hk as (x & k0 & Hx & Hk0 & ->).
    apply Forall2_cons_inv_l in Hk' as (x' & k0' & Hx' & Hk0' & ->).
    simplify_eq. apply sublist_skip. by apply IH.
  - apply Forall2_cons_inv_l in Hk' as (x' & k0' & Hx' & Hk0' & ->).
    apply sublist_cons. by apply IH.
Qed.

Lemma min_diff_mono (amps : list Qc) (amin amin' : Qc) :
  (amin ≤ amin')%Qc → min_diff amps amin' `sublist_of` min_diff amps amin.
Proof.
  intros Hle. unfold min_diff. apply where_from_mono.
  apply Forall2_fmap, Forall_Forall2_diag, Forall_forall. intros d _.
  rewrite !bool_decide_eq_true. apply Qcle_lt_trans.
  apply Qcmult_le_mono_nonneg_l; [|done].
  apply np_median_nonneg, Forall_fmap, Forall_forall. intros x _.
  apply Qcabs_nonneg.
Qed.

(** X8.  The amplitude test is monotone in [amplitude_min]: what it keeps
    for a threshold is, in the same order, among what it keeps for any
    smaller one. *)
Theorem amplitude_filter_monotone (s : list Qc) (ex : list nat)
    (amplitude_min amplitude_min' : Qc) (ex1 ex2 : list nat) :
  (amplitude_min ≤ amplitude_min')%Qc →
  amplitude_filter s ex amplitude_min = Ok ex1 →
  amplitude_filter s ex amplitude_min' = Ok ex2 →
  ex2 `sublist_of` ex1.
Proof.
  intros Hle (amps & Hamps & Hex1)%amplitude_filter_Ok
             (amps' & Hamps' & Hex2)%amplitude_filter_Ok.
  rewrite Hamps in Hamps'. injection Hamps' as <-.
  eapply take_idx_sublist; [|done..]. by apply min_diff_mono.
Qed.

Lemma amplitude_filter_monotone_witness :
  [1; 3; 7; 9; 11] `sublist_of` [1; 3; 5; 7; 9; 11; 14].
Proof.
  apply (amplitude_filter_monotone breaths [1; 3; 5; 7; 9; 11; 13; 14; 15]
           (Q2Qc (3 # 10)) (Q2Qc (9 # 10))).
  - by vm_compute.
  - vm_compute. reflexivity.
  - vm_compute. reflexivity.
Defined.

(** ** What the alternation repair achieves *)

Lemma lookup_past {A} (l1 l2 : list A) i : (l1 ++ l2) !! (length l1 + i) = l2 !! i.
Proof. by induction l1. Qed.

Lemma elem_of_removeext (amps : list Qc) j :
  j ∈ removeext amps ↔
  ∃ k a b c, j = S k ∧ amps !! k = Some a ∧ amps !! S k = Some b ∧
             amps !! S (S k) = Some c ∧ (sign (b - a) + sign (c - b))%Z ≠ 0%Z.
Proof.
  unfold removeext, np_sign. rewrite list_elem_of_fmap.
  setoid_rewrite elem_of_np_where. setoid_rewrite list_lookup_fmap_Some. split.
  - intros (k & -> & d & Hd & (d1 & d2 & -> & [Hd1 _]%lookup_but_last & Hd2)%lookup_zip_with_Some).
    rewrite lookup_from_1 in Hd2.
    apply list_lookup_fmap_Some in Hd1 as (? & -> & (a & b & Ha & Hb & ->)%lookup_np_diff).
    apply list_lookup_fmap_Some in Hd2 as (? & -> & (b' & c & Hb' & Hc & ->)%lookup_np_diff).
    simplify_eq. symmetry in Hd. apply bool_decide_eq_true in Hd.
    exists k, a, b, c. split; [lia | done].
  - intros (k & a & b & c & -> & Ha & Hb & Hc & Hsum). exists k. split; [lia|].
    exists (sign (b - a) + sign (c - b))%Z.
    split; [symmetry; by apply bool_decide_eq_true|].
    apply lookup_zip_with_Some. exists (sign (b - a)), (sign (c - b)).
    split; [done|]. split.
    + apply lookup_but_last. split.
      * apply list_lookup_fmap_Some. eexists. split; [done|].
        apply lookup_np_diff. eauto.
      * rewrite length_fmap, length_np_diff. apply lookup_lt_Some in Hc. lia.
    + rewrite lookup_from_1. apply list_lookup_fmap_Some. eexists.
      split; [done|]. apply lookup_np_diff. eauto.
Qed.

Lemma removeext_middle (pre : list Qc) (prev x y : Qc) (rest : list Qc) :
  S (length pre) ∈ removeext (pre ++ prev :: x :: y :: rest) ↔
  (sign (x - prev) + sign (y - x))%Z ≠ 0%Z.
Proof.
  rewrite elem_of_removeext. split.
  - intros (k & a & b & c & [= <-] & Ha & Hb & Hc & Hsum).
    replace (length pre) with (length pre + 0) in Ha by lia.
    replace (S (length pre)) with (length pre + 1) in Hb by lia.
    replace (S (S (length pre))) with (length pre + 2) in Hc by lia.
    rewrite lookup_past in Ha, Hb, Hc. simpl in Ha, Hb, Hc. by simplify_eq.
  - intros Hsum. exists (length pre), prev, x, y. split; [done|].
    replace (length pre) with (length pre + 0) at 1 by lia.
    replace (S (length pre)) with (length pre + 1) by lia.
    replace (S (length pre + 1)) with (length pre + 2) by lia.
    by rewrite !lookup_past.
Qed.

Lemma removeext_last (amps : list Qc) j :
  j ∈ removeext amps → S j < length amps.
Proof.
  intros Hj. pose proof (removeext_in_range amps) as Hr.
  rewrite Forall_forall in Hr. by apply Hr.
Qed.

Lemma removeext_first (amps : list Qc) : 0 ∉ removeext amps.
Proof. by intros (k & ? & ? & ? & ? & _)%elem_of_removeext. Qed.

Lemma alternates_swap_head (up : bool) (prev x : Qc) (l : list Qc) :
  alternates up (x :: l) = true →
  (if up then prev < x else x < prev)%Qc →
  alternates up (prev :: l) = true.
Proof.
  destruct l as [|h l]; [done|]. cbn [alternates].
  intros [Hxh ->]%andb_true_iff Hpx. rewrite andb_true_r.
  destruct up; apply bool_decide_eq_true in Hxh; apply bool_decide_eq_true;
    by eapply Qclt_trans.
Qed.

Lemma sign_sum (prev x y : Qc) (up : bool) :
  (if up then prev < x else x < prev)%Qc → x ≠ y →
  ((sign (x - prev) + sign (y - x))%Z ≠ 0%Z ∧ (if up then x < y else y < x)%Qc) ∨
  ((sign (x - prev) + sign (y - x))%Z = 0%Z ∧ (if up then y < x else x < y)%Qc).
Proof.
  intros Hpx Hxy. destruct (Qc_dec x y) as [[Hlt|Hgt]|Heq]; [| |done].
  - rewrite (sign_up _ _ Hlt). destruct up.
    + rewrite (sign_up _ _ Hpx). left. by split.
    + rewrite (sign_down _ _ Hpx). right. by split.
  - rewrite (sign_down _ _ Hgt). destruct up.
    + rewrite (sign_up _ _ Hpx). right. by split.
    + rewrite (sign_down _ _ Hpx). left. by split.
Qed.

(** The repair, read from left to right: [prev] is the amplitude before the
    rest [l], and [up] the direction in which [l] sets out from it. *)
Lemma repair_alternates (amps : list Qc) :
  (∀ k a b, amps !! k = Some a → amps !! S k = Some b → a ≠ b) →
  ∀ (l pre : list Qc) (prev : Qc) (up : bool),
    amps = pre ++ prev :: l →
    match l return Prop with
    | [] => True
    | x :: _ => (if up then prev < x else x < prev)%Qc
    end →
    alternates up (prev :: delete_from (S (length pre)) (removeext amps) l) = true.
Proof.
  intros Hne l. induction l as [|x l IH]; intros pre prev up Hamps Hdir; [done|].
  cbn [delete_from].
  assert (amps = (pre ++ [prev]) ++ x :: l) as Hamps'
    by by rewrite <- app_assoc.
  assert (S (length pre) = length (pre ++ [prev])) as Hlen
    by (rewrite length_app; simpl; lia).
  destruct l as [|y l].
  - rewrite bool_decide_eq_false_2.
    + cbn [delete_from alternates]. rewrite andb_true_r.
      destruct up; by apply bool_decide_eq_true.
    + intros Hin%removeext_last. rewrite Hamps, length_app in Hin.
      simpl in Hin. lia.
  - assert (x ≠ y) as Hxy.
    { apply (Hne (S (length pre))).
      - rewrite Hamps. replace (S (length pre)) with (length pre + 1) by lia.
        by rewrite lookup_past.
      - rewrite Hamps. replace (S (S (length pre))) with (length pre + 2) by lia.
        by rewrite lookup_past. }
    destruct (sign_sum prev x y up Hdir Hxy) as [[Hsum Hsame]|[Hsum Hturn]].
    + rewrite bool_decide_eq_true_2
        by (rewrite Hamps; by apply removeext_middle).
      apply alternates_swap_head with x; [|done].
      rewrite Hlen. by apply IH.
    + rewrite bool_decide_eq_false_2
        by (rewrite Hamps at 1; rewrite removeext_middle; by intros []).
      cbn [alternates]. apply andb_true_iff. split.
      * destruct up; by apply bool_decide_eq_true.
      * rewrite Hlen. apply IH; [done|]. by destruct up.
Qed.

Lemma delete_from_app {A} i obj (l1 l2 : list A) :
  delete_from i obj (l1 ++ l2)
  = delete_from i obj l1 ++ delete_from (i + length l1) obj l2.
Proof.
  revert i. induction l1 as [|x l1 IH]; intros i; cbn [delete_from app length].
  { by rewrite Nat.add_0_r. }
  rewrite IH. replace (S i + length l1) with (i + S (length l1)) by lia.
  by case_bool_decide.
Qed.

Lemma delete_from_keeps_head {A} obj (l : list A) :
  0 ∉ obj → head (delete_from 0 obj l) = head l.
Proof.
  intros H0. destruct l as [|x l]; [done|]. cbn [delete_from].
  by rewrite bool_decide_eq_false_2.
Qed.

Lemma delete_from_keeps_last {A} obj (l : list A) :
  (∀ j, j ∈ obj → S j < length l) →
  last (delete_from 0 obj l) = last l.
Proof.
  intros Hrange. destruct (last l) as [z|] eqn:Hlast.
  - apply last_Some in Hlast as [l1 ->]. rewrite delete_from_app.
    cbn [delete_from]. rewrite bool_decide_eq_false_2; [by rewrite last_snoc|].
    intros Hin%Hrange. rewrite length_app in Hin. simpl in Hin. lia.
  - apply last_None in Hlast as ->. done.
Qed.

(** Without level neighbours, what the repair leaves alternates. *)
Lemma repair_alternating (amps : list Qc) :
  (∀ k a b, amps !! k = Some a → amps !! S k = Some b → a ≠ b) →
  ∃ up, alternates up (delete_from 0 (removeext amps) amps) = true.
Proof.
  intros Hne. destruct amps as [|a0 l]; [by exists true|].
  cbn [delete_from].
  rewrite bool_decide_eq_false_2 by apply removeext_first.
  destruct l as [|x l]; [by exists true|].
  assert (a0 ≠ x) as Hax by by apply (Hne 0).
  destruct (Qc_dec a0 x) as [[Hlt|Hgt]|Heq]; [| |done].
  - exists true. by apply (repair_alternates _ Hne (x :: l) [] a0 true).
  - exists false. by apply (repair_alternates _ Hne (x :: l) [] a0 false).
Qed.

(** X9.  When no two neighbouring extrema have the same amplitude, the
    alternation repair leaves amplitudes that strictly alternate: each goes
    up from the one before and down to the next, or the reverse, so every
    inner one is a strict local maximum or minimum of the sequence.  The
    first and the last extremum are kept. *)
Theorem alternation_repair_alternates (s : list Qc) (ex : list nat)
    (amps : list Qc) (ex' : list nat) (amps' : list Qc) :
  take_idx s ex = Ok amps →
  (∀ k a b, amps !! k = Some a → amps !! S k = Some b → a ≠ b) →
  alternation_repair s ex = Ok (ex', amps') →
  (∃ up, alternates up amps' = true) ∧
  zigzag amps' ∧
  Forall2 (λ e a, s !! e = Some a) ex' amps' ∧
  head ex' = head ex ∧ last ex' = last ex.
Proof.
  intros Hamps Hne (amps0 & Hamps0 & Hdex & Hdamps)%alternation_repair_Ok.
  rewrite Hamps in Hamps0. injection Hamps0 as <-.
  pose proof (take_idx_length _ _ _ Hamps) as Hlen.
  assert (∃ up, alternates up amps' = true) as [up Hup].
  { unfold np_delete in Hdamps. destruct (forallb _ _); [|done].
    injection Hdamps as <-. by apply repair_alternating. }
  split; [by exists up|]. split; [by apply alternates_zigzag with up|].
  split.
  { apply take_idx_Ok in Hamps. by eapply np_delete_Forall2. }
  unfold np_delete in Hdex. destruct (forallb _ _); [|done].
  injection Hdex as <-. split.
  - apply delete_from_keeps_head, removeext_first.
  - apply delete_from_keeps_last. intros j Hj%removeext_last. lia.
Qed.

Lemma alternation_repair_alternates_witness :
  (∃ up, alternates up (Q2Qc <$> [-2; 5; -5; 7; -7; 9]%Q) = true) ∧
  zigzag (Q2Qc <$> [-2; 5; -5; 7; -7; 9]%Q) ∧
  Forall2 (λ e a, distinct_breaths !! e = Some a)
    [4; 5; 7; 9; 11; 13] (Q2Qc <$> [-2; 5; -5; 7; -7; 9]%Q) ∧
  head [4; 5; 7; 9; 11; 13] = head [4; 5; 6; 7; 9; 11; 13] ∧
  last [4; 5; 7; 9; 11; 13] = last [4; 5; 6; 7; 9; 11; 13].
Proof.
  apply (alternation_repair_alternates distinct_breaths [4; 5; 6; 7; 9; 11; 13]
           (Q2Qc <$> [-2; 5; 4; -5; 7; -7; 9]%Q)).
  - vm_compute. reflexivity.
  - intros k a b Ha Hb ->.
    do 7 (destruct k as [|k]; [vm_compute in Ha, Hb; by simplify_eq|]).
    done.
  - vm_compute. reflexivity.
Defined.

(** ** What the sanitizer achieves *)

Lemma delete_from_none {A} i obj (l : list A) :
  (∀ j, j ∈ obj → j < i) → delete_from i obj l = l.
Proof.
  revert i. induction l as [|x l IH]; intros i Hobj; cbn [delete_from]; [done|].
  rewrite bool_decide_eq_false_2 by (intros Hi%Hobj; lia).
  rewrite IH; [done|]. intros j Hj%Hobj. lia.
Qed.

Lemma np_delete_first {A} (a : list A) :
  a ≠ [] → np_delete a [0] = Ok (drop 1 a).
Proof.
  destruct a as [|x a]; [done|]. intros _.
  rewrite np_delete_is_Ok by (constructor; [simpl; lia | constructor]).
  cbn [delete_from]. rewrite bool_decide_eq_true_2 by left.
  rewrite delete_from_none; [done|]. intros j ->%list_elem_of_singleton. lia.
Qed.

Lemma sanitize_trim (ex : list nat) (amps : list Qc) :
  length ex = length amps → 2 ≤ length amps →
  _rsp_findpeaks_sanitize ex amps
  = Ok (peaks_of (trim_by amps ex), troughs_of (trim_by amps ex)).
Proof.
  intros Hlen Hn. unfold _rsp_findpeaks_sanitize, trim_by, getitem_neg, getitem.
  destruct (lookup_lt_is_Some_2 amps (length amps - 1)) as [z1 Hz1]; [lia|].
  destruct (lookup_lt_is_Some_2 amps (length amps - 2)) as [z2 Hz2]; [lia|].
  rewrite last_lookup. replace (Init.Nat.pred (length amps)) with (length amps - 1) by lia.
  rewrite !decide_True by lia. rewrite Hz1, Hz2.
  destruct amps as [|a0 [|a1 amps]]; [simpl in Hn; lia..|].
  cbn [lookup list_lookup mbind result_bind]. simpl.
  assert (ex ≠ []) as Hex by (intros ->; done).
  destruct (bool_decide (a1 < a0)%Qc); simpl.
  - rewrite np_delete_first by done. simpl.
    destruct (bool_decide (z1 < z2)%Qc); simpl; [|done].
    rewrite np_delete_last_Ok; [done|].
    intros Hnil%(f_equal length). rewrite length_drop in Hnil.
    simpl in Hlen, Hnil. lia.
  - destruct (bool_decide (z1 < z2)%Qc); simpl; [|done].
    by rewrite np_delete_last_Ok.
Qed.

Lemma trim_by_sublist {A} (amps : list Qc) (l : list A) :
  trim_by amps l `sublist_of` l ∧ length l - 2 ≤ length (trim_by amps l).
Proof.
  unfold trim_by.
  set (l1 := match amps with
             | a0 :: a1 :: _ => if bool_decide (a1 < a0)%Qc then drop 1 l else l
             | _ => l
             end).
  assert (l1 `sublist_of` l ∧ length l - 1 ≤ length l1) as [Hs1 Hl1].
  { unfold l1. destruct amps as [|a0 [|a1 amps]];
      [split; [reflexivity | lia]..|].
    case_bool_decide; [|split; [reflexivity | lia]].
    split; [apply sublist_drop|]. rewrite length_drop. lia. }
  assert (but_last l1 `sublist_of` l ∧ length l - 2 ≤ length (but_last l1)) as [??].
  { split; [etrans; [apply sublist_take | done]|]. rewrite length_but_last. lia. }
  assert (length l - 2 ≤ length l1) by lia.
  destruct (last amps), (amps !! (length amps - 2)); try done.
  by case_bool_decide.
Qed.

Lemma trim_by_Forall2 {A} (P : A → Qc → Prop) (amps : list Qc) (l : list A) :
  Forall2 P l amps → Forall2 P (trim_by amps l) (trim_by amps amps).
Proof.
  intros HP. unfold trim_by.
  set (l1 := match amps with
             | a0 :: a1 :: _ => if bool_decide (a1 < a0)%Qc then drop 1 l else l
             | _ => l
             end).
  set (m1 := match amps with
             | a0 :: a1 :: _ => if bool_decide (a1 < a0)%Qc then drop 1 amps else amps
             | _ => amps
             end).
  assert (Forall2 P l1 m1) as H1.
  { unfold l1, m1. destruct amps as [|a0 [|a1 amps]]; [done..|].
    case_bool_decide; [by apply Forall2_drop | done]. }
  destruct (last amps), (amps !! (length amps - 2)); try done.
  case_bool_decide; [|done]. unfold but_last.
  rewrite (Forall2_length _ _ _ H1). by apply Forall2_take.
Qed.

Lemma trim_by_alternates (up : bool) (amps : list Qc) :
  alternates up amps = true → alternates true (trim_by amps amps) = true.
Proof.
  intros Halt. unfold trim_by.
  set (m1 := match amps with
             | a0 :: a1 :: _ => if bool_decide (a1 < a0)%Qc then drop 1 amps else amps
             | _ => amps
             end).
  assert (alternates true m1 = true) as H1.
  { unfold m1. destruct amps as [|a0 [|a1 amps]]; [done..|].
    cbn [alternates] in Halt. apply andb_true_iff in Halt as [Hdir Hrest].
    destruct up; apply bool_decide_eq_true in Hdir.
    - rewrite bool_decide_eq_false_2 by (intros ?; by eapply Qclt_asym).
      cbn [alternates]. rewrite Hrest. by rewrite bool_decide_eq_true_2.
    - by rewrite bool_decide_eq_true_2. }
  destruct (last amps), (amps !! (length amps - 2)); try done.
  case_bool_decide; [|done]. by apply alternates_take.
Qed.

Lemma lookup_troughs_of (e : list nat) k t :
  troughs_of e !! k = Some t → e !! (2 * k) = Some t ∧ 2 * k + 1 < length e.
Proof.
  revert k. induction e as [| |x y l IH] using pair_induction; intros k; [done..|].
  rewrite troughs_of_cons2. destruct k as [|k]; simpl.
  - intros [= <-]. split; [done | lia].
  - intros [H1 H2]%IH. replace (k + S (k + 0)) with (S (2 * k)) by lia.
    split; [done|lia].
Qed.

Lemma lookup_peaks_of (e : list nat) k p :
  peaks_of e !! k = Some p → e !! (2 * k + 1) = Some p.
Proof.
  revert k. induction e as [| |x y l IH] using pair_induction; intros k; [done..|].
  rewrite peaks_of_cons2. destruct k as [|k]; simpl.
  - by intros [= <-].
  - intros H%IH. by replace (k + S (k + 0) + 1) with (S (2 * k + 1)) by lia.
Qed.

(** X10.  Given as many extrema as amplitudes, and at least two, the
    sanitizer returns: as many peaks as troughs, all of them among the
    extrema it was given, and all but at most three of those. *)
Theorem sanitize_returns (ex : list nat) (amps : list Qc) :
  length ex = length amps → 2 ≤ length amps →
  ∃ peaks troughs,
    _rsp_findpeaks_sanitize ex amps = Ok (peaks, troughs) ∧
    length peaks = length troughs ∧
    peaks ⊆ ex ∧ troughs ⊆ ex ∧
    length ex ≤ 2 * length peaks + 3.
Proof.
  intros Hlen Hn. exists (peaks_of (trim_by amps ex)), (troughs_of (trim_by amps ex)).
  split; [by apply sanitize_trim|].
  destruct (length_troughs_peaks (trim_by amps ex)) as [Ht Hp].
  destruct (trim_by_sublist amps ex) as [Hsub Hshort].
  split; [lia|]. split; [|split].
  - etrans; [apply peaks_of_subseteq | by apply sublist_subseteq].
  - etrans; [apply troughs_of_subseteq | by apply sublist_subseteq].
  - rewrite Hp. pose proof (Nat.div_mod_eq (length (trim_by amps ex)) 2).
    pose proof (Nat.mod_upper_bound (length (trim_by amps ex)) 2). lia.
Qed.

Lemma sanitize_returns_witness :
  ∃ peaks troughs,
    _rsp_findpeaks_sanitize [1; 3; 5; 7; 9; 11; 14]
      (Q2Qc <$> [2; -2; 2; -1; 3; -2; 2]%Q) = Ok (peaks, troughs) ∧
    length peaks = length troughs ∧
    peaks ⊆ [1; 3; 5; 7; 9; 11; 14] ∧ troughs ⊆ [1; 3; 5; 7; 9; 11; 14] ∧
    length [1; 3; 5; 7; 9; 11; 14] ≤ 2 * length peaks + 3.
Proof.
  apply (sanitize_returns [1; 3; 5; 7; 9; 11; 14]
           (Q2Qc <$> [2; -2; 2; -1; 3; -2; 2]%Q)).
  - reflexivity.
  - simpl. lia.
Defined.

Lemma alternating_order (s : list Qc) (e : list nat) (amps : list Qc) :
  Forall2 (λ x a, s !! x = Some a) e amps → alternates true amps = true →
  (∀ k t p, troughs_of e !! k = Some t → peaks_of e !! k = Some p →
     ∃ vt vp, s !! t = Some vt ∧ s !! p = Some vp ∧ (vt < vp)%Qc) ∧
  (∀ k p t, peaks_of e !! k = Some p → troughs_of e !! S k = Some t →
     ∃ vp vt, s !! p = Some vp ∧ s !! t = Some vt ∧ (vt < vp)%Qc).
Proof.
  intros HF Halt. split.
  - intros k t p [Ht _]%lookup_troughs_of Hp%lookup_peaks_of.
    destruct (Forall2_lookup_l _ _ _ _ _ HF Ht) as (vt & Hvt & Hst).
    destruct (Forall2_lookup_l _ _ _ _ _ HF Hp) as (vp & Hvp & Hsp).
    exists vt, vp. do 2 (split; [done|]).
    replace (2 * k + 1) with (S (2 * k)) in Hvp by lia.
    pose proof (alternates_lookup _ _ _ _ _ Halt Hvt Hvp) as H.
    replace (Nat.even (2 * k)) with true in H; [done|].
    symmetry. apply Nat.even_spec. by exists k.
  - intros k p t Hp%lookup_peaks_of [Ht _]%lookup_troughs_of.
    destruct (Forall2_lookup_l _ _ _ _ _ HF Hp) as (vp & Hvp & Hsp).
    destruct (Forall2_lookup_l _ _ _ _ _ HF Ht) as (vt & Hvt & Hst).
    exists vp, vt. do 2 (split; [done|]).
    replace (2 * S k) with (S (2 * k + 1)) in Hvt by lia.
    pose proof (alternates_lookup _ _ _ _ _ Halt Hvp Hvt) as H.
    replace (Nat.even (2 * k + 1)) with false in H; [done|].
    symmetry. replace (2 * k + 1) with (S (2 * k)) by lia.
    rewrite Nat.even_succ, <- Nat.negb_even.
    replace (Nat.even (2 * k)) with true; [done|].
    symmetry. apply Nat.even_spec. by exists k.
Qed.

(** X11.  On extrema whose amplitudes strictly alternate, the peaks and
    troughs the sanitizer returns are peaks and troughs of the signal's
    samples: every trough is lower than the peak of the same rank, which
    comes after it, and every peak is higher than the trough that follows. *)
Theorem sanitize_orders (s : list Qc) (ex : list nat) (amps : list Qc)
    (up : bool) (peaks troughs : list nat) :
  Forall2 (λ e a, s !! e = Some a) ex amps →
  alternates up amps = true →
  _rsp_findpeaks_sanitize ex amps = Ok (peaks, troughs) →
  (∀ k t p, troughs !! k = Some t → peaks !! k = Some p →
     ∃ vt vp, s !! t = Some vt ∧ s !! p = Some vp ∧ (vt < vp)%Qc) ∧
  (∀ k p t, peaks !! k = Some p → troughs !! S k = Some t →
     ∃ vp vt, s !! p = Some vp ∧ s !! t = Some vt ∧ (vt < vp)%Qc).
Proof.
  intros HF Halt Hsan.
  assert (2 ≤ length amps) as Hn.
  { destruct (decide (2 ≤ length amps)) as [|Hshort]; [done|].
    rewrite sanitize_short in Hsan by lia. done. }
  rewrite sanitize_trim in Hsan by (by rewrite ?(Forall2_length _ _ _ HF)).
  injection Hsan as <- <-.
  apply (alternating_order s _ (trim_by amps amps)).
  - by apply trim_by_Forall2.
  - by apply trim_by_alternates with up.
Qed.

Lemma sanitize_orders_witness :
  (∀ k t p, [3; 7; 11] !! k = Some t → [5; 9; 14] !! k = Some p →
     ∃ vt vp, breaths !! t = Some vt ∧ breaths !! p = Some vp ∧ (vt < vp)%Qc) ∧
  (∀ k p t, [5; 9; 14] !! k = Some p → [3; 7; 11] !! S k = Some t →
     ∃ vp vt, breaths !! p = Some vp ∧ breaths !! t = Some vt ∧ (vt < vp)%Qc).
Proof.
  apply (sanitize_orders breaths [1; 3; 5; 7; 9; 11; 14]
           (Q2Qc <$> [2; -2; 2; -1; 3; -2; 2]%Q) false).
  - repeat constructor.
  - vm_compute. reflexivity.
  - vm_compute. reflexivity.
Defined.

(** ** The khodadad2018 pipeline as a whole *)

Lemma outliers_is_Ok (s : list Qc) (ex : list nat) (amin : Qc) :
  Forall (λ e, e < length s) ex →
  ∃ ex' amps', _rsp_findpeaks_outliers s ex amin = Ok (ex', amps').
Proof.
  intros Hrange.
  destruct (amplitude_filter_is_Ok s ex amin Hrange) as (ex1 & Hex1 & Hrange1 & _).
  destruct (alternation_repair_is_Ok s ex1 Hrange1) as (ex' & amps' & Hrep).
  exists ex', amps'. apply outliers_Ok. eauto.
Qed.

Lemma extrema_raises (s : list Qc) :
  risex s = [] ∨ fallx s = [] →
  _rsp_findpeaks_extrema s = Raise IndexError [in_extrema].
Proof.
  intros Hnil. unfold _rsp_findpeaks_extrema.
  destruct Hnil as [-> | ->]; [done|]. by destruct (risex s).
Qed.

(** X12.  The khodadad2018 pipeline has three outcomes and no other: it
    returns; or the signal lacks a rising or a falling crossing and the
    locator raises an IndexError; or locator and outlier filter return,
    fewer than two extrema are left, and the sanitizer raises an IndexError.
    The outlier filter never raises in the pipeline, no window is empty, and
    [startx] is never unbound. *)
Theorem khodadad_outcomes (s : list Qc) (amplitude_min : Qc) :
  (∃ i, _rsp_findpeaks_khodadad s amplitude_min = Ok i) ∨
  (_rsp_findpeaks_khodadad s amplitude_min
     = Raise IndexError [in_khodadad; in_extrema] ∧
   ((∀ i, ¬ rising_crossing s i) ∨ (∀ i, ¬ falling_crossing s i))) ∨
  (_rsp_findpeaks_khodadad s amplitude_min
     = Raise IndexError [in_khodadad; in_sanitize] ∧
   ∃ ex ex' amps',
     _rsp_findpeaks_extrema s = Ok ex ∧
     _rsp_findpeaks_outliers s ex amplitude_min = Ok (ex', amps') ∧
     length ex' < 2).
Proof.
  destruct (decide (risex s = [])) as [Hr|Hr].
  { right. left. split; [|left; by apply risex_nil].
    unfold _rsp_findpeaks_khodadad. by rewrite extrema_raises by by left. }
  destruct (decide (fallx s = [])) as [Hf|Hf].
  { right. left. split; [|right; by apply fallx_nil].
    unfold _rsp_findpeaks_khodadad. by rewrite extrema_raises by by right. }
  destruct (extrema_is_Ok s Hr Hf) as [ex Hex].
  destruct (outliers_is_Ok s ex amplitude_min (extrema_in_range _ _ Hex))
    as (ex' & amps' & Hout).
  pose proof (outliers_lengths _ _ _ _ _ Hout) as Hlen.
  destruct (decide (2 ≤ length ex')) as [Hn|Hn].
  - left. exists (Info (peaks_of (trim_by amps' ex')) (troughs_of (trim_by amps' ex'))).
    apply khodadad_Ok. exists ex, ex', amps'. do 2 (split; [done|]).
    apply sanitize_trim; lia.
  - right. right. split; [|exists ex, ex', amps'; split; [done|]; split; [done|lia]].
    unfold _rsp_findpeaks_khodadad. rewrite Hex. simpl. rewrite Hout. simpl.
    by rewrite sanitize_short by lia.
Qed.

Lemma distinct_samples_distinct_amplitudes (s : list Qc) (ex : list nat)
    (amps : list Qc) :
  NoDup s → increasing ex → take_idx s ex = Ok amps →
  ∀ k a b, amps !! k = Some a → amps !! S k = Some b → a ≠ b.
Proof.
  intros Hnd Hinc Hamps%take_idx_Ok k a b Ha Hb ->.
  destruct (Forall2_lookup_r _ _ _ _ _ Hamps Ha) as (e & He & Hse).
  destruct (Forall2_lookup_r _ _ _ _ _ Hamps Hb) as (e' & He' & Hse').
  pose proof (NoDup_lookup _ _ _ _ Hnd Hse Hse') as ->.
  pose proof (proj1 (increasing_lookup _) Hinc k (S k) _ _ He He'). lia.
Qed.

(** X13.  On a signal in which no two samples are equal, whatever the
    khodadad2018 pipeline returns are peaks and troughs by amplitude: every
    trough is strictly lower than the peak of the same rank, and every peak
    strictly higher than the trough that follows it. *)
Theorem khodadad_orders (s : list Qc) (amplitude_min : Qc) (i : info) :
  NoDup s →
  _rsp_findpeaks_khodadad s amplitude_min = Ok i →
  (∀ k t p, RSP_Troughs i !! k = Some t → RSP_Peaks i !! k = Some p →
     ∃ vt vp, s !! t = Some vt ∧ s !! p = Some vp ∧ (vt < vp)%Qc) ∧
  (∀ k p t, RSP_Peaks i !! k = Some p → RSP_Troughs i !! S k = Some t →
     ∃ vp vt, s !! p = Some vp ∧ s !! t = Some vt ∧ (vt < vp)%Qc).
Proof.
  intros Hnd (ex & ex' & amps' & Hex & Hout & Hsan)%khodadad_Ok.
  pose proof (outliers_lengths _ _ _ _ _ Hout) as Hlen.
  apply outliers_Ok in Hout as (ex1 & Hex1 & Hrep).
  assert (increasing ex1) as Hinc1.
  { apply amplitude_filter_Ok in Hex1 as (amps & _ & Hsel).
    eapply take_idx_increasing; [by eapply extrema_increasing | | done].
    apply np_where_increasing. }
  apply alternation_repair_Ok in Hrep as (amps1 & Hamps1 & Hdex & Hdamps).
  pose proof (distinct_samples_distinct_amplitudes _ _ _ Hnd Hinc1 Hamps1) as Hne.
  assert (Forall2 (λ e a, s !! e = Some a) ex' amps') as HF.
  { apply take_idx_Ok in Hamps1. by eapply np_delete_Forall2. }
  assert (∃ up, alternates up amps' = true) as [up Hup].
  { unfold np_delete in Hdamps. destruct (forallb _ _); [|done].
    injection Hdamps as <-. by apply repair_alternating. }
  assert (2 ≤ length amps') as Hn.
  { destruct (decide (2 ≤ length amps')) as [|Hshort]; [done|].
    rewrite sanitize_short in Hsan by lia. done. }
  rewrite sanitize_trim in Hsan by lia. injection Hsan as Hp Ht.
  rewrite <- Hp, <- Ht. apply (alternating_order s _ (trim_by amps' amps')).
  - by apply trim_by_Forall2.
  - by apply trim_by_alternates with up.
Qed.

Lemma khodadad_orders_witness :
  (∀ k t p, RSP_Troughs (Info [5; 9] [3; 7]) !! k = Some t →
            RSP_Peaks (Info [5; 9] [3; 7]) !! k = Some p →
     ∃ vt vp, distinct_breaths !! t = Some vt ∧
              distinct_breaths !! p = Some vp ∧ (vt < vp)%Qc) ∧
  (∀ k p t, RSP_Peaks (Info [5; 9] [3; 7]) !! k = Some p →
            RSP_Troughs (Info [5; 9] [3; 7]) !! S k = Some t →
     ∃ vp vt, distinct_breaths !! p = Some vp ∧
              distinct_breaths !! t = Some vt ∧ (vt < vp)%Qc).
Proof.
  apply (khodadad_orders distinct_breaths (Q2Qc (3 # 10))).
  - apply (bool_decide_unpack _). vm_compute. reflexivity.
  - vm_compute. reflexivity.
Defined.

(** ** The returned positions *)

Lemma peaks_troughs_disjoint (e : list nat) x :
  increasing e → x ∈ peaks_of e → x ∈ troughs_of e → False.
Proof.
  induction e as [| |a b l IH] using pair_induction;
    [by intros _ ?%elem_of_nil..|].
  rewrite peaks_of_cons2, troughs_of_cons2. intros Hinc.
  apply StronglySorted_inv in Hinc as [Hinc Ha].
  apply Forall_cons in Ha as [Hab Ha].
  apply StronglySorted_inv in Hinc as [Hinc Hb].
  rewrite Forall_forall in Ha, Hb.
  intros [->|Hp]%elem_of_cons [Heq|Ht]%elem_of_cons.
  - lia.
  - apply troughs_of_subseteq, Hb in Ht. lia.
  - subst x. apply peaks_of_subseteq, Ha in Hp. lia.
  - by apply IH.
Qed.

(** X14.  The peaks and the troughs returned by the khodadad2018 pipeline,
    and by the biosppy pipeline, are each strictly increasing, are positions
    of the signal, and have no position in common. *)
Theorem landmarks_are_positions (s : list Qc) (amplitude_min : Qc)
    (sampling_rate : Z) (i : info) :
  _rsp_findpeaks_khodadad s amplitude_min = Ok i ∨
  _rsp_findpeaks_biosppy s sampling_rate = Ok i →
  increasing (RSP_Peaks i) ∧ increasing (RSP_Troughs i) ∧
  Forall (λ p, p < length s) (RSP_Peaks i) ∧
  Forall (λ t, t < length s) (RSP_Troughs i) ∧
  (∀ x, x ∈ RSP_Peaks i → x ∉ RSP_Troughs i).
Proof.
  intros Hrun.
  assert (∃ ex e, _rsp_findpeaks_extrema s = Ok ex ∧ increasing e ∧ e ⊆ ex ∧
                  RSP_Peaks i `sublist_of` peaks_of e ∧
                  RSP_Troughs i `sublist_of` troughs_of e)
    as (ex & e & Hex & Hinc & Hsub & Hp & Ht).
  { destruct Hrun as [(ex & ex' & amps' & Hex & Hout & Hsan)%khodadad_Ok
                     |(ex & ex' & amps' & pk & tr & Hex & Hout & Hsan & Hpk & Htr)%biosppy_Ok].
    - destruct (sanitized_stages _ _ _ _ _ _ _ Hex Hout Hsan)
        as (e & Hinc & Hsub & -> & ->).
      by exists ex, e.
    - destruct (sanitized_stages _ _ _ _ _ _ _ Hex Hout Hsan)
        as (e & Hinc & Hsub & -> & ->).
      exists ex, e. do 3 (split; [done|]).
      split; by eapply np_delete_Ok_sublist. }
  pose proof (extrema_in_range _ _ Hex) as Hrange.
  rewrite Forall_forall in Hrange.
  split; [by eapply increasing_sublist, peaks_of_increasing|].
  split; [by eapply increasing_sublist, troughs_of_increasing|].
  split; [|split].
  - apply Forall_forall. intros p Hin.
    by apply Hrange, Hsub, peaks_of_subseteq, (sublist_subseteq _ _ Hp).
  - apply Forall_forall. intros t Hin.
    by apply Hrange, Hsub, troughs_of_subseteq, (sublist_subseteq _ _ Ht).
  - intros x Hxp Hxt. apply (peaks_troughs_disjoint e x Hinc).
    + by apply (sublist_subseteq _ _ Hp).
    + by apply (sublist_subseteq _ _ Ht).
Qed.

Lemma landmarks_are_positions_witness :
  increasing (RSP_Peaks (Info [16] [13])) ∧
  increasing (RSP_Troughs (Info [16] [13])) ∧
  Forall (λ p, p < length fast_breaths) (RSP_Peaks (Info [16] [13])) ∧
  Forall (λ t, t < length fast_breaths) (RSP_Troughs (Info [16] [13])) ∧
  (∀ x, x ∈ RSP_Peaks (Info [16] [13]) → x ∉ RSP_Troughs (Info [16] [13])).
Proof.
  apply (landmarks_are_positions fast_breaths 0%Qc 4).
  right. vm_compute. reflexivity.
Defined.

Lemma min_diff_length (amps : list Qc) (amin : Qc) :
  length (min_diff amps amin) ≤ length amps - 1.
Proof.
  pose proof (min_diff_in_range amps amin) as Hr.
  pose proof (increasing_NoDup _ (np_where_increasing
    ((λ d, bool_decide (np_median (np_abs (np_diff amps)) * amin < d)%Qc)
       <$> np_abs (np_diff amps)))) as Hnd.
  fold (min_diff amps amin) in Hnd.
  assert (min_diff amps amin ⊆+ seq 0 (length amps - 1)) as Hsub.
  { apply NoDup_submseteq; [done|]. intros k Hk. apply elem_of_seq.
    rewrite Forall_forall in Hr. specialize (Hr _ Hk). lia. }
  apply submseteq_length in Hsub. by rewrite length_seq in Hsub.
Qed.

Lemma outliers_length_le s ex amin ex' amps' :
  _rsp_findpeaks_outliers s ex amin = Ok (ex', amps') →
  length ex' ≤ length ex - 1.
Proof.
  intros (ex1 & (amps & Hamps & Hex1)%amplitude_filter_Ok
              & (amps1 & _ & Hd%np_delete_Ok_sublist & _)%alternation_repair_Ok)%outliers_Ok.
  apply sublist_length in Hd.
  pose proof (take_idx_length _ _ _ Hex1) as Hlen1.
  pose proof (take_idx_length _ _ _ Hamps) as Hlena.
  pose proof (min_diff_length amps amin). lia.
Qed.

(** X15.  There are at least two more crossings than returned landmarks:
    a signal with n zero crossings gives the khodadad2018 pipeline at most
    (n - 2) / 2 peaks, and as many troughs. *)
Theorem landmark_count_bound (s : list Qc) (amplitude_min : Qc) (i : info) :
  _rsp_findpeaks_khodadad s amplitude_min = Ok i →
  2 * length (RSP_Peaks i) + 2 ≤ length (risex s) + length (fallx s) ∧
  2 * length (RSP_Troughs i) + 2 ≤ length (risex s) + length (fallx s).
Proof.
  intros (ex & ex' & amps' & Hex & Hout & Hsan)%khodadad_Ok.
  pose proof (extrema_length _ _ Hex) as Hlen. rewrite length_allx in Hlen.
  apply extrema_Ok in Hex as (r0 & f0 & Hr0%lookup_lt_Some & Hf0%lookup_lt_Some & _).
  apply outliers_length_le in Hout.
  apply sanitize_Ok in Hsan as (e2 & Hs2%sublist_length & -> & ->).
  destruct (length_troughs_peaks e2) as [-> ->].
  pose proof (Nat.div_mod_eq (length e2) 2). lia.
Qed.

Lemma landmark_count_bound_witness :
  2 * length (RSP_Peaks (Info [5; 9; 14] [3; 7; 11])) + 2
    ≤ length (risex breaths) + length (fallx breaths) ∧
  2 * length (RSP_Troughs (Info [5; 9; 14] [3; 7; 11])) + 2
    ≤ length (risex breaths) + length (fallx breaths).
Proof.
  apply (landmark_count_bound breaths (Q2Qc (3 # 10))).
  vm_compute. reflexivity.
Defined.

(** ** The biosppy pipeline beside the khodadad2018 one *)

Lemma outlier_idcs_in_range (sr : Z) (peaks : list nat) k :
  k ∈ outlier_idcs sr peaks → S k < length peaks.
Proof.
  intros (p & p' & _ & Hp'%lookup_lt_Some & _)%elem_of_outlier_idcs. done.
Qed.

Lemma biosppy_from_sanitized s sr ex ex' amps' peaks troughs :
  _rsp_findpeaks_extrema s = Ok ex →
  _rsp_findpeaks_outliers s ex 0%Qc = Ok (ex', amps') →
  _rsp_findpeaks_sanitize ex' amps' = Ok (peaks, troughs) →
  length peaks = length troughs ∧
  _rsp_findpeaks_biosppy s sr
  = Ok (Info (delete_from 0 (outlier_idcs sr peaks) peaks)
             (delete_from 0 (outlier_idcs sr peaks) troughs)).
Proof.
  intros Hex Hout Hsan.
  destruct (sanitized_stages _ _ _ _ _ _ _ Hex Hout Hsan) as (e & _ & _ & Hp & Ht).
  assert (length peaks = length troughs) as Hlen.
  { destruct (length_troughs_peaks e) as [Hlt Hlp]. by rewrite Hp, Ht, Hlt, Hlp. }
  split; [done|]. apply biosppy_Ok.
  exists ex, ex', amps', peaks, troughs. do 3 (split; [done|]). simpl.
  split; apply np_delete_is_Ok, Forall_forall; intros k Hk%outlier_idcs_in_range; lia.
Qed.

Lemma delete_from_all_but_last {A} i obj (l : list A) :
  (∀ k, i ≤ k → S k < i + length l → k ∈ obj) →
  (∀ k, k ∈ obj → S k < i + length l) →
  delete_from i obj l = option_list (last l).
Proof.
  revert i. induction l as [|x l IH]; intros i Hall Hlast; [done|].
  cbn [delete_from]. destruct l as [|y l].
  - rewrite bool_decide_eq_false_2; [done|].
    intros Hi%Hlast. simpl in Hi. lia.
  - rewrite bool_decide_eq_true_2 by (apply Hall; simpl; lia).
    rewrite IH; [done|..].
    + intros k Hk1 Hk2. apply Hall; simpl in *; lia.
    + intros k Hk%Hlast. simpl in *. lia.
Qed.

Lemma increasing_diff_pos (l : list nat) k p p' :
  increasing l → l !! k = Some p → l !! S k = Some p' → p < p'.
Proof.
  intros Hinc Hp Hp'. apply (proj1 (increasing_lookup l) Hinc k (S k)); [done..|lia].
Qed.

Lemma too_fast_rate_0 (d : Z) : (0 < d)%Z → too_fast 0 d = false.
Proof. intros Hd. unfold too_fast. simpl. apply bool_decide_eq_false_2. lia. Qed.

Lemma too_fast_rate_neg (sr d : Z) : (sr < 0)%Z → (0 < d)%Z → too_fast sr d = true.
Proof.
  intros Hsr Hd. unfold too_fast. rewrite decide_False by lia.
  apply bool_decide_eq_true_2.
  destruct sr as [|p|p]; [lia..|]. destruct d as [|q|q]; [lia| |lia].
  unfold Qclt, Qcdiv, Qcmult, Qcinv, Q2Qc. cbn [this].
  rewrite !Qred_correct. unfold Qlt. simpl. lia.
Qed.

(** X16.  Whenever the khodadad2018 pipeline run with [amplitude_min = 0]
    returns, the biosppy pipeline returns too, whatever the sampling rate.
    Its peaks and troughs are taken, in order, from those of that run, and
    the last peak and the last trough of that run are always among them:
    the rate test never removes the last pair. *)
Theorem biosppy_of_khodadad (s : list Qc) (sampling_rate : Z) (j : info) :
  _rsp_findpeaks_khodadad s 0 = Ok j →
  ∃ i, _rsp_findpeaks_biosppy s sampling_rate = Ok i ∧
       RSP_Peaks i `sublist_of` RSP_Peaks j ∧
       RSP_Troughs i `sublist_of` RSP_Troughs j ∧
       last (RSP_Peaks i) = last (RSP_Peaks j) ∧
       last (RSP_Troughs i) = last (RSP_Troughs j).
Proof.
  intros (ex & ex' & amps' & Hex & Hout & Hsan)%khodadad_Ok.
  destruct j as [pk tr]. simpl in *.
  destruct (biosppy_from_sanitized s sampling_rate _ _ _ _ _ Hex Hout Hsan)
    as [Hlen Hrun].
  eexists. split; [exact Hrun|]. simpl.
  assert (Forall (λ k, k < length pk) (outlier_idcs sampling_rate pk)) as Hin.
  { apply Forall_forall. intros k Hk%outlier_idcs_in_range. lia. }
  split; [by eapply np_delete_Ok_sublist, np_delete_is_Ok|].
  split; [eapply np_delete_Ok_sublist, np_delete_is_Ok; by rewrite <- Hlen|].
  split; apply delete_from_keeps_last; intros k Hk%outlier_idcs_in_range; lia.
Qed.

Lemma biosppy_of_khodadad_witness :
  ∃ i, _rsp_findpeaks_biosppy fast_breaths 4 = Ok i ∧
       RSP_Peaks i `sublist_of` RSP_Peaks (Info [10; 16] [7; 13]) ∧
       RSP_Troughs i `sublist_of` RSP_Troughs (Info [10; 16] [7; 13]) ∧
       last (RSP_Peaks i) = last (RSP_Peaks (Info [10; 16] [7; 13])) ∧
       last (RSP_Troughs i) = last (RSP_Troughs (Info [10; 16] [7; 13])).
Proof.
  apply (biosppy_of_khodadad fast_breaths 4). vm_compute. reflexivity.
Defined.

(** X17.  The rate test divides by the sampling rate as it is given.  At a
    sampling rate of 0 no pair of peaks counts as too fast and the biosppy
    pipeline returns what the khodadad2018 pipeline returns at
    [amplitude_min = 0]; at a negative sampling rate every pair counts as too
    fast and only the last peak and the last trough of that run are
    returned. *)
Theorem biosppy_nonpositive_rate (s : list Qc) (sampling_rate : Z) (j : info) :
  (sampling_rate ≤ 0)%Z →
  _rsp_findpeaks_khodadad s 0 = Ok j →
  _rsp_findpeaks_biosppy s sampling_rate
  = Ok (if decide (sampling_rate = 0%Z) then j
        else Info (option_list (last (RSP_Peaks j)))
                  (option_list (last (RSP_Troughs j)))).
Proof.
  intros Hsr (ex & ex' & amps' & Hex & Hout & Hsan)%khodadad_Ok.
  destruct j as [pk tr]. simpl in *.
  destruct (biosppy_from_sanitized s sampling_rate _ _ _ _ _ Hex Hout Hsan)
    as [Hlen ->].
  destruct (sanitized_stages _ _ _ _ _ _ _ Hex Hout Hsan) as (e & Hinc & _ & Hp & _).
  assert (increasing pk) as Hpk by (rewrite Hp; by apply peaks_of_increasing).
  do 2 f_equal. case_decide as Hz.
  - subst sampling_rate.
    assert (∀ k, k ∈ outlier_idcs 0 pk → k < 0) as Hnone.
    { intros k (p & p' & Hk & Hk' & Hfast)%elem_of_outlier_idcs.
      pose proof (increasing_diff_pos _ _ _ _ Hpk Hk Hk').
      rewrite too_fast_rate_0 in Hfast by lia. done. }
    by rewrite !delete_from_none.
  - assert (∀ k, S k < length pk → k ∈ outlier_idcs sampling_rate pk) as Hall.
    { intros k Hk. apply elem_of_outlier_idcs.
      destruct (lookup_lt_is_Some_2 pk k) as [p Hp0]; [lia|].
      destruct (lookup_lt_is_Some_2 pk (S k)) as [p' Hp']; [lia|].
      exists p, p'. do 2 (split; [done|]).
      pose proof (increasing_diff_pos _ _ _ _ Hpk Hp0 Hp').
      apply too_fast_rate_neg; lia. }
    f_equal; apply delete_from_all_but_last.
    + intros k _ Hk. apply Hall. simpl in Hk. lia.
    + intros k Hk%outlier_idcs_in_range. simpl. lia.
    + intros k _ Hk. apply Hall. simpl in Hk. lia.
    + intros k Hk%outlier_idcs_in_range. simpl. lia.
Qed.

Lemma biosppy_nonpositive_rate_witness :
  _rsp_findpeaks_biosppy fast_breaths (-4)
  = Ok (if decide ((-4)%Z = 0%Z) then Info [10; 16] [7; 13]
        else Info (option_list (last (RSP_Peaks (Info [10; 16] [7; 13]))))
                  (option_list (last (RSP_Troughs (Info [10; 16] [7; 13]))))).
Proof.
  apply (biosppy_nonpositive_rate fast_breaths (-4) (Info [10; 16] [7; 13])).
  - lia.
  - vm_compute. reflexivity.
Defined.

(** ** The pipelines that delegate, and the dispatch around them *)

Section Delegates.
Variable detect_peaks_troughs :
  list Qc → string → Qc → Z → result (list nat * list nat).
Variable find_peaks : list Qc → Qc → Qc → result (list nat).

Lemma scipy_Ok s sr pd pp i :
  _rsp_findpeaks_scipy find_peaks s sr pd pp = Ok i ↔
  ∃ pk tr ex' amps',
    find_peaks s (Q2Qc (inject_Z sr) * pd)%Qc pp = Ok pk ∧
    find_peaks (Qcopp <$> s) (Q2Qc (inject_Z sr) * pd)%Qc pp = Ok tr ∧
    _rsp_findpeaks_outliers s (merge_sort (≤) (pk ++ tr)) 0%Qc = Ok (ex', amps') ∧
    _rsp_findpeaks_sanitize ex' amps' = Ok (RSP_Peaks i, RSP_Troughs i).
Proof.
  unfold _rsp_findpeaks_scipy. rewrite within_Ok. split.
  - intros (pk & Hpk & (tr & Htr & ([ex' amps'] & Hout & ([p t] & Hsan &
      [= <-])%bind_Ok)%bind_Ok)%bind_Ok)%bind_Ok.
    by exists pk, tr, ex', amps'.
  - intros (pk & tr & ex' & amps' & Hpk & Htr & Hout & Hsan).
    destruct i as [p t]. simpl in *.
    apply bind_Ok. exists pk. split; [done|].
    apply bind_Ok. exists tr. split; [done|].
    apply bind_Ok. exists (ex', amps'). split; [done|].
    apply bind_Ok. by exists (p, t).
Qed.

(** X18.  When the scipy pipeline returns, both calls of [find_peaks]
    returned, the peaks and the troughs have the same length, every returned
    position is a position of the signal that one of the two calls found,
    and the two calls found at least one position more than is returned. *)
Theorem scipy_returns (s : list Qc) (sampling_rate : Z)
    (peak_distance peak_prominence : Qc) (i : info) :
  _rsp_findpeaks_scipy find_peaks s sampling_rate peak_distance peak_prominence
  = Ok i →
  ∃ pk tr,
    find_peaks s (Q2Qc (inject_Z sampling_rate) * peak_distance)%Qc
      peak_prominence = Ok pk ∧
    find_peaks (Qcopp <$> s) (Q2Qc (inject_Z sampling_rate) * peak_distance)%Qc
      peak_prominence = Ok tr ∧
    length (RSP_Peaks i) = length (RSP_Troughs i) ∧
    (∀ x, x ∈ RSP_Peaks i ∨ x ∈ RSP_Troughs i →
          x < length s ∧ (x ∈ pk ∨ x ∈ tr)) ∧
    length (RSP_Peaks i) + length (RSP_Troughs i) + 1
      ≤ length pk + length tr.
Proof.
  intros (pk & tr & ex' & amps' & Hpk & Htr & Hout & Hsan)%scipy_Ok.
  exists pk, tr. do 2 (split; [done|]).
  pose proof (outliers_length_le _ _ _ _ _ Hout) as Hle.
  rewrite merge_sort_Permutation, length_app in Hle.
  destruct (outliers_result _ _ _ _ _ Hout) as (Hsub & Hamps & _).
  assert (2 ≤ length ex') as Hlong.
  { rewrite <- (outliers_lengths _ _ _ _ _ Hout).
    destruct (decide (2 ≤ length amps')) as [|Hshort]; [done|].
    rewrite sanitize_short in Hsan by lia. done. }
  apply sanitize_Ok in Hsan as (e2 & Hs2 & -> & ->).
  destruct (length_troughs_peaks e2) as [-> ->].
  split; [done|]. split.
  - assert (∀ x, x ∈ e2 → x < length s ∧ (x ∈ pk ∨ x ∈ tr)) as Hin.
    { intros x Hx%(sublist_subseteq _ _ Hs2). split.
      - apply list_elem_of_lookup in Hx as [k Hk].
        destruct (Forall2_lookup_l _ _ _ _ _ Hamps Hk) as (a & _ & Ha).
        by apply lookup_lt_Some in Ha.
      - apply Hsub in Hx. rewrite merge_sort_Permutation in Hx.
        by apply elem_of_app in Hx. }
    intros x [Hx%peaks_of_subseteq|Hx%troughs_of_subseteq]; by apply Hin.
  - apply sublist_length in Hs2.
    pose proof (Nat.div_mod_eq (length e2) 2) as Hdm.
    pose proof (Nat.mod_upper_bound (length e2) 2). lia.
Qed.

(** X19.  When the two calls of [find_peaks] find fewer than three
    positions between them, the scipy pipeline raises an IndexError: in the
    sanitizer when the positions are positions of the signal, in the outlier
    filter when one of them is not. *)
Theorem scipy_too_few (s : list Qc) (sampling_rate : Z)
    (peak_distance peak_prominence : Qc) (pk tr : list nat) :
  find_peaks s (Q2Qc (inject_Z sampling_rate) * peak_distance)%Qc
    peak_prominence = Ok pk →
  find_peaks (Qcopp <$> s) (Q2Qc (inject_Z sampling_rate) * peak_distance)%Qc
    peak_prominence = Ok tr →
  length pk + length tr < 3 →
  _rsp_findpeaks_scipy find_peaks s sampling_rate peak_distance peak_prominence
  = Raise IndexError
      [in_scipy;
       if decide (Forall (λ e, e < length s) (pk ++ tr)) then in_sanitize
       else in_outliers].
Proof.
  intros Hpk Htr Hfew. unfold _rsp_findpeaks_scipy.
  rewrite Hpk. simpl. rewrite Htr. simpl.
  set (ex := merge_sort (≤) (pk ++ tr)).
  assert (Forall (λ e, e < length s) ex ↔ Forall (λ e, e < length s) (pk ++ tr))
    as Hperm by (unfold ex; by rewrite merge_sort_Permutation).
  case_decide as Hrange.
  - apply Hperm in Hrange.
    destruct (outliers_is_Ok s ex 0%Qc Hrange) as (ex' & amps' & Hout).
    rewrite Hout. simpl.
    pose proof (outliers_length_le _ _ _ _ _ Hout) as Hle.
    unfold ex in Hle. rewrite merge_sort_Permutation, length_app in Hle.
    rewrite sanitize_short; [done|].
    rewrite (outliers_lengths _ _ _ _ _ Hout). lia.
  - unfold _rsp_findpeaks_outliers, amplitude_filter.
    rewrite take_idx_out_of_range; [done|]. by rewrite Hperm.
Qed.

Local Abbreviation run := (rsp_findpeaks detect_peaks_troughs find_peaks).

(** X20.  Under the names noto and noto2018, in any capitalisation,
    [rsp_findpeaks] hands the samples, an empty string, [delta] and
    [lookahead] to [detect_peaks_troughs] and returns that call's peaks and
    troughs as they are; an exception of that call comes out with the frames
    of the two callers put before its traceback. *)
Theorem noto_passes_through (x : rsp_input) (a : list Qc) (sampling_rate : Z)
    (method : string) (amplitude_min peak_distance peak_prominence delta : Qc)
    (lookahead : Z) :
  retrieve_column x = Ok a →
  lower method ∈ ["noto"; "noto2018"] →
  (∀ i, rsp_findpeaks detect_peaks_troughs find_peaks
          x sampling_rate method amplitude_min peak_distance peak_prominence
          delta lookahead = Ok i ↔
        detect_peaks_troughs a "" delta lookahead
        = Ok (RSP_Peaks i, RSP_Troughs i)) ∧
  (∀ e tb, detect_peaks_troughs a "" delta lookahead = Raise e tb →
           rsp_findpeaks detect_peaks_troughs find_peaks
             x sampling_rate method amplitude_min peak_distance peak_prominence
             delta lookahead
           = Raise e (in_rsp_findpeaks :: in_noto :: tb)).
Proof.
  intros Hx Hm.
  assert (run x sampling_rate method amplitude_min peak_distance peak_prominence
            delta lookahead
          = within in_rsp_findpeaks
              (_rsp_findpeaks_noto detect_peaks_troughs a delta lookahead)) as ->.
  { unfold rsp_findpeaks. rewrite Hx. simpl.
    assert (lower method = "noto" ∨ lower method = "noto2018") as Hcases.
    { apply elem_of_cons in Hm as [->|Hm]; [by left|].
      apply elem_of_cons in Hm as [->|Hm]; [by right|].
      by apply elem_of_nil in Hm. }
    by destruct Hcases as [-> | ->]. }
  unfold _rsp_findpeaks_noto. split.
  - intros [pk tr]. simpl. rewrite !within_Ok, bind_Ok. split.
    + by intros ([p t] & Hd & [= -> ->]).
    + intros Hd. by exists (pk, tr).
  - intros e tb ->. done.
Qed.

(** X21.  A table with an "RSP_Clean" column is read through that column
    alone: the call returns or raises exactly as it does on the column
    itself, whatever the table's other columns are. *)
Theorem clean_column_alone (df : gmap string (list Qc)) (c : list Qc)
    (sampling_rate : Z) (method : string)
    (amplitude_min peak_distance peak_prominence delta : Qc) (lookahead : Z) :
  df !! "RSP_Clean" = Some c →
  rsp_findpeaks detect_peaks_troughs find_peaks
    (DataFrame df) sampling_rate method amplitude_min peak_distance
    peak_prominence delta lookahead
  = rsp_findpeaks detect_peaks_troughs find_peaks
      (Samples c) sampling_rate method amplitude_min peak_distance
      peak_prominence delta lookahead.
Proof.
  intros Hdf. unfold rsp_findpeaks.
  rewrite retrieve_column_DataFrame. unfold column. by rewrite Hdf.
Qed.

(** X22.  Under the names khodadad, khodadad2018 and biosppy, in any
    capitalisation, the outcome of [rsp_findpeaks] does not depend on
    [detect_peaks_troughs] or [find_peaks]: neither is called. *)
Theorem core_methods_call_no_collaborator
    (detect_peaks_troughs' : list Qc → string → Qc → Z → result (list nat * list nat))
    (find_peaks' : list Qc → Qc → Qc → result (list nat))
    (x : rsp_input) (sampling_rate : Z) (method : string)
    (amplitude_min peak_distance peak_prominence delta : Qc) (lookahead : Z) :
  lower method ∈ ["khodadad"; "khodadad2018"; "biosppy"] →
  rsp_findpeaks detect_peaks_troughs find_peaks
    x sampling_rate method amplitude_min peak_distance peak_prominence
    delta lookahead
  = rsp_findpeaks detect_peaks_troughs' find_peaks'
      x sampling_rate method amplitude_min peak_distance peak_prominence
      delta lookahead.
Proof.
  intros Hm.
  assert (lower method ∈ ["khodadad"; "khodadad2018"] ∨ lower method = "biosppy")
    as Hcases.
  { apply elem_of_cons in Hm as [->|Hm]; [left; repeat constructor|].
    apply elem_of_cons in Hm as [->|Hm]; [left; repeat constructor|].
    apply elem_of_cons in Hm as [->|Hm]; [by right|].
    by apply elem_of_nil in Hm. }
  destruct (retrieve_column x) as [a|e tb] eqn:Hx.
  - destruct Hcases as [Hk|Hb].
    + by rewrite !(rsp_findpeaks_khodadad _ _ _ a) by done.
    + by rewrite !(rsp_findpeaks_biosppy _ _ _ a) by done.
  - unfold rsp_findpeaks. by rewrite Hx.
Qed.

End Delegates.

Lemma scipy_returns_witness :
  ∃ pk tr,
    strict_local_maxima distinct_breaths
      (Q2Qc (inject_Z 1) * Q2Qc (8 # 10))%Qc (Q2Qc (1 # 2)) = Ok pk ∧
    strict_local_maxima (Qcopp <$> distinct_breaths)
      (Q2Qc (inject_Z 1) * Q2Qc (8 # 10))%Qc (Q2Qc (1 # 2)) = Ok tr ∧
    length (RSP_Peaks (Info [5; 9] [3; 7]))
    = length (RSP_Troughs (Info [5; 9] [3; 7])) ∧
    (∀ x, x ∈ RSP_Peaks (Info [5; 9] [3; 7]) ∨
          x ∈ RSP_Troughs (Info [5; 9] [3; 7]) →
          x < length distinct_breaths ∧ (x ∈ pk ∨ x ∈ tr)) ∧
    length (RSP_Peaks (Info [5; 9] [3; 7]))
      + length (RSP_Troughs (Info [5; 9] [3; 7])) + 1
      ≤ length pk + length tr.
Proof.
  apply (scipy_returns strict_local_maxima distinct_breaths 1
           (Q2Qc (8 # 10)) (Q2Qc (1 # 2))).
  vm_compute. reflexivity.
Defined.

Lemma scipy_too_few_witness :
  _rsp_findpeaks_scipy strict_local_maxima ramp 1 (Q2Qc (8 # 10)) (Q2Qc (1 # 2))
  = Raise IndexError
      [in_scipy;
       if decide (Forall (λ e, e < length ramp) ([] ++ [])) then in_sanitize
       else in_outliers].
Proof.
  apply (scipy_too_few strict_local_maxima ramp 1 (Q2Qc (8 # 10)) (Q2Qc (1 # 2))).
  - vm_compute. reflexivity.
  - vm_compute. reflexivity.
  - simpl. lia.
Defined.

Lemma noto_passes_through_witness :
  (∀ i, rsp_findpeaks uneven_detector no_find_peaks (Samples breaths) 1000
          "Noto2018" (Q2Qc (3 # 10)) 0%Qc 0%Qc 0%Qc 200 = Ok i ↔
        uneven_detector breaths "" 0%Qc 200 = Ok (RSP_Peaks i, RSP_Troughs i)) ∧
  (∀ e tb, uneven_detector breaths "" 0%Qc 200 = Raise e tb →
           rsp_findpeaks uneven_detector no_find_peaks (Samples breaths) 1000
             "Noto2018" (Q2Qc (3 # 10)) 0%Qc 0%Qc 0%Qc 200
           = Raise e (in_rsp_findpeaks :: in_noto :: tb)).
Proof.
  apply (noto_passes_through uneven_detector no_find_peaks
           (Samples breaths) breaths).
  - reflexivity.
  - vm_compute. repeat constructor.
Defined.

Lemma clean_column_alone_witness :
  rsp_findpeaks no_detector no_find_peaks (DataFrame clean_and_raw) 1000
    "khodadad2018" (Q2Qc (3 # 10)) 0%Qc 0%Qc 0%Qc 200
  = rsp_findpeaks no_detector no_find_peaks (Samples breaths) 1000
      "khodadad2018" (Q2Qc (3 # 10)) 0%Qc 0%Qc 0%Qc 200.
Proof.
  apply (clean_column_alone no_detector no_find_peaks clean_and_raw breaths).
  vm_compute. reflexivity.
Defined.

Lemma core_methods_call_no_collaborator_witness :
  rsp_findpeaks no_detector no_find_peaks (Samples breaths) 1000
    "Khodadad2018" (Q2Qc (3 # 10)) 0%Qc 0%Qc 0%Qc 200
  = rsp_findpeaks uneven_detector strict_local_maxima (Samples breaths) 1000
      "Khodadad2018" (Q2Qc (3 # 10)) 0%Qc 0%Qc 0%Qc 200.
Proof.
  apply (core_methods_call_no_collaborator no_detector no_find_peaks
           uneven_detector strict_local_maxima).
  vm_compute. repeat constructor.
Defined.

(** ** The inverted signal *)

Lemma Qc_opp_lt (x y : Qc) : (- x < - y)%Qc ↔ (y < x)%Qc.
Proof.
  split; intros H; apply Qcnot_le_lt; intros Hle; apply Qcopp_le_compat in Hle;
    rewrite ?Qcopp_involutive in Hle; by apply Qclt_not_le in H.
Qed.

Lemma Qc_opp_pos (x : Qc) : (0 < - x)%Qc ↔ (x < 0)%Qc.
Proof. replace 0%Qc with (- 0)%Qc at 1 by ring. apply Qc_opp_lt. Qed.

Lemma Qc_opp_neg (x : Qc) : (- x < 0)%Qc ↔ (0 < x)%Qc.
Proof. replace 0%Qc with (- 0)%Qc at 1 by ring. apply Qc_opp_lt. Qed.

Lemma greater_opp (s : list Qc) : greater (Qcopp <$> s) = smaller s.
Proof.
  unfold greater, smaller. rewrite <- list_fmap_compose.
  apply list_fmap_ext. intros _ x _. simpl. apply bool_decide_ext, Qc_opp_pos.
Qed.

Lemma smaller_opp (s : list Qc) : smaller (Qcopp <$> s) = greater s.
Proof.
  unfold greater, smaller. rewrite <- list_fmap_compose.
  apply list_fmap_ext. intros _ x _. simpl. apply bool_decide_ext, Qc_opp_neg.
Qed.

Lemma risex_opp (s : list Qc) : risex (Qcopp <$> s) = fallx s.
Proof. unfold risex, fallx. by rewrite greater_opp, smaller_opp. Qed.

Lemma fallx_opp (s : list Qc) : fallx (Qcopp <$> s) = risex s.
Proof. unfold risex, fallx. by rewrite greater_opp, smaller_opp. Qed.

Lemma allx_opp (s : list Qc) : allx (Qcopp <$> s) = allx s.
Proof.
  apply (StronglySorted_unique_strong lt);
    [intros; lia | apply allx_increasing..|].
  unfold allx. rewrite !merge_sort_Permutation, risex_opp, fallx_opp.
  apply Permutation_app_comm.
Qed.

Lemma slice_fmap {A B} (f : A → B) (a : list A) b e :
  slice (f <$> a) b e = f <$> slice a b e.
Proof. unfold slice. by rewrite fmap_take, fmap_drop. Qed.

Lemma argmax_from_opp (a : list Qc) best_i best i :
  argbest_from (λ x best, bool_decide (best < x)%Qc) best_i (- best)%Qc i
    (Qcopp <$> a)
  = argbest_from (λ x best, bool_decide (x < best)%Qc) best_i best i a.
Proof.
  revert best_i best i. induction a as [|x a IH]; intros best_i best i; [done|].
  rewrite fmap_cons. cbn [argbest_from].
  rewrite (bool_decide_ext _ _ (Qc_opp_lt best x)).
  destruct (bool_decide (x < best)%Qc); apply IH.
Qed.

Lemma argmin_from_opp (a : list Qc) best_i best i :
  argbest_from (λ x best, bool_decide (x < best)%Qc) best_i (- best)%Qc i
    (Qcopp <$> a)
  = argbest_from (λ x best, bool_decide (best < x)%Qc) best_i best i a.
Proof.
  revert best_i best i. induction a as [|x a IH]; intros best_i best i; [done|].
  rewrite fmap_cons. cbn [argbest_from].
  rewrite (bool_decide_ext _ _ (Qc_opp_lt x best)).
  destruct (bool_decide (best < x)%Qc); apply IH.
Qed.

Lemma np_argmax_opp (a : list Qc) :
  a ≠ [] → np_argmax (Qcopp <$> a) = np_argmin a.
Proof.
  destruct a as [|x a]; [done|]. intros _.
  unfold np_argmax, np_argmin, argbest. rewrite fmap_cons.
  by rewrite argmax_from_opp.
Qed.

Lemma np_argmin_opp (a : list Qc) :
  a ≠ [] → np_argmin (Qcopp <$> a) = np_argmax a.
Proof.
  destruct a as [|x a]; [done|]. intros _.
  unfold np_argmax, np_argmin, argbest. rewrite fmap_cons.
  by rewrite argmin_from_opp.
Qed.

Lemma extrema_step_opp (s : list Qc) (r0 f0 : nat) (cr : list nat) i beg end_ :
  r0 ≠ f0 → cr !! i = Some beg → cr !! (i + 1) = Some end_ →
  slice s beg end_ ≠ [] →
  extrema_step (Qcopp <$> s) (startx_of f0 r0) cr i
  = extrema_step s (startx_of r0 f0) cr i.
Proof.
  intros Hne Hb He Hslice. unfold extrema_step, getitem.
  rewrite Hb, He. unfold startx_of, argextreme.
  repeat case_decide; try lia; simpl; rewrite slice_fmap;
    by rewrite ?np_argmax_opp, ?np_argmin_opp by done.
Qed.

Lemma mapM_ext_in {A B} (f g : A → result B) (l : list A) :
  (∀ x, x ∈ l → f x = g x) → mapM f l = mapM g l.
Proof.
  induction l as [|x l IH]; intros Hfg; [done|]. simpl.
  rewrite (Hfg x) by constructor.
  rewrite IH; [done|]. intros y Hy. apply Hfg. by constructor.
Qed.

(** X23.  The locator finds the same extrema in a signal and in its
    inversion, and fails on the one as it fails on the other: the rising
    crossings of the one are the falling crossings of the other, and the
    first maximum of a window is the first minimum of the inverted window. *)
Theorem extrema_of_inverted (s : list Qc) :
  risex (Qcopp <$> s) = fallx s ∧ fallx (Qcopp <$> s) = risex s ∧
  _rsp_findpeaks_extrema (Qcopp <$> s) = _rsp_findpeaks_extrema s.
Proof.
  split; [apply risex_opp|]. split; [apply fallx_opp|].
  unfold _rsp_findpeaks_extrema. rewrite risex_opp, fallx_opp, allx_opp.
  unfold getitem.
  destruct (risex s !! 0) as [r0|] eqn:Hr, (fallx s !! 0) as [f0|] eqn:Hf;
    [|done..].
  simpl. f_equal. apply mapM_ext_in. intros i Hi%elem_of_seq.
  destruct (lookup_lt_is_Some_2 (allx s) i) as [beg Hb]; [lia|].
  destruct (lookup_lt_is_Some_2 (allx s) (i + 1)) as [end_ He]; [lia|].
  apply (extrema_step_opp s r0 f0 (allx s) i beg end_); [|done..|].
  - intros <-.
    apply list_elem_of_lookup_2, elem_of_risex in Hr as (x & _ & Hx & _ & Hneg & _).
    apply list_elem_of_lookup_2, elem_of_fallx in Hf as (x' & _ & Hx' & _ & Hpos & _).
    rewrite Hx in Hx'. injection Hx' as <-.
    by apply (Qclt_irrefl x), (Qclt_trans _ 0%Qc).
  - pose proof (proj1 (increasing_lookup (allx s)) (allx_increasing s)
                  i (i + 1) beg end_ Hb He) as Hlt.
    pose proof (allx_in_range s beg (list_elem_of_lookup_2 _ _ _ Hb)) as Hin.
    intros Hnil. apply (f_equal length) in Hnil. unfold slice in Hnil.
    rewrite length_take, length_drop in Hnil. simpl in Hnil. lia.
Qed.

Lemma getitem_fmap {A B} (f : A → B) (a : list A) (i : nat) :
  getitem (f <$> a) i
  = match getitem a i with
    | Ok x => Ok (f x)
    | Raise e tb => Raise e tb
    end.
Proof. unfold getitem. rewrite list_lookup_fmap. by destruct (a !! i). Qed.

Lemma take_idx_fmap {A B} (f : A → B) (a : list A) (idx : list nat) :
  take_idx (f <$> a) idx
  = match take_idx a idx with
    | Ok k => Ok (f <$> k)
    | Raise e tb => Raise e tb
    end.
Proof.
  unfold take_idx. induction idx as [|i idx IH]; [done|]. simpl.
  rewrite getitem_fmap. destruct (getitem a i) as [x|]; simpl; [|done].
  rewrite IH. by destruct (mapM (getitem a) idx).
Qed.

Lemma delete_from_fmap {A B} (f : A → B) i obj (a : list A) :
  delete_from i obj (f <$> a) = f <$> delete_from i obj a.
Proof.
  revert i. induction a as [|x a IH]; intros i; [done|].
  rewrite fmap_cons. cbn [delete_from].
  case_bool_decide; [apply IH|]. rewrite fmap_cons. f_equal. apply IH.
Qed.

Lemma np_delete_fmap {A B} (f : A → B) (a : list A) obj :
  np_delete (f <$> a) obj
  = match np_delete a obj with
    | Ok k => Ok (f <$> k)
    | Raise e tb => Raise e tb
    end.
Proof.
  unfold np_delete. rewrite length_fmap.
  destruct (forallb _ obj); [|done]. by rewrite delete_from_fmap.
Qed.

Lemma zip_with_fmap_both {A B} (h : A → A → B) (g : A → A) (g' : B → B)
    (a b : list A) :
  (∀ x y, h (g x) (g y) = g' (h x y)) →
  zip_with h (g <$> a) (g <$> b) = g' <$> zip_with h a b.
Proof.
  intros Hh. revert b. induction a as [|x a IH]; intros [|y b]; [done..|].
  rewrite !fmap_cons. simpl. by rewrite Hh, IH.
Qed.

Lemma np_diff_opp (a : list Qc) : np_diff (Qcopp <$> a) = Qcopp <$> np_diff a.
Proof.
  unfold np_diff, from_1. rewrite <- fmap_drop.
  apply zip_with_fmap_both. intros x y. ring.
Qed.

Lemma np_abs_opp (d : list Qc) : np_abs (Qcopp <$> d) = np_abs d.
Proof.
  unfold np_abs. rewrite <- list_fmap_compose.
  apply list_fmap_ext. intros _ x _. simpl. apply Qcabs_opp.
Qed.

Lemma min_diff_opp (amps : list Qc) (amin : Qc) :
  min_diff (Qcopp <$> amps) amin = min_diff amps amin.
Proof. unfold min_diff. by rewrite np_diff_opp, np_abs_opp. Qed.

Lemma sign_opp (x : Qc) : sign (- x) = (- sign x)%Z.
Proof.
  unfold sign.
  rewrite (bool_decide_ext _ _ (Qc_opp_neg x)), (bool_decide_ext _ _ (Qc_opp_pos x)).
  repeat case_bool_decide; try done.
  exfalso. by apply (Qclt_irrefl x), (Qclt_trans _ 0%Qc).
Qed.

Lemma removeext_opp (amps : list Qc) :
  removeext (Qcopp <$> amps) = removeext amps.
Proof.
  unfold removeext. rewrite np_diff_opp. unfold np_sign.
  rewrite <- !list_fmap_compose.
  rewrite (list_fmap_ext (sign ∘ Qcopp) (Z.opp ∘ sign) (np_diff amps))
    by (intros _ x _; apply sign_opp).
  rewrite list_fmap_compose. unfold but_last, from_1.
  rewrite length_fmap, <- fmap_take, <- fmap_drop.
  rewrite (zip_with_fmap_both Z.add Z.opp Z.opp) by (intros; lia).
  rewrite <- list_fmap_compose. do 2 f_equal.
  apply list_fmap_ext. intros _ d _. simpl. apply bool_decide_ext. lia.
Qed.

(** X24.  On the inverted signal the outlier filter keeps the same extrema:
    its amplitude test and its alternation repair look at the differences of
    the amplitudes through their absolute value and through the changes of
    their sign.  The amplitudes it returns are the inverted ones, and it
    raises when it raises on the signal itself. *)
Theorem outliers_of_inverted (s : list Qc) (ex : list nat) (amplitude_min : Qc) :
  _rsp_findpeaks_outliers (Qcopp <$> s) ex amplitude_min
  = match _rsp_findpeaks_outliers s ex amplitude_min with
    | Ok (ex', amps') => Ok (ex', Qcopp <$> amps')
    | Raise e tb => Raise e tb
    end.
Proof.
  unfold _rsp_findpeaks_outliers, amplitude_filter, alternation_repair.
  rewrite take_idx_fmap.
  destruct (take_idx s ex) as [amps|]; simpl; [|done].
  rewrite min_diff_opp.
  destruct (take_idx ex (min_diff amps amplitude_min)) as [ex1|]; simpl; [|done].
  rewrite take_idx_fmap.
  destruct (take_idx s ex1) as [amps1|]; simpl; [|done].
  rewrite removeext_opp, np_delete_fmap.
  destruct (np_delete ex1 (removeext amps1)) as [ex'|]; simpl; [|done].
  by destruct (np_delete amps1 (removeext amps1)).
Qed.

(** * The merged output: by position, and by amplitude *)





Example deep_shallow_deep_output :
  _rsp_findpeaks_khodadad deep_shallow_deep (Q2Qc (3 # 10))
  = Ok (Info [6; 20] [4; 8]) ∧
  take_idx deep_shallow_deep [4; 6; 8; 20]
  = Ok (Q2Qc <$> [-20; 20; -10; -20]%Q) ∧
  (tested_amplitudes deep_shallow_deep (Q2Qc (3 # 10)) ≫= λ amps, Ok (level_free amps))
  = Ok false.
Proof. vm_compute. done. Qed.


